(** * Case-conversion utilities: kebab-case, camelCase, dot.case

    A shallow embedding of the string converters of the repository

    - [chain_prompt.toKebabCase]    (the file headed "chain_prompt.js"),
    - [refined_prompt.toCamelCase] and [refined_prompt.toDotCase]
      (src/refined_prompt.js),
    - [few_shot_prompt.toCamelCase] (src/few_shot_prompt.js),

    and the properties of their normalisation, segmentation and rendering
    steps.

    Strings are JavaScript strings: sequences of UTF-16 code units.  Regular
    expressions carrying the [u] flag read the string code point by code
    point; the others read it code unit by code unit.  The tables of the host
    engine (general categories, NFKD, case mappings) are a parameter
    [Unicode]; what the proofs need from them is collected in [UnicodeLaws],
    and [sample] is an engine with a small table that satisfies them. *)

From Stdlib Require Import ZArith List Bool Lia String Ascii.
Import ListNotations.
Local Open Scope Z_scope.

(** ** Strings and values *)

(** A string is the list of its code units. *)
Abbreviation jsstring := (list Z) (only parsing).

Definition char_code (a : ascii) : Z := Z.of_N (N_of_ascii a).

(** An ASCII literal as a JavaScript string. *)
Fixpoint js (s : string) : jsstring :=
  match s with
  | EmptyString => []
  | String a r => char_code a :: js r
  end.

Definition HYPHEN : Z := 45.
Definition SPACE : Z := 32.
Definition DOT : Z := 46.

(** The values of the language by their [typeof]; the converters look at the
    content of strings only. *)
Inductive value : Type :=
  | VUndefined
  | VNull
  | VBoolean (b : bool)
  | VNumber (n : Z)
  | VBigInt (n : Z)
  | VString (s : jsstring)
  | VSymbol
  | VFunction
  | VObject.

Definition typeof (v : value) : string :=
  match v with
  | VUndefined => "undefined"
  | VNull => "object"
  | VBoolean _ => "boolean"
  | VNumber _ => "number"
  | VBigInt _ => "bigint"
  | VString _ => "string"
  | VSymbol => "symbol"
  | VFunction => "function"
  | VObject => "object"
  end.

Definition is_string (v : value) : bool :=
  match v with VString _ => true | _ => false end.

Inductive error : Type :=
  | TypeError (message : string).

Inductive completion (A : Type) : Type :=
  | Return (a : A)
  | Throw (e : error).
Arguments Return {A} a.
Arguments Throw {A} e.

(** [try { body } catch (e) { handler }] around an assignment. *)
Definition try_catch {A} (body : completion A) (handler : error -> A) : A :=
  match body with
  | Return a => a
  | Throw e => handler e
  end.

(** ** UTF-16 *)

Definition is_high_surrogate (c : Z) : bool := (0xD800 <=? c) && (c <=? 0xDBFF).
Definition is_low_surrogate (c : Z) : bool := (0xDC00 <=? c) && (c <=? 0xDFFF).
Definition is_surrogate (c : Z) : bool := (0xD800 <=? c) && (c <=? 0xDFFF).

Definition pair_code_point (hi lo : Z) : Z :=
  (hi - 0xD800) * 0x400 + (lo - 0xDC00) + 0x10000.

(** The code points of a string; an unpaired surrogate is a code point of its
    own. *)
Fixpoint code_points (s : jsstring) : list Z :=
  match s with
  | [] => []
  | a :: t =>
      match t with
      | b :: r =>
          if is_high_surrogate a && is_low_surrogate b
          then pair_code_point a b :: code_points r
          else a :: code_points t
      | [] => [a]
      end
  end.

Definition is_astral (c : Z) : bool := (0x10000 <=? c) && (c <=? 0x10FFFF).

Definition utf16 (c : Z) : jsstring :=
  if is_astral c
  then [0xD800 + (c - 0x10000) / 0x400; 0xDC00 + (c - 0x10000) mod 0x400]
  else [c].

Definition from_code_points (l : list Z) : jsstring := flat_map utf16 l.

(** ** String.prototype methods that do not depend on the Unicode tables *)

(** WhiteSpace and LineTerminator of ECMAScript, what [trim] removes and
    [\s] matches. *)
Definition isWhiteSpace (c : Z) : bool :=
  ((9 <=? c) && (c <=? 13)) || (c =? 0x20) || (c =? 0xA0) || (c =? 0x1680)
  || ((0x2000 <=? c) && (c <=? 0x200A))
  || (c =? 0x2028) || (c =? 0x2029) || (c =? 0x202F) || (c =? 0x205F)
  || (c =? 0x3000) || (c =? 0xFEFF).

Fixpoint trimStart (s : jsstring) : jsstring :=
  match s with
  | [] => []
  | c :: t => if isWhiteSpace c then trimStart t else s
  end.

Definition trimEnd (s : jsstring) : jsstring := rev (trimStart (rev s)).

Definition trim (s : jsstring) : jsstring := trimEnd (trimStart s).

Definition charAt0 (s : jsstring) : jsstring :=
  match s with
  | [] => []
  | c :: _ => [c]
  end.

Definition slice1 (s : jsstring) : jsstring := tl s.

Definition nonempty (s : jsstring) : bool :=
  match s with [] => false | _ => true end.

(** [Array.prototype.join]. *)
Fixpoint join (sep : jsstring) (ws : list jsstring) : jsstring :=
  match ws with
  | [] => []
  | [w] => w
  | w :: rest => w ++ sep ++ join sep rest
  end.

(** ** Global replacement and splitting

    A matcher is tried at the current position; on success it gives the
    number of elements the match covers and the replacement text.  The scan
    resumes after the match, as [lastIndex] does. *)

Definition matcher := list Z -> option (nat * list Z).

Fixpoint replace_scan (m : matcher) (skip : nat) (s : list Z) : list Z :=
  match s with
  | [] => []
  | c :: t =>
      match skip with
      | S n => replace_scan m n t
      | O =>
          match m s with
          | Some (S n, r) => r ++ replace_scan m n t
          | Some (O, r) => r ++ c :: replace_scan m O t
          | None => c :: replace_scan m O t
          end
      end
  end.

(** [s.replace(/re/g, ...)], the regular expression reading code units. *)
Definition replace_all (m : matcher) (s : jsstring) : jsstring :=
  replace_scan m O s.

(** [s.replace(/re/gu, ...)], the regular expression reading code points. *)
Definition replace_all_u (m : matcher) (s : jsstring) : jsstring :=
  from_code_points (replace_scan m O (code_points s)).

Fixpoint split_scan (m : list Z -> option nat) (skip : nat) (cur : list Z)
    (s : list Z) : list jsstring :=
  match s with
  | [] => [rev cur]
  | c :: t =>
      match skip with
      | S n => split_scan m n cur t
      | O =>
          match m s with
          | Some (S n) => rev cur :: split_scan m n [] t
          | _ => split_scan m O (c :: cur) t
          end
      end
  end.

(** [s.split(/re/)] for a regular expression that matches no empty string. *)
Definition split (m : list Z -> option nat) (s : jsstring) : list jsstring :=
  split_scan m O [] s.

(** The length of the longest prefix whose elements satisfy [p]. *)
Fixpoint run_length (p : Z -> bool) (s : list Z) : nat :=
  match s with
  | c :: t => if p c then S (run_length p t) else O
  | [] => O
  end.

(** [/[class]+/]: a greedy non-empty run. *)
Definition run_match (p : Z -> bool) (s : list Z) : option nat :=
  match run_length p s with
  | O => None
  | n => Some n
  end.

(** [/[class]+/g] replaced by a fixed text. *)
Definition run_matcher (p : Z -> bool) (r : list Z) : matcher :=
  fun s => match run_match p s with Some n => Some (n, r) | None => None end.

(** [/([p])([q])/g] replaced by ['$1' + sep + '$2']. *)
Definition pair_matcher (p q : Z -> bool) (sep : Z) : matcher :=
  fun s =>
    match s with
    | a :: b :: _ => if p a && q b then Some (2%nat, [a; sep; b]) else None
    | _ => None
    end.

(** [/[class]/g] replaced by the empty string. *)
Definition delete_matcher (p : Z -> bool) : matcher :=
  fun s =>
    match s with
    | a :: _ => if p a then Some (1%nat, []) else None
    | [] => None
    end.

(** ** The Unicode tables of the engine *)

Inductive category : Type :=
  | Lu | Ll | Lt | Lm | Lo
  | Mn | Mc | Me
  | Nd | Nl | No
  | Punctuation | Symbol | Separator | Other.

Record Unicode : Type := {
  general_category : Z -> category;
  normalize_NFKD : jsstring -> jsstring;
  toLowerCase : jsstring -> jsstring;
  toUpperCase : jsstring -> jsstring
}.

Section Classes.
Variable U : Unicode.

(** [\p{L}], [\p{Lu}], [\p{Ll}], [\p{N}], [\p{Nd}], [\p{M}] *)
Definition isL (c : Z) : bool :=
  match general_category U c with Lu | Ll | Lt | Lm | Lo => true | _ => false end.
Definition isLu (c : Z) : bool :=
  match general_category U c with Lu => true | _ => false end.
Definition isLl (c : Z) : bool :=
  match general_category U c with Ll => true | _ => false end.
Definition isN (c : Z) : bool :=
  match general_category U c with Nd | Nl | No => true | _ => false end.
Definition isNd (c : Z) : bool :=
  match general_category U c with Nd => true | _ => false end.
Definition isM (c : Z) : bool :=
  match general_category U c with Mn | Mc | Me => true | _ => false end.

(** [[^\p{L}\p{N}]] *)
Definition isDelimiter (c : Z) : bool := negb (isL c || isN c).

(** [/\p{M}/gu] replaced by [''] *)
Definition re_marks : matcher := delete_matcher isM.

(** [/[^\p{L}\p{N}]+/gu] replaced by [sep] *)
Definition re_delimiters (sep : Z) : matcher := run_matcher isDelimiter [sep].
End Classes.

(** ASCII classes of the regular expressions without Unicode escapes. *)
Definition is_ascii_upper (c : Z) : bool := (65 <=? c) && (c <=? 90).
Definition is_ascii_lower (c : Z) : bool := (97 <=? c) && (c <=? 122).
Definition is_ascii_digit (c : Z) : bool := (48 <=? c) && (c <=? 57).
Definition is_ascii_alnum (c : Z) : bool :=
  is_ascii_upper c || is_ascii_lower c || is_ascii_digit c.

(** The general categories of Basic Latin. *)
Definition is_ascii_symbol (c : Z) : bool :=
  (c =? 36) || (c =? 43) || ((60 <=? c) && (c <=? 62)) || (c =? 94)
  || (c =? 96) || (c =? 124) || (c =? 126).

Definition ascii_category (c : Z) : category :=
  if is_ascii_upper c then Lu
  else if is_ascii_lower c then Ll
  else if is_ascii_digit c then Nd
  else if c =? 32 then Separator
  else if (c <? 32) || (c =? 127) then Other
  else if is_ascii_symbol c then Symbol
  else Punctuation.

Definition ascii_lower (c : Z) : Z := if is_ascii_upper c then c + 32 else c.
Definition ascii_upper (c : Z) : Z := if is_ascii_lower c then c - 32 else c.

(** [/(up+)(up lo)/g] replaced by ['$1-$2'].  The first group is greedy: it
    first takes the whole run of [up] and gives letters back one at a time
    until the second group matches. *)
Fixpoint acronym_backtrack (up lo : Z -> bool) (k : nat) (s : list Z) : option nat :=
  match k with
  | O => None
  | S k' =>
      match skipn k s with
      | a :: b :: _ =>
          if up a && lo b then Some k else acronym_backtrack up lo k' s
      | _ => acronym_backtrack up lo k' s
      end
  end.

Definition acronym_matcher (up lo : Z -> bool) : matcher :=
  fun s =>
    match acronym_backtrack up lo (run_length up s) s with
    | Some k => Some ((k + 2)%nat, firstn k s ++ HYPHEN :: firstn 2 (skipn k s))
    | None => None
    end.

Definition is_hyphen (c : Z) : bool := c =? HYPHEN.

(** [/-+/g] replaced by ['-'] *)
Definition re_hyphens : matcher := run_matcher is_hyphen [HYPHEN].

(** [s.replace(/^-|-$/g, '')]: the first alternative matches at index 0 only,
    the second at the last index only. *)
Definition drop_leading_hyphen (s : jsstring) : jsstring :=
  match s with
  | c :: t => if is_hyphen c then t else s
  | [] => []
  end.

Fixpoint drop_trailing_hyphen (s : jsstring) : jsstring :=
  match s with
  | [] => []
  | [c] => if is_hyphen c then [] else [c]
  | c :: t => c :: drop_trailing_hyphen t
  end.

Definition strip_edge_hyphens (s : jsstring) : jsstring :=
  drop_trailing_hyphen (drop_leading_hyphen s).

(** ** The file headed "chain_prompt.js": toKebabCase *)

Module chain_prompt.
Section ToKebabCase.
Variable U : Unicode.

(** [/([\p{Ll}\p{Nd}])(\p{Lu})/gu], ['$1-$2'] *)
Definition re_lower_upper : matcher :=
  pair_matcher (fun c => isLl U c || isNd U c) (isLu U) HYPHEN.

(** [/(\p{Lu}+)(\p{Lu}\p{Ll})/gu], ['$1-$2'] *)
Definition re_acronym : matcher := acronym_matcher (isLu U) (isLl U).

(** The regular expressions of the [catch] handlers. *)
Definition is_combining_diacritical (c : Z) : bool := (0x300 <=? c) && (c <=? 0x36F).
Definition re_lower_upper_ascii : matcher :=
  pair_matcher (fun c => is_ascii_lower c || is_ascii_digit c) is_ascii_upper HYPHEN.
Definition re_acronym_ascii : matcher :=
  acronym_matcher is_ascii_upper is_ascii_lower.
Definition re_delimiters_ascii : matcher :=
  run_matcher (fun c => negb (is_ascii_alnum c)) [HYPHEN].

(** The [try] blocks guard against an engine without Unicode property
    escapes; with the tables of [U] at hand their bodies complete
    normally, and the handlers are kept as the source has them. *)
Definition toKebabCase (input : value) : completion jsstring :=
  match input with
  | VString input =>
      (* Step 1 *)
      let s := trim input in
      (* Step 2 *)
      let s :=
        try_catch
          (Return (replace_all_u (re_marks U) (normalize_NFKD U s)))
          (fun _ =>
             replace_all (delete_matcher is_combining_diacritical)
               (normalize_NFKD U s)) in
      (* Step 3 *)
      let s :=
        try_catch
          (Return (replace_all_u re_acronym (replace_all_u re_lower_upper s)))
          (fun _ =>
             replace_all re_acronym_ascii (replace_all re_lower_upper_ascii s)) in
      (* Step 4 *)
      let s :=
        try_catch
          (Return (replace_all_u (re_delimiters U HYPHEN) s))
          (fun _ => replace_all re_delimiters_ascii s) in
      (* Step 5 *)
      let s := toLowerCase U (strip_edge_hyphens (replace_all re_hyphens s)) in
      Return s
  | _ => Throw (TypeError "toKebabCase: input must be a string")
  end.
End ToKebabCase.
End chain_prompt.

(** ** src/refined_prompt.js: toCamelCase and toDotCase *)

Module refined_prompt.
Section Refined.
Variable U : Unicode.

(** [/([\p{Ll}\p{N}])([\p{Lu}])/gu], ['$1 $2'] *)
Definition re_lower_upper : matcher :=
  pair_matcher (fun c => isLl U c || isN U c) (isLu U) SPACE.
(** [/([\p{L}])([\p{N}])/gu], ['$1 $2'] *)
Definition re_letter_number : matcher := pair_matcher (isL U) (isN U) SPACE.
(** [/([\p{N}])([\p{L}])/gu], ['$1 $2'] *)
Definition re_number_letter : matcher := pair_matcher (isN U) (isL U) SPACE.
(** [/\s+/] *)
Definition re_spaces : list Z -> option nat := run_match isWhiteSpace.

(** [`... expected a string but received ${input === null ? 'null' : typeof input}`] *)
Definition received (input : value) : string :=
  match input with
  | VNull => "null"
  | _ => typeof input
  end.

(** The words of the trimmed, non-empty [str]: the array [rawWords]. *)
Definition rawWords (str : jsstring) : list jsstring :=
  let str := replace_all_u (re_marks U) (normalize_NFKD U str) in
  let str :=
    replace_all_u re_number_letter
      (replace_all_u re_letter_number
         (replace_all_u re_lower_upper str)) in
  let str := replace_all_u (re_delimiters U SPACE) str in
  filter nonempty (split re_spaces str).

Definition lowerFirst (word : jsstring) : jsstring := toLowerCase U word.

Definition capitalize (word : jsstring) : jsstring :=
  match word with
  | [] => []
  | _ =>
      let firstChar := charAt0 word in
      if existsb (isN U) (code_points firstChar)
      then firstChar ++ toLowerCase U (slice1 word)
      else toUpperCase U firstChar ++ toLowerCase U (slice1 word)
  end.

Definition toCamelCase (input : value) : completion jsstring :=
  match input with
  | VString input =>
      let str := trim input in
      match str with
      | [] => Return []
      | _ =>
          match rawWords str with
          | [] => Return []
          | w0 :: others =>
              let first := lowerFirst w0 in
              let rest := join [] (map capitalize others) in
              Return (first ++ rest)
          end
      end
  | _ =>
      Throw (TypeError ("toCamelCase expected a string but received "
                        ++ received input))
  end.

(** The array [words] of toDotCase. *)
Definition words (str : jsstring) : list jsstring :=
  let str := replace_all_u (re_marks U) (normalize_NFKD U str) in
  let str :=
    replace_all_u re_number_letter
      (replace_all_u re_letter_number
         (replace_all_u re_lower_upper str)) in
  let str := replace_all_u (re_delimiters U SPACE) str in
  filter nonempty (split re_spaces str).

Definition toDotCase (input : value) : completion jsstring :=
  match input with
  | VString input =>
      let str := trim input in
      match str with
      | [] => Return []
      | _ =>
          match words str with
          | [] => Return []
          | ws => Return (join [DOT] (map (toLowerCase U) ws))
          end
      end
  | _ =>
      Throw (TypeError ("toDotCase expected a string but received "
                        ++ received input))
  end.
End Refined.
End refined_prompt.

(** ** src/few_shot_prompt.js: toCamelCase *)

Module few_shot_prompt.
Section FewShot.
Variable U : Unicode.

(** [/[^A-Za-z0-9]+/] *)
Definition re_separators : list Z -> option nat :=
  run_match (fun c => negb (is_ascii_alnum c)).

(** The callback of [parts.map], applied to the element and its index. *)
Definition camel_part (part : jsstring) (index : nat) : jsstring :=
  let lower := toLowerCase U part in
  match index with
  | O => lower
  | _ => toUpperCase U (charAt0 lower) ++ slice1 lower
  end.

Fixpoint map_indexed (f : jsstring -> nat -> jsstring) (i : nat)
    (l : list jsstring) : list jsstring :=
  match l with
  | [] => []
  | x :: r => f x i :: map_indexed f (S i) r
  end.

Definition toCamelCase (input : value) : completion jsstring :=
  match input with
  | VString input =>
      let str := trim input in
      match str with
      | [] => Return []
      | _ =>
          let parts := filter nonempty (split re_separators str) in
          match parts with
          | [] => Return []
          | [single] =>
              Return (toLowerCase U (charAt0 single) ++ slice1 single)
          | _ => Return (join [] (map_indexed camel_part O parts))
          end
      end
  | _ => Return []
  end.
End FewShot.
End few_shot_prompt.

(** ** A small engine

    [sample] knows Basic Latin, eight precomposed letters of Latin-1, the
    combining marks U+0300..U+0314 (all of combining class 230, so NFKD never
    reorders them), the white space of ECMAScript, the ideograph U+4E2D,
    U+1D400 MATHEMATICAL BOLD CAPITAL A, and the Deseret letters U+10400 and
    U+10428 (a capital and its small letter outside the BMP), with the
    values the Unicode Character Database gives them.  Every other code point is unassigned for
    it. *)

Module Sample.

Record entry : Type := {
  e_code : Z;
  e_category : category;
  e_decomposition : list Z;
  e_other_case : Z
}.

Definition table : list entry :=
  [ {| e_code := 0xC5; e_category := Lu; e_decomposition := [0x41; 0x30A]; e_other_case := 0xE5 |};
    {| e_code := 0xC9; e_category := Lu; e_decomposition := [0x45; 0x301]; e_other_case := 0xE9 |};
    {| e_code := 0xCB; e_category := Lu; e_decomposition := [0x45; 0x308]; e_other_case := 0xEB |};
    {| e_code := 0xCF; e_category := Lu; e_decomposition := [0x49; 0x308]; e_other_case := 0xEF |};
    {| e_code := 0xE5; e_category := Ll; e_decomposition := [0x61; 0x30A]; e_other_case := 0xC5 |};
    {| e_code := 0xE9; e_category := Ll; e_decomposition := [0x65; 0x301]; e_other_case := 0xC9 |};
    {| e_code := 0xEB; e_category := Ll; e_decomposition := [0x65; 0x308]; e_other_case := 0xCB |};
    {| e_code := 0xEF; e_category := Ll; e_decomposition := [0x69; 0x308]; e_other_case := 0xCF |};
    {| e_code := 0x4E2D; e_category := Lo; e_decomposition := [0x4E2D]; e_other_case := 0x4E2D |};
    {| e_code := 0x1D400; e_category := Lu; e_decomposition := [0x41]; e_other_case := 0x1D400 |};
    {| e_code := 0x10400; e_category := Lu; e_decomposition := [0x10400]; e_other_case := 0x10428 |};
    {| e_code := 0x10428; e_category := Ll; e_decomposition := [0x10428]; e_other_case := 0x10400 |} ].

Definition lookup (c : Z) : option entry :=
  find (fun e => e_code e =? c) table.

Definition category_of (c : Z) : category :=
  if (0 <=? c) && (c <? 128) then ascii_category c
  else if (0x300 <=? c) && (c <=? 0x314) then Mn
  else if isWhiteSpace c && negb (c =? 0xFEFF) then Separator
  else match lookup c with
       | Some e => e_category e
       | None => Other
       end.

(** The space separators with a compatibility decomposition to U+0020. *)
Definition is_compat_space (c : Z) : bool :=
  (c =? 0xA0) || ((0x2000 <=? c) && (c <=? 0x200A)) || (c =? 0x202F)
  || (c =? 0x205F) || (c =? 0x3000).

Definition decomposition (c : Z) : list Z :=
  match lookup c with
  | Some e => e_decomposition e
  | None => if is_compat_space c then [0x20] else [c]
  end.

Definition lower (c : Z) : Z :=
  if is_ascii_upper c then c + 32
  else match lookup c with
       | Some e => match e_category e with Lu => e_other_case e | _ => c end
       | None => c
       end.

Definition upper (c : Z) : Z :=
  if is_ascii_lower c then c - 32
  else match lookup c with
       | Some e => match e_category e with Ll => e_other_case e | _ => c end
       | None => c
       end.

(** A code point that is no surrogate and has no decomposition. *)
Definition settled (c : Z) : Prop := is_surrogate c = false /\ decomposition c = [c].

Definition normalize (s : jsstring) : jsstring :=
  from_code_points (flat_map decomposition (code_points s)).

Definition lower_case (s : jsstring) : jsstring :=
  from_code_points (map lower (code_points s)).

Definition upper_case (s : jsstring) : jsstring :=
  from_code_points (map upper (code_points s)).

Definition engine : Unicode :=
  {| general_category := category_of;
     normalize_NFKD := normalize;
     toLowerCase := lower_case;
     toUpperCase := upper_case |}.

End Sample.

Definition sample : Unicode := Sample.engine.


(** ** Notions used in the statements *)

(** [s.isWellFormed()]: the string has no unpaired surrogate. *)
Definition well_formed (s : jsstring) : bool :=
  forallb (fun c => negb (is_surrogate c)) (code_points s).

(** [s.split(sep)] for a one-character separator, as in
    [toKebabCase(s).split('-')]. *)
Fixpoint split_char_scan (sep : Z) (cur : list Z) (s : jsstring) : list jsstring :=
  match s with
  | [] => [rev cur]
  | c :: t =>
      if c =? sep then rev cur :: split_char_scan sep [] t
      else split_char_scan sep (c :: cur) t
  end.

Definition split_char (sep : Z) (s : jsstring) : list jsstring :=
  split_char_scan sep [] s.

(** The value a converter returned, the empty string standing for a thrown
    error. *)
Definition returned (r : completion jsstring) : jsstring :=
  match r with
  | Return s => s
  | Throw _ => []
  end.

(** The camel rendering in the specification's words: the first token is
    lower-cased; of every later token the first character is upper-cased if
    it is a letter and left alone otherwise, and the remaining characters are
    lower-cased; the results are concatenated.  A character is a code point:
    the first character of a token that begins with a surrogate pair is the
    code point of the pair.  [raised] tells which first characters are
    upper-cased. *)
Definition first_character (token : jsstring) : jsstring :=
  match code_points token with
  | c :: _ => utf16 c
  | [] => []
  end.

Definition remaining_characters (token : jsstring) : jsstring :=
  from_code_points (tl (code_points token)).

Definition first_is (raised : Z -> bool) (token : jsstring) : bool :=
  match code_points token with
  | c :: _ => raised c
  | [] => false
  end.

Definition render_token (U : Unicode) (raised : Z -> bool) (token : jsstring) : jsstring :=
  (if first_is raised token then toUpperCase U (first_character token)
   else first_character token)
  ++ toLowerCase U (remaining_characters token).

Definition render_camel (U : Unicode) (raised : Z -> bool) (tokens : list jsstring)
  : jsstring :=
  match tokens with
  | [] => []
  | first :: rest =>
      toLowerCase U first ++ List.concat (map (render_token U raised) rest)
  end.

(** The specification's rule: a first character that is a letter. *)
Definition spec_camel_token (U : Unicode) (token : jsstring) : jsstring :=
  render_token U (isL U) token.

Definition spec_camel (U : Unicode) (tokens : list jsstring) : jsstring :=
  render_camel U (isL U) tokens.

(** The rule restricted to the Basic Multilingual Plane: a first character
    that is a letter and is encoded by one code unit. *)
Definition bmp_letter (U : Unicode) (c : Z) : bool := isL U c && negb (is_astral c).

Definition bmp_camel (U : Unicode) (tokens : list jsstring) : jsstring :=
  render_camel U (bmp_letter U) tokens.

(** The token does not begin with a letter outside the BMP that upper-casing
    changes. *)
Definition first_kept (U : Unicode) (token : jsstring) : Prop :=
  match code_points token with
  | c :: _ =>
      is_astral c = true -> isL U c = true -> toUpperCase U (utf16 c) = utf16 c
  | [] => True
  end.

Definition throws (r : completion jsstring) : bool :=
  match r with
  | Return _ => false
  | Throw _ => true
  end.

Definition is_ascii (c : Z) : Prop := 0 <= c < 128.

Section Laws.
Variable U : Unicode.

(** The normalised text of an input: its code points after trimming, NFKD
    and the removal of marks (what all three Unicode-aware converters
    compute first). *)
Definition normalized (input : jsstring) : list Z :=
  code_points (replace_all_u (re_marks U) (normalize_NFKD U (trim input))).

(** A code point NFKD leaves alone. *)
Definition stable (c : Z) : Prop := normalize_NFKD U (utf16 c) = utf16 c.

(** A stable code point that is neither a mark nor a surrogate. *)
Definition plain (c : Z) : Prop :=
  stable c /\ isM U c = false /\ is_surrogate c = false.

(** What lower-casing does to a plain code point [c], giving [c']. *)
Definition lowered (c c' : Z) : Prop :=
  plain c' /\ isLu U c' = false /\ isL U c' = isL U c /\ isN U c' = isN U c
  /\ (isL U c = false -> c' = c).

(** A code point of a word: a letter or a number that is stable or lies
    outside the BMP. *)
Definition word_char (c : Z) : Prop :=
  isDelimiter U c = false /\ (stable c \/ is_astral c = true).

(** What the proofs assume of the engine's tables.  These are facts of the
    Unicode Character Database and of the case and normalisation algorithms
    of the Unicode Standard. *)
Record UnicodeLaws : Prop := {
  (* general categories *)
  category_ascii : forall c, is_ascii c -> general_category U c = ascii_category c;
  category_surrogate : forall c, is_surrogate c = true -> general_category U c = Other;
  category_space : forall c, isWhiteSpace c = true -> isDelimiter U c = true;
  (* NFKD *)
  nfkd_well_formed : forall s, well_formed s = true -> well_formed (normalize_NFKD U s) = true;
  nfkd_stable : forall s, Forall stable (code_points (normalize_NFKD U s));
  nfkd_fixed : forall l, Forall plain l ->
    normalize_NFKD U (from_code_points l) = from_code_points l;
  nfkd_ascii : forall c, is_ascii c -> stable c;
  (* toLowerCase *)
  lower_plain : forall l, Forall plain l ->
    exists l', toLowerCase U (from_code_points l) = from_code_points l'
               /\ Forall2 lowered l l';
  lower_idempotent : forall l, Forall plain l ->
    toLowerCase U (toLowerCase U (from_code_points l))
    = toLowerCase U (from_code_points l);
  lower_hyphen : forall x y,
    toLowerCase U (x ++ HYPHEN :: y) = toLowerCase U x ++ HYPHEN :: toLowerCase U y;
  lower_low_surrogate : forall u x, is_low_surrogate u = true ->
    toLowerCase U (u :: x) = u :: toLowerCase U x;
  lower_word : forall l, Forall word_char l ->
    Forall (fun c => isDelimiter U c = false)
      (code_points (toLowerCase U (from_code_points l)))
    /\ (l <> [] -> toLowerCase U (from_code_points l) <> []);
  lower_ascii : forall s, Forall is_ascii s -> toLowerCase U s = map ascii_lower s;
  (* toUpperCase *)
  upper_surrogate : forall u, is_surrogate u = true -> toUpperCase U [u] = [u];
  upper_word : forall c, isL U c = true -> stable c -> is_astral c = false ->
    Forall (fun c' => isDelimiter U c' = false) (code_points (toUpperCase U [c]));
  upper_ascii : forall s, Forall is_ascii s -> toUpperCase U s = map ascii_upper s
}.
End Laws.

(** ** Auxiliary functions of the proofs *)

(** The head of [s] is not a low surrogate. *)
Definition no_low_head (s : list Z) : bool :=
  match s with
  | b :: _ => negb (is_low_surrogate b)
  | [] => true
  end.

(** No unpaired high surrogate is followed by an unpaired low one. *)
Fixpoint no_split_pair (l : list Z) : bool :=
  match l with
  | a :: t => (negb (is_high_surrogate a) || no_low_head t) && no_split_pair t
  | [] => true
  end.

(** What [/([p])([q])/g] with ['$1' + sep + '$2'] computes when [p] and [q]
    are disjoint: a separator between every adjacent pair. *)
Fixpoint insert_sep (p q : Z -> bool) (sep : Z) (s : list Z) : list Z :=
  match s with
  | [] => []
  | a :: t =>
      match t with
      | b :: _ => if p a && q b then a :: sep :: insert_sep p q sep t
                  else a :: insert_sep p q sep t
      | [] => [a]
      end
  end.

(** What [/[p]+/g] with a one-character replacement computes: every maximal
    run of [p] becomes one [sep].  [in_run] tells that the previous element
    was in [p]. *)
Fixpoint collapse (p : Z -> bool) (sep : Z) (in_run : bool) (s : list Z) : list Z :=
  match s with
  | [] => []
  | c :: t =>
      if p c then (if in_run then collapse p sep true t
                   else sep :: collapse p sep true t)
      else c :: collapse p sep false t
  end.

(** The head of [s] continues a token. *)
Definition continues (p : Z -> bool) (s : list Z) : bool :=
  match s with
  | d :: _ => negb (p d)
  | [] => false
  end.

Definition push (c : Z) (ws : list (list Z)) : list (list Z) :=
  match ws with
  | w :: r => (c :: w) :: r
  | [] => [[c]]
  end.

Definition prepend (w : list Z) (ws : list (list Z)) : list (list Z) :=
  match ws with
  | h :: r => (w ++ h) :: r
  | [] => [w]
  end.

(** The tokens of a text: its maximal runs of elements outside [p]. *)
Fixpoint tokens (p : Z -> bool) (s : list Z) : list (list Z) :=
  match s with
  | [] => []
  | c :: t =>
      if p c then tokens p t
      else if continues p t then push c (tokens p t)
      else [c] :: tokens p t
  end.

(** The pieces [split] cuts at the runs of [p], empty ones included. *)
Fixpoint pieces (p : Z -> bool) (in_run : bool) (s : list Z) : list (list Z) :=
  match s with
  | [] => [[]]
  | c :: t =>
      if p c then (if in_run then pieces p true t else [] :: pieces p true t)
      else push c (pieces p false t)
  end.

(** [s'] is [s] with some separators inserted. *)
Inductive inserted (sep : Z) : list Z -> list Z -> Prop :=
  | inserted_nil : inserted sep [] []
  | inserted_keep c s s' : inserted sep s s' -> inserted sep (c :: s) (c :: s')
  | inserted_add s s' : inserted sep s s' -> inserted sep s (sep :: s').

(** A token: a non-empty run of elements outside [p]. *)
Definition token (p : Z -> bool) (w : list Z) : Prop :=
  w <> [] /\ Forall (fun c => p c = false) w.

(** The boundary-marking steps on the code points of the normalised text. *)
Definition kebab_boundaries (U : Unicode) (n : list Z) : list Z :=
  replace_scan (chain_prompt.re_acronym U) O
    (replace_scan (chain_prompt.re_lower_upper U) O n).

Definition refined_boundaries (U : Unicode) (n : list Z) : list Z :=
  replace_scan (refined_prompt.re_number_letter U) O
    (replace_scan (refined_prompt.re_letter_number U) O
       (replace_scan (refined_prompt.re_lower_upper U) O n)).

(** The token sequences the converters render. *)
Definition kebab_tokens (U : Unicode) (input : jsstring) : list (list Z) :=
  tokens (isDelimiter U) (kebab_boundaries U (normalized U input)).

Definition refined_tokens (U : Unicode) (input : jsstring) : list (list Z) :=
  tokens (isDelimiter U) (refined_boundaries U (normalized U input)).

(** The text starts with an element of [p]. *)
Definition leading (p : Z -> bool) (s : list Z) : bool :=
  match s with
  | c :: _ => p c
  | [] => false
  end.

Definition not_nil {A} (l : list A) : bool :=
  match l with [] => false | _ => true end.

(** No two adjacent elements of [s] are related by [R]. *)
Definition ok_after (R : Z -> Z -> bool) (a : Z) (s : list Z) : bool :=
  match s with
  | b :: _ => negb (R a b)
  | [] => true
  end.

Fixpoint no_adjacent (R : Z -> Z -> bool) (s : list Z) : bool :=
  match s with
  | a :: t => ok_after R a t && no_adjacent R t
  | [] => true
  end.

(** A letter followed by a number, and a number followed by a letter. *)
Definition letter_number (U : Unicode) (a b : Z) : bool := isL U a && isN U b.
Definition number_letter (U : Unicode) (a b : Z) : bool := isN U a && isL U b.

(** A number followed by a letter where toDotCase alone starts a new word:
    every such pair but a decimal digit followed by an uppercase letter,
    where toKebabCase starts one too. *)
Definition number_before_letter (U : Unicode) (a b : Z) : bool :=
  isN U a && isL U b && negb (isNd U a && isLu U b).

(** The tokens as the renderers of toKebabCase and toDotCase lower-case
    them. *)
Definition lowered_tokens (U : Unicode) (ts : list (list Z)) : list jsstring :=
  map (fun t => toLowerCase U (from_code_points t)) ts.

(** A string whose code points are letters and numbers. *)
Definition wordy (U : Unicode) (s : jsstring) : Prop :=
  Forall (fun c => isDelimiter U c = false) (code_points s).

(** What lower-casing makes of a token of plain characters. *)
Definition lowered_token_of (U : Unicode) (t t' : list Z) : Prop :=
  toLowerCase U (from_code_points t) = from_code_points t'
  /\ Forall2 (lowered U) t t'
  /\ toLowerCase U (from_code_points t') = from_code_points t'.

(** A lower-cased token of a well-formed input: a token again, of plain
    characters, none uppercase, which lower-casing leaves alone. *)
Definition settled_token (U : Unicode) (t' : list Z) : Prop :=
  token (isDelimiter U) t' /\ Forall (plain U) t'
  /\ Forall (fun c => isLu U c = false) t'
  /\ toLowerCase U (from_code_points t') = from_code_points t'.

(** A string without the separator. *)
Definition sep_free (sep : Z) (p : jsstring) : Prop :=
  Forall (fun u => (u =? sep) = false) p.

(** A token of letters only or of numbers only. *)
Definition uniform (U : Unicode) (t : list Z) : Prop :=
  Forall (fun c => isL U c = true) t \/ Forall (fun c => isN U c = true) t.

(** No three consecutive elements of [s] are related by [P]. *)
Definition ok_after2 (P : Z -> Z -> Z -> bool) (a b : Z) (s : list Z) : bool :=
  match s with
  | c :: _ => negb (P a b c)
  | [] => true
  end.

Definition ok_after1 (P : Z -> Z -> Z -> bool) (a : Z) (s : list Z) : bool :=
  match s with
  | b :: t => ok_after2 P a b t
  | [] => true
  end.

Fixpoint no_triple (P : Z -> Z -> Z -> bool) (s : list Z) : bool :=
  match s with
  | a :: t => ok_after1 P a t && no_triple P t
  | [] => true
  end.

(** Two uppercase letters followed by a lowercase letter: where the acronym
    rule of toKebabCase applies. *)
Definition acronym_pattern (U : Unicode) (a b c : Z) : bool :=
  isLu U a && isLu U b && isLl U c.

Definition no_acronym (U : Unicode) (s : list Z) : bool :=
  no_triple (acronym_pattern U) s.

(** Where toKebabCase and toDotCase take the same words: the normalised text
    has none of the places at which one of them alone starts a new word. *)
Definition same_boundaries (U : Unicode) (n : list Z) : bool :=
  no_adjacent (letter_number U) n && no_adjacent (number_before_letter U) n
  && no_acronym U n.

(** The strings of at most [n] elements of [alphabet]. *)
Fixpoint texts (alphabet : list Z) (n : nat) : list (list Z) :=
  match n with
  | O => [[]]
  | S k => [] :: flat_map (fun c => map (cons c) (texts alphabet k)) alphabet
  end.

Fixpoint same_text (x y : list Z) : bool :=
  match x, y with
  | [], [] => true
  | a :: x', b :: y' => (a =? b) && same_text x' y'
  | _, _ => false
  end.

Fixpoint same_texts (x y : list (list Z)) : bool :=
  match x, y with
  | [], [] => true
  | a :: x', b :: y' => same_text a b && same_texts x' y'
  | _, _ => false
  end.

(** *** ASCII words *)

Definition is_ascii_letter (c : Z) : bool := is_ascii_upper c || is_ascii_lower c.

(** Adjacent characters of an ASCII word by which the two toCamelCase can
    differ. *)
Definition lower_then_upper (a b : Z) : bool := is_ascii_lower a && is_ascii_upper b.
Definition digit_then_letter (a b : Z) : bool := is_ascii_digit a && is_ascii_letter b.
Definition upper_then_upper (a b : Z) : bool := is_ascii_upper a && is_ascii_upper b.
Definition digit_then_lower (a b : Z) : bool := is_ascii_digit a && is_ascii_lower b.

(** The words of an ASCII string: its maximal runs of letters and digits. *)
Definition ascii_words (s : jsstring) : list jsstring :=
  tokens (fun c => negb (is_ascii_alnum c)) s.

(** Where the two toCamelCase give the same result on an ASCII string.  With
    two words or more, no word has a lowercase letter before an uppercase
    one or a digit before a letter: the Unicode-aware implementation would
    start a word there and capitalise it, the simple one lower-cases it.
    With a single word, of which the simple implementation keeps all but the
    first character, the word has no uppercase letter after an uppercase one
    (the Unicode-aware implementation lower-cases it) and no lowercase
    letter after a digit (it capitalises it). *)
Definition same_camel (s : jsstring) : bool :=
  match ascii_words s with
  | [] => true
  | [_] => no_adjacent upper_then_upper s && no_adjacent digit_then_lower s
  | _ => no_adjacent lower_then_upper s && no_adjacent digit_then_letter s
  end.

(** The first element of [s] is related to [a]. *)
Definition related (R : Z -> Z -> bool) (a : Z) (s : list Z) : bool :=
  match s with
  | b :: _ => R a b
  | [] => false
  end.

(** A separator between every two adjacent elements related by [R]. *)
Fixpoint insert_rel (R : Z -> Z -> bool) (sep : Z) (s : list Z) : list Z :=
  match s with
  | [] => []
  | a :: t =>
      if related R a t then a :: sep :: insert_rel R sep t
      else a :: insert_rel R sep t
  end.

(** The tokens of a text, cut also between adjacent elements related by
    [R]. *)
Fixpoint cut (R : Z -> Z -> bool) (p : Z -> bool) (s : list Z) : list (list Z) :=
  match s with
  | [] => []
  | c :: t =>
      if p c then cut R p t
      else if continues p t && negb (related R c t) then push c (cut R p t)
      else [c] :: cut R p t
  end.

(** Where the Unicode-aware toCamelCase starts a word inside an ASCII
    word. *)
Definition ascii_boundary (a b : Z) : bool :=
  (is_ascii_lower a || is_ascii_digit a) && is_ascii_upper b
  || is_ascii_letter a && is_ascii_digit b
  || is_ascii_digit a && is_ascii_letter b.

(** What the simple toCamelCase makes of a single word, and the word with
    its first character upper-cased. *)
Definition lower_first (w : jsstring) : jsstring :=
  match w with
  | [] => []
  | c :: x => ascii_lower c :: x
  end.

Definition raise_first (w : jsstring) : jsstring :=
  match w with
  | [] => []
  | c :: x => ascii_upper c :: x
  end.

(** ** The [catch] handlers of toKebabCase

    toKebabCase as it runs when the body of each [try] block throws (an
    engine whose regular expressions reject [\p{..}]): steps 2 to 4 are done
    by the handlers, with the ASCII classes. *)
Definition toKebabCase_fallback (U : Unicode) (input : value) : completion jsstring :=
  match input with
  | VString input =>
      (* Step 1 *)
      let s := trim input in
      (* Step 2, handler *)
      let s :=
        replace_all (delete_matcher chain_prompt.is_combining_diacritical)
          (normalize_NFKD U s) in
      (* Step 3, handler *)
      let s :=
        replace_all chain_prompt.re_acronym_ascii
          (replace_all chain_prompt.re_lower_upper_ascii s) in
      (* Step 4, handler *)
      let s := replace_all chain_prompt.re_delimiters_ascii s in
      (* Step 5 *)
      let s := toLowerCase U (strip_edge_hyphens (replace_all re_hyphens s)) in
      Return s
  | _ => Throw (TypeError "toKebabCase: input must be a string")
  end.

(** ** The converters on ASCII text, without the tables of the engine *)

(** What the boundary rules and the word splitting of src/refined_prompt.js
    compute on ASCII text. *)
Definition ascii_rawWords (str : jsstring) : list jsstring :=
  let str :=
    replace_all (pair_matcher is_ascii_digit is_ascii_letter SPACE)
      (replace_all (pair_matcher is_ascii_letter is_ascii_digit SPACE)
         (replace_all
            (pair_matcher (fun c => is_ascii_lower c || is_ascii_digit c)
               is_ascii_upper SPACE) str)) in
  let str := replace_all (run_matcher (fun c => negb (is_ascii_alnum c)) [SPACE]) str in
  filter nonempty (split (run_match isWhiteSpace) str).

Definition ascii_capitalize (word : jsstring) : jsstring :=
  match word with
  | [] => []
  | c :: rest => (if is_ascii_digit c then c else ascii_upper c) :: map ascii_lower rest
  end.

Definition ascii_camel (ws : list jsstring) : jsstring :=
  match ws with
  | [] => []
  | w0 :: others => map ascii_lower w0 ++ List.concat (map ascii_capitalize others)
  end.

(** What the callback of [parts.map] in src/few_shot_prompt.js makes of an
    ASCII word that is not the first one. *)
Definition ascii_camel_part (part : jsstring) : jsstring :=
  match map ascii_lower part with
  | [] => []
  | c :: rest => ascii_upper c :: rest
  end.

Definition ascii_few_shot (input : jsstring) : jsstring :=
  match ascii_words (trim input) with
  | [] => []
  | [single] => map ascii_lower (charAt0 single) ++ slice1 single
  | w0 :: others => map ascii_lower w0 ++ List.concat (map ascii_camel_part others)
  end.

(** ** A second engine

    [basic_latin] knows Basic Latin only: every other code point is
    unassigned for it, has no decomposition and no case mapping. *)
Module BasicLatin.

Definition category_of (c : Z) : category :=
  if (0 <=? c) && (c <? 128) then ascii_category c else Other.

Definition engine : Unicode :=
  {| general_category := category_of;
     normalize_NFKD := fun s => s;
     toLowerCase := map ascii_lower;
     toUpperCase := map ascii_upper |}.

End BasicLatin.

Definition basic_latin : Unicode := BasicLatin.engine.

(** [s.split(a).join(b)] for one-character strings [a] and [b]: every [a]
    becomes [b]. *)
Definition replace_char (a b : Z) (s : jsstring) : jsstring :=
  map (fun c => if c =? a then b else c) s.

(** A word of lowercase ASCII letters. *)
Definition lowercase_word (w : jsstring) : Prop :=
  w <> [] /\ Forall (fun c => is_ascii_lower c = true) w.

(** A block of a camelCase text: one [up] element and a non-empty word of
    [low] elements. *)
Definition cap_block (low up : Z -> Prop) (b : list Z) : Prop :=
  exists X r, b = X :: r /\ up X /\ r <> [] /\ Forall low r.

Definition ascii_low (c : Z) : Prop := is_ascii_lower c = true.
Definition ascii_up (c : Z) : Prop := is_ascii_upper c = true.

(** A non-empty word of ASCII letters and digits that does not begin with an
    uppercase letter. *)
Definition camel_word (out : jsstring) : Prop :=
  Forall (fun c => is_ascii_alnum c = true) out
  /\ exists c t, out = c :: t /\ is_ascii_upper c = false.

(** ** The self-tests of the source files *)

(** [a === b] on strings. *)
Fixpoint strict_equal (a b : jsstring) : bool :=
  match a, b with
  | [], [] => true
  | x :: a', y :: b' => (x =? y) && strict_equal a' b'
  | _, _ => false
  end.

(** [err instanceof TypeError] for what a call threw; [false] when the call
    returned. *)
Definition threw_TypeError {A} (r : completion A) : bool :=
  match r with
  | Return _ => false
  | Throw (TypeError _) => true
  end.

(** [runTests] of the file headed "chain_prompt.js". *)
Module chain_prompt_tests.

Definition tests : list (jsstring * jsstring) :=
  [ (js "Simple Test", js "simple-test");
    (js "Mixed_delimiters - andSpaces", js "mixed-delimiters-and-spaces");
    (js "fooBarBaz", js "foo-bar-baz");
    (js "PascalCaseInputExample", js "pascal-case-input-example");
    (js "  multiple   spaces__and--delims!! ", js "multiple-spaces-and-delims");
    (js "Unicode " ++ [0x2014] ++ js " na" ++ [0xEF] ++ js "ve caf" ++ [0xE9] ++ js " 123",
     js "unicode-naive-cafe-123") ].

Section RunTests.
Variable U : Unicode.

(** One turn of the [for] loop: the new value of [passed]. *)
Definition run_test (passed : nat) (t : jsstring * jsstring) : nat :=
  let (input, expected) := t in
  match chain_prompt.toKebabCase U (VString input) with
  | Return actual => if strict_equal actual expected then S passed else passed
  | Throw _ => passed
  end.

Definition invalidPassed : bool :=
  threw_TypeError (chain_prompt.toKebabCase U (VNumber 123)).

(** The two numbers of the summary line. *)
Definition runTests : nat * nat :=
  let passed := fold_left run_test tests O in
  let total := (List.length tests + 1)%nat in
  ((passed + (if invalidPassed then 1 else 0))%nat, total).
End RunTests.

End chain_prompt_tests.

(** The two assertion blocks of src/refined_prompt.js. *)
Module refined_prompt_tests.

(** [s.replace(/^c/, r)] for a character [c]. *)
Definition replace_leading (c : Z) (r : jsstring) (s : jsstring) : jsstring :=
  match s with
  | x :: t => if x =? c then r ++ t else s
  | [] => []
  end.

Definition MU : Z := 0x3BC.

Definition camel_cases : list (jsstring * jsstring) :=
  [ (js "hello world", js "helloWorld");
    (js "Hello_world-test", js "helloWorldTest");
    (js "alreadyCamelCase", js "alreadyCamelCase");
    (js "PascalCaseInput", js "pascalCaseInput");
    (js "  multiple   DELIMITERS__and--punct.!?  ", js "multipleDelimitersAndPunct");
    (js "user_id", js "userId");
    (js "123 leading digits", js "123LeadingDigits");
    (js "version2alpha", js "version2Alpha");
    (js "caf" ++ [0xE9] ++ js "-au-lait", js "cafeAuLait");
    (js "   ", js "") ].

Definition dot_cases : list (jsstring * jsstring) :=
  [ (js "hello world", js "hello.world");
    (js "Hello_world-test", js "hello.world.test");
    (js "already.dot.case", js "already.dot.case");
    (js "PascalCaseInput", js "pascal.case.input");
    (js "  multiple   DELIMITERS__and--punct.!?  ", js "multiple.delimiters.and.punct");
    (js "user_id", js "user.id");
    (js "123 leading digits", js "123.leading.digits");
    (js "version2alpha", js "version.2.alpha");
    (js "caf" ++ [0xE9] ++ js "-au-lait", js "cafe.au.lait");
    (js "   ", js "") ].

Section Assertions.
Variable U : Unicode.

(** [assertEqual(desc, actual, expected)]: whether it logs PASS. *)
Definition assertEqual (actual : completion jsstring) (expected : jsstring) : bool :=
  match actual with
  | Return actual => strict_equal actual expected
  | Throw _ => false
  end.

Definition camel_assertion (t : jsstring * jsstring) : bool :=
  assertEqual (refined_prompt.toCamelCase U (VString (fst t))) (snd t).

Definition dot_assertion (t : jsstring * jsstring) : bool :=
  assertEqual (refined_prompt.toDotCase U (VString (fst t))) (snd t).

(** The assertion of line 226, for a first letter [c]:
    [assertEqual(.., toCamelCase('cVariableName'),
                 'cVariableName'.toLowerCase().replace(/^c/, 'c'))]. *)
Definition first_letter_assertion (c : Z) : bool :=
  assertEqual (refined_prompt.toCamelCase U (VString (c :: js "VariableName")))
    (replace_leading c [c] (toLowerCase U (c :: js "VariableName"))).

Definition mu_assertion : bool := first_letter_assertion MU.

(** The PASS and FAIL lines of the two blocks, in order. *)
Definition camel_block : list bool :=
  map camel_assertion camel_cases
  ++ [ mu_assertion;
       threw_TypeError (refined_prompt.toCamelCase U VNull);
       threw_TypeError (refined_prompt.toCamelCase U (VNumber 123)) ].

Definition dot_block : list bool :=
  map dot_assertion dot_cases
  ++ [ threw_TypeError (refined_prompt.toDotCase U VNull);
       threw_TypeError (refined_prompt.toDotCase U (VNumber 123)) ].
End Assertions.

End refined_prompt_tests.

(** ** The DELETE route of the comments

    The handler of [router.delete("/:id", ...)] in the Express router that
    follows "chain_prompt.js" in its file.  Express and mongoose are not
    part of the repository: the calls of the Comment model are parameters,
    with the state of the database passed through them.  The value the
    awaited call is rejected with is any value of the language: what the
    handler does with it, reading [err.message] and serialising the result,
    can throw, and is a parameter too. *)
Module comments.

(** [ToBoolean]. *)
Definition truthy (v : value) : bool :=
  match v with
  | VUndefined | VNull => false
  | VBoolean b => b
  | VNumber n | VBigInt n => negb (n =? 0)
  | VString s => nonempty s
  | VSymbol | VFunction | VObject => true
  end.

(** [a || b]. *)
Definition or_else (a b : value) : value := if truthy a then a else b.

(** [res.status(code).json({ error })] and [res.sendStatus(code)]. *)
Inductive response : Type :=
  | Json (status : Z) (error : value)
  | SendStatus (status : Z).

Definition status_of (r : response) : Z :=
  match r with
  | Json status _ => status
  | SendStatus status => status
  end.

(** What the handler has done when its promise settles: it has sent a
    response, or its [catch] block has thrown: it has sent none and its
    promise is rejected. *)
Inductive outcome : Type :=
  | Responded (r : response)
  | Failed.

Section Router.
Variables document store failure : Type.

(** How the awaited [Comment.findByIdAndDelete(id)] settles: fulfilled with
    the deleted document or with [null], or rejected with a value. *)
Inductive settled : Type :=
  | Fulfilled (deleted : option document)
  | Rejected (err : failure).

(** [mongoose.Types.ObjectId.isValid(id)] *)
Variable isValid : jsstring -> bool.
Variable findByIdAndDelete : jsstring -> store -> settled * store.
(** Reading [err.message]: [None] when the read throws a TypeError, as it
    does when [err] is [null] or [undefined]; otherwise the value read,
    [undefined] when [err] has no such property. *)
Variable message : failure -> option value.
(** [JSON.stringify], which [res.json] calls, does not throw on
    [{ error: v }]; it throws when [v] is a BigInt or a cyclic object. *)
Variable serializable : value -> bool.

Definition delete (id : jsstring) (db : store) : outcome * store :=
  if negb (isValid id)
  then (Responded (Json 400 (VString (js "Invalid comment id"))), db)
  else
    match findByIdAndDelete id db with
    | (Fulfilled None, db) =>
        (Responded (Json 404 (VString (js "Comment not found"))), db)
    | (Fulfilled (Some _), db) => (Responded (SendStatus 204), db)
    | (Rejected err, db) =>
        match message err with
        | None => (Failed, db)
        | Some m =>
            let error := or_else m (VString (js "Internal server error")) in
            if serializable error then (Responded (Json 500 error), db)
            else (Failed, db)
        end
    end.
End Router.

Arguments Fulfilled {document failure} deleted.
Arguments Rejected {document failure} err.
Arguments delete {document store failure} isValid findByIdAndDelete message
  serializable id db.

End comments.

(** What the simple toCamelCase returns for the words of an ASCII string:
    with two words or more, and with a single word. *)
Definition lowered_camel (ws : list jsstring) : jsstring :=
  match ws with
  | [] => []
  | w0 :: others => map ascii_lower w0 ++ List.concat (map ascii_camel_part others)
  end.

Definition kept_camel (ws : list jsstring) : jsstring :=
  match ws with
  | [] => []
  | w0 :: others => lower_first w0 ++ List.concat (map raise_first others)
  end.

(** * Proofs *)

(** ** Boolean comparisons *)

Ltac unfold_classes :=
  unfold is_high_surrogate, is_low_surrogate, is_surrogate, is_astral,
    is_hyphen, is_ascii_alnum, is_ascii_upper, is_ascii_lower, is_ascii_digit,
    is_ascii, HYPHEN, SPACE, DOT in *.

Ltac bool_to_prop :=
  repeat rewrite ?andb_true_iff, ?andb_false_iff, ?orb_true_iff, ?orb_false_iff,
    ?negb_true_iff, ?negb_false_iff, ?Z.leb_le, ?Z.leb_gt, ?Z.ltb_lt, ?Z.ltb_ge,
    ?Z.eqb_eq, ?Z.eqb_neq in *.

Ltac blia := unfold_classes; bool_to_prop; lia.

(** Induction that follows a scan reading two elements at a time. *)
Lemma list_ind2 (P : list Z -> Prop) :
  P [] -> (forall a, P [a]) ->
  (forall a b r, P r -> P (b :: r) -> P (a :: b :: r)) ->
  forall l, P l.
Proof.
  intros H0 H1 H2 l.
  assert (H : P l /\ forall a, P (a :: l)).
  { induction l as [|b r [IHr IHbr]].
    - split; [exact H0 | exact H1].
    - split; [apply IHbr | intro a; apply H2; [exact IHr | apply IHbr]]. }
  apply H.
Qed.

(** ** UTF-16 *)

Lemma code_points_pair a b r :
  is_high_surrogate a && is_low_surrogate b = true ->
  code_points (a :: b :: r) = pair_code_point a b :: code_points r.
Proof. intros H. simpl. rewrite H. reflexivity. Qed.

Lemma code_points_step a b r :
  is_high_surrogate a && is_low_surrogate b = false ->
  code_points (a :: b :: r) = a :: code_points (b :: r).
Proof. intros H. cbn [code_points]. rewrite H. reflexivity. Qed.

Lemma code_points_cons a s :
  is_high_surrogate a = false \/ no_low_head s = true ->
  code_points (a :: s) = a :: code_points s.
Proof.
  intros H. destruct s as [|b r]; [reflexivity|].
  apply code_points_step. destruct H as [H|H].
  - rewrite H. reflexivity.
  - simpl in H. apply negb_true_iff in H. rewrite H. apply andb_false_r.
Qed.

Lemma pair_code_point_astral a b :
  is_high_surrogate a = true -> is_low_surrogate b = true ->
  is_astral (pair_code_point a b) = true.
Proof. unfold pair_code_point. intros. blia. Qed.

Lemma utf16_pair a b :
  is_high_surrogate a = true -> is_low_surrogate b = true ->
  utf16 (pair_code_point a b) = [a; b].
Proof.
  intros Ha Hb. unfold utf16. rewrite pair_code_point_astral by assumption.
  unfold pair_code_point. unfold_classes. bool_to_prop.
  f_equal; [|f_equal].
  - replace ((a - 55296) * 1024 + (b - 56320) + 65536 - 65536)
      with ((b - 56320) + (a - 55296) * 1024) by lia.
    rewrite Z.div_add by lia. rewrite Z.div_small by lia. lia.
  - replace ((a - 55296) * 1024 + (b - 56320) + 65536 - 65536)
      with ((b - 56320) + (a - 55296) * 1024) by lia.
    rewrite Z.mod_add by lia. rewrite Z.mod_small by lia. lia.
Qed.

Lemma utf16_astral c :
  is_astral c = true ->
  exists a b, utf16 c = [a; b] /\ is_high_surrogate a = true
              /\ is_low_surrogate b = true /\ pair_code_point a b = c.
Proof.
  intros H. unfold utf16. rewrite H.
  eexists _, _. split; [reflexivity|].
  unfold pair_code_point. unfold_classes. bool_to_prop.
  pose proof (Z.div_mod (c - 65536) 1024 ltac:(lia)) as E.
  pose proof (Z.mod_pos_bound (c - 65536) 1024 ltac:(lia)) as B.
  assert (0 <= (c - 65536) / 1024 < 1024).
  { split; [apply Z.div_pos; lia | apply Z.div_lt_upper_bound; lia]. }
  repeat split; lia.
Qed.

Lemma utf16_bmp c : is_astral c = false -> utf16 c = [c].
Proof. intros H. unfold utf16. rewrite H. reflexivity. Qed.

Lemma code_points_utf16 c : code_points (utf16 c) = [c].
Proof.
  destruct (is_astral c) eqn:E.
  - destruct (utf16_astral c E) as (a & b & -> & Ha & Hb & Hp).
    rewrite code_points_pair by (rewrite Ha, Hb; reflexivity).
    rewrite Hp. reflexivity.
  - rewrite utf16_bmp by assumption. reflexivity.
Qed.

Lemma no_low_head_from_code_points c l :
  no_low_head (c :: l) = true -> no_low_head (from_code_points (c :: l)) = true.
Proof.
  simpl. intros H. destruct (is_astral c) eqn:E.
  - destruct (utf16_astral c E) as (a & b & -> & Ha & Hb & Hp). simpl.
    revert Ha. clear. intros. blia.
  - rewrite utf16_bmp by assumption. simpl. exact H.
Qed.

(** Encoding then decoding gives the code points back. *)
Lemma code_points_from_code_points l :
  no_split_pair l = true -> code_points (from_code_points l) = l.
Proof.
  induction l as [|c l IH]; [reflexivity|].
  simpl. intros H. apply andb_true_iff in H. destruct H as [Hc Hl].
  destruct (is_astral c) eqn:E.
  - destruct (utf16_astral c E) as (a & b & -> & Ha & Hb & Hp).
    simpl app. rewrite code_points_pair by (rewrite Ha, Hb; reflexivity).
    rewrite Hp, IH by assumption. reflexivity.
  - rewrite utf16_bmp by assumption. simpl app.
    rewrite code_points_cons; [rewrite IH by assumption; reflexivity|].
    apply orb_true_iff in Hc. destruct Hc as [Hc|Hc].
    + left. apply negb_true_iff in Hc. exact Hc.
    + right. destruct l as [|d l]; [reflexivity|].
      apply no_low_head_from_code_points. exact Hc.
Qed.

Lemma no_low_head_code_points s : no_low_head (code_points s) = no_low_head s.
Proof.
  destruct s as [|b [|d r]]; [reflexivity..|].
  destruct (is_high_surrogate b && is_low_surrogate d) eqn:E.
  - rewrite code_points_pair by assumption. simpl.
    apply andb_true_iff in E. destruct E as [Hb Hd].
    pose proof (pair_code_point_astral b d Hb Hd) as Hp.
    revert Hb Hp. clear. intros. f_equal. blia.
  - rewrite code_points_step by assumption. reflexivity.
Qed.

Lemma no_split_pair_code_points s : no_split_pair (code_points s) = true.
Proof.
  induction s as [| a | a b r IHr IHbr] using list_ind2.
  { reflexivity. }
  { simpl. rewrite orb_true_r. reflexivity. }
  destruct (is_high_surrogate a && is_low_surrogate b) eqn:E.
  - rewrite code_points_pair by assumption. simpl. rewrite IHr.
    apply andb_true_iff in E. destruct E as [Ha Hb].
    pose proof (pair_code_point_astral a b Ha Hb) as Hp.
    replace (is_high_surrogate (pair_code_point a b)) with false by (symmetry; blia).
    reflexivity.
  - rewrite code_points_step by assumption.
    cbn [no_split_pair]. rewrite IHbr, andb_true_r.
    rewrite no_low_head_code_points. cbn [no_low_head].
    destruct (is_high_surrogate a), (is_low_surrogate b); try reflexivity.
    discriminate E.
Qed.

Lemma no_surrogate_no_split l :
  Forall (fun c => is_surrogate c = false) l -> no_split_pair l = true.
Proof.
  induction 1 as [|c l Hc Hl IH]; [reflexivity|].
  simpl. rewrite IH, andb_true_r.
  replace (is_high_surrogate c) with false by (symmetry; blia). reflexivity.
Qed.

(** Where the elements of a decoded or encoded string come from. *)
Lemma In_code_points c s :
  In c (code_points s) -> In c s \/ is_astral c = true.
Proof.
  induction s as [| a | a b r IHr IHbr] using list_ind2.
  - intros [].
  - simpl. tauto.
  - destruct (is_high_surrogate a && is_low_surrogate b) eqn:E.
    + rewrite code_points_pair by assumption. intros [<-|H].
      * right. apply andb_true_iff in E. apply pair_code_point_astral; tauto.
      * destruct (IHr H); [left; simpl; tauto | tauto].
    + rewrite code_points_step by assumption. intros [<-|H].
      * left. simpl. tauto.
      * destruct (IHbr H); [left; simpl in *; tauto | tauto].
Qed.

Lemma In_from_code_points u l :
  In u (from_code_points l) -> In u l \/ is_surrogate u = true.
Proof.
  induction l as [|c l IH]; [intros []|].
  simpl. rewrite in_app_iff. intros [H|H].
  - destruct (is_astral c) eqn:E.
    + destruct (utf16_astral c E) as (a & b & Hu & Ha & Hb & Hp).
      rewrite Hu in H. right. destruct H as [<-|[<-|[]]]; blia.
    + rewrite utf16_bmp in H by assumption. destruct H as [<-|[]]. tauto.
  - destruct (IH H); tauto.
Qed.

Lemma from_code_points_cons c l : from_code_points (c :: l) = utf16 c ++ from_code_points l.
Proof. reflexivity. Qed.

Lemma from_code_points_app l1 l2 :
  from_code_points (l1 ++ l2) = from_code_points l1 ++ from_code_points l2.
Proof. apply flat_map_app. Qed.

Lemma code_points_app s1 s2 :
  no_low_head s2 = true -> code_points (s1 ++ s2) = code_points s1 ++ code_points s2.
Proof.
  intros H2.
  induction s1 as [| a | a b r IHr IHbr] using list_ind2.
  - reflexivity.
  - simpl app. rewrite code_points_cons by tauto. reflexivity.
  - simpl app in *. destruct (is_high_surrogate a && is_low_surrogate b) eqn:E.
    + rewrite !code_points_pair by assumption. rewrite IHr. reflexivity.
    + rewrite !code_points_step by assumption. rewrite IHbr. reflexivity.
Qed.

(** *** Strings of the BMP *)

Lemma code_points_bmp s :
  Forall (fun c => is_high_surrogate c = false) s -> code_points s = s.
Proof.
  induction 1 as [|c s Hc Hs IH]; [reflexivity|].
  rewrite code_points_cons by tauto. rewrite IH. reflexivity.
Qed.

Lemma from_code_points_bmp l :
  Forall (fun c => is_astral c = false) l -> from_code_points l = l.
Proof.
  induction 1 as [|c l Hc Hl IH]; [reflexivity|].
  rewrite from_code_points_cons, utf16_bmp, IH by assumption. reflexivity.
Qed.

Lemma well_formed_spec s :
  well_formed s = true <-> Forall (fun c => is_surrogate c = false) (code_points s).
Proof.
  unfold well_formed. rewrite forallb_forall, Forall_forall.
  split; intros H c Hc; specialize (H c Hc).
  - apply negb_true_iff. exact H.
  - apply negb_true_iff. exact H.
Qed.

Lemma ascii_bmp s :
  Forall is_ascii s ->
  Forall (fun c => is_high_surrogate c = false) s
  /\ Forall (fun c => is_astral c = false) s.
Proof.
  intros H. split; (eapply Forall_impl; [|exact H]); intros c Hc; blia.
Qed.

Lemma ascii_lower_ascii c : is_ascii c -> is_ascii (ascii_lower c).
Proof. unfold ascii_lower. intros H. destruct (is_ascii_upper c) eqn:E; blia. Qed.

Lemma ascii_upper_ascii c : is_ascii c -> is_ascii (ascii_upper c).
Proof. unfold ascii_upper. intros H. destruct (is_ascii_lower c) eqn:E; blia. Qed.

Lemma map_ext_Forall (f g : Z -> Z) (P : Z -> Prop) l :
  (forall c, P c -> f c = g c) -> Forall P l -> map f l = map g l.
Proof. intros H. induction 1; simpl; [reflexivity|]. rewrite H, IHForall by assumption. reflexivity. Qed.


(** ** Global replacement *)

Lemma replace_scan_never (m : matcher) s :
  (forall k, m (skipn k s) = None) -> replace_scan m O s = s.
Proof.
  induction s as [|c t IH]; [reflexivity|].
  intros H. pose proof (H O) as H0. simpl in H0. simpl. rewrite H0.
  f_equal. apply IH. intros k. apply (H (S k)).
Qed.

Lemma replace_scan_In (m : matcher) sep :
  (forall s k r, m s = Some (k, r) -> forall c, In c r -> In c s \/ c = sep) ->
  forall s skip c, In c (replace_scan m skip s) -> In c s \/ c = sep.
Proof.
  intros Hm. induction s as [|c0 t IH]; intros skip c; [intros []|].
  simpl. destruct skip as [|n].
  - destruct (m (c0 :: t)) as [[[|n] r]|] eqn:E.
    + rewrite in_app_iff. intros [H|[<-|H]].
      * apply (Hm _ _ _ E c H).
      * left. simpl. tauto.
      * destruct (IH _ _ H); [left; simpl; tauto | tauto].
    + rewrite in_app_iff. intros [H|H].
      * apply (Hm _ _ _ E c H).
      * destruct (IH _ _ H); [left; simpl; tauto | tauto].
    + intros [<-|H]; [left; simpl; tauto|].
      destruct (IH _ _ H); [left; simpl; tauto | tauto].
  - intros H. destruct (IH _ _ H); [left; simpl; tauto | tauto].
Qed.

(** *** Insertions *)

Lemma inserted_refl sep s : inserted sep s s.
Proof. induction s; constructor; assumption. Qed.

Lemma inserted_app sep s1 s1' s2 s2' :
  inserted sep s1 s1' -> inserted sep s2 s2' -> inserted sep (s1 ++ s2) (s1' ++ s2').
Proof. induction 1; intros; simpl; try constructor; auto. Qed.

Lemma inserted_trans sep a b c :
  inserted sep a b -> inserted sep b c -> inserted sep a c.
Proof.
  intros Hab Hbc. revert a Hab.
  induction Hbc as [|x b c H IH|b c H IH]; intros a Hab.
  - exact Hab.
  - inversion Hab; subst.
    + constructor. apply IH. assumption.
    + constructor. apply IH. assumption.
  - constructor. apply IH. exact Hab.
Qed.

Lemma replace_scan_inserted (m : matcher) sep :
  (forall s k r, m s = Some (k, r) ->
     (0 < k <= List.length s)%nat /\ inserted sep (firstn k s) r) ->
  forall s skip, (skip <= List.length s)%nat ->
    inserted sep (skipn skip s) (replace_scan m skip s).
Proof.
  intros Hm. induction s as [|c t IH]; intros skip Hs.
  - simpl in Hs. replace skip with O by lia. constructor.
  - destruct skip as [|n].
    + simpl. destruct (m (c :: t)) as [[k r]|] eqn:E.
      * destruct (Hm _ _ _ E) as [Hk Hr]. destruct k as [|k]; [lia|].
        simpl in Hk. simpl in Hr.
        rewrite <- (firstn_skipn k t) at 1.
        change (inserted sep ((c :: firstn k t) ++ skipn k t) (r ++ replace_scan m k t)).
        apply inserted_app; [exact Hr | apply IH; lia].
      * constructor. apply (IH O). lia.
    + simpl. apply IH. simpl in Hs. lia.
Qed.

Lemma inserted_In sep s s' c : inserted sep s s' -> In c s' -> In c s \/ c = sep.
Proof.
  induction 1 as [|c0 s s' H IH|s s' H IH]; simpl; intros Hc.
  - tauto.
  - destruct Hc as [->|Hc]; [tauto|]. destruct (IH Hc); tauto.
  - destruct Hc as [<-|Hc]; [tauto|]. apply IH, Hc.
Qed.

Lemma inserted_no_split_pair sep s s' :
  is_surrogate sep = false -> inserted sep s s' ->
  (no_low_head s = true -> no_low_head s' = true)
  /\ (no_split_pair s = true -> no_split_pair s' = true).
Proof.
  intros Hsep. induction 1 as [|c s s' H [IH1 IH2]|s s' H [IH1 IH2]].
  - tauto.
  - split; [simpl; tauto|]. simpl. rewrite !andb_true_iff, !orb_true_iff.
    intros [[Hc|Hc] Hn]; auto.
  - split.
    + intros _. simpl. blia.
    + intros Hn. simpl. rewrite (IH2 Hn), andb_true_r.
      replace (is_high_surrogate sep) with false by (symmetry; blia). reflexivity.
Qed.

(** *** Pairs *)

Section PairScan.
Variables (p q : Z -> bool) (sep : Z).
Let m := pair_matcher p q sep.

Lemma pair_scan_hit a b r :
  p a && q b = true ->
  replace_scan m O (a :: b :: r) = a :: sep :: b :: replace_scan m O r.
Proof.
  intros H. cbn [replace_scan]. unfold m at 1, pair_matcher. rewrite H.
  destruct r; reflexivity.
Qed.

Lemma pair_scan_miss a s :
  (forall b r, s = b :: r -> p a && q b = false) ->
  replace_scan m O (a :: s) = a :: replace_scan m O s.
Proof.
  intros H. cbn [replace_scan]. unfold m at 1, pair_matcher.
  destruct s as [|b r]; [reflexivity|]. rewrite (H b r eq_refl). reflexivity.
Qed.

Lemma insert_sep_cons a b r :
  insert_sep p q sep (a :: b :: r)
  = if p a && q b then a :: sep :: insert_sep p q sep (b :: r)
    else a :: insert_sep p q sep (b :: r).
Proof. reflexivity. Qed.

Hypothesis disjoint : forall c, q c = true -> p c = false.

Lemma pair_scan_insert s : replace_scan m O s = insert_sep p q sep s.
Proof.
  induction s as [| a | a b r IHr IHbr] using list_ind2; [reflexivity..|].
  rewrite insert_sep_cons. destruct (p a && q b) eqn:E.
  - rewrite pair_scan_hit by assumption. rewrite <- IHbr.
    apply andb_true_iff in E. destruct E as [_ Hq].
    rewrite (pair_scan_miss b r); [reflexivity|].
    intros. rewrite (disjoint b Hq). reflexivity.
  - rewrite pair_scan_miss; [rewrite IHbr; reflexivity|].
    intros ? ? [= <- <-]. exact E.
Qed.

Lemma insert_sep_inserted s : inserted sep s (insert_sep p q sep s).
Proof.
  induction s as [|a t IH]; [constructor|].
  destruct t as [|b r]; [repeat constructor|].
  rewrite insert_sep_cons.
  destruct (p a && q b); repeat constructor; exact IH.
Qed.

Lemma insert_sep_never s :
  (forall a b, p a && q b = true -> False) -> insert_sep p q sep s = s.
Proof.
  intros H. induction s as [|a t IH]; [reflexivity|].
  destruct t as [|b r]; [reflexivity|].
  rewrite insert_sep_cons.
  destruct (p a && q b) eqn:E; [destruct (H a b E)|]. rewrite IH. reflexivity.
Qed.
End PairScan.

(** *** Runs *)

Section RunScan.
Variables (p : Z -> bool) (sep : Z).
Let m := run_matcher p [sep].

Lemma run_scan_collapse s :
  replace_scan m (run_length p s) s = collapse p sep true s
  /\ replace_scan m O s = collapse p sep false s.
Proof.
  induction s as [|c t [IH1 IH2]]; [split; reflexivity|].
  assert (H0 : p c = false -> replace_scan m O (c :: t) = c :: collapse p sep false t).
  { intros Hc. cbn [replace_scan]. unfold m at 1, run_matcher, run_match.
    cbn [run_length]. rewrite Hc. rewrite IH2. reflexivity. }
  split.
  - cbn [run_length collapse]. destruct (p c) eqn:Hc.
    + cbn [replace_scan]. exact IH1.
    + apply H0. reflexivity.
  - cbn [collapse]. destruct (p c) eqn:Hc.
    + cbn [replace_scan]. unfold m at 1, run_matcher, run_match.
      cbn [run_length]. rewrite Hc. simpl app. rewrite IH1. reflexivity.
    + apply H0. reflexivity.
Qed.

Lemma replace_run s : replace_scan m O s = collapse p sep false s.
Proof. apply run_scan_collapse. Qed.

Lemma pieces_not_nil b s : pieces p b s <> [].
Proof.
  revert b. induction s as [|c t IH]; intros b; [discriminate|].
  simpl. destruct (p c).
  - destruct b; [apply IH | discriminate].
  - destruct (pieces p false t); discriminate.
Qed.

Lemma split_scan_pieces s :
  (forall cur, split_scan (run_match p) (run_length p s) cur s
               = prepend (rev cur) (pieces p true s))
  /\ (forall cur, split_scan (run_match p) O cur s
                  = prepend (rev cur) (pieces p false s)).
Proof.
  induction s as [|c t [IH1 IH2]].
  { split; intros cur; simpl; rewrite app_nil_r; reflexivity. }
  assert (H0 : p c = false -> forall cur,
             split_scan (run_match p) O cur (c :: t)
             = prepend (rev cur) (push c (pieces p false t))).
  { intros Hc cur. cbn [split_scan]. unfold run_match at 1.
    cbn [run_length]. rewrite Hc. rewrite IH2.
    destruct (pieces p false t) as [|w r]; simpl; rewrite <- ?app_assoc; reflexivity. }
  split; intros cur.
  - cbn [run_length pieces]. destruct (p c) eqn:Hc.
    + cbn [split_scan]. apply IH1.
    + apply H0. reflexivity.
  - cbn [pieces]. destruct (p c) eqn:Hc.
    + cbn [split_scan]. unfold run_match at 1. cbn [run_length]. rewrite Hc.
      rewrite IH1. simpl. rewrite app_nil_r.
      pose proof (pieces_not_nil true t).
      destruct (pieces p true t); [congruence | reflexivity].
    + apply H0. reflexivity.
Qed.

Lemma split_pieces s : split (run_match p) s = pieces p false s.
Proof.
  unfold split. destruct (split_scan_pieces s) as [_ H]. rewrite H.
  pose proof (pieces_not_nil false s).
  simpl. destruct (pieces p false s); [congruence | reflexivity].
Qed.

Lemma filter_push c ws :
  filter nonempty (push c ws)
  = match ws with
    | [] :: r => [c] :: filter nonempty r
    | _ => push c (filter nonempty ws)
    end.
Proof. destruct ws as [|[|d w] r]; reflexivity. Qed.

Lemma pieces_head_nil s r : pieces p false s = [] :: r -> continues p s = false.
Proof.
  destruct s as [|c t]; [reflexivity|]. simpl.
  destruct (p c); [reflexivity|].
  destruct (pieces p false t); discriminate.
Qed.

Lemma pieces_head_cons s d w r :
  pieces p false s = (d :: w) :: r -> continues p s = true.
Proof.
  destruct s as [|c t]; [discriminate|]. simpl.
  destruct (p c); [discriminate | reflexivity].
Qed.

(** The non-empty pieces are the tokens. *)
Lemma filter_pieces s b : filter nonempty (pieces p b s) = tokens p s.
Proof.
  revert b. induction s as [|c t IH]; intros b; [reflexivity|].
  cbn [pieces tokens]. destruct (p c) eqn:Hc.
  - destruct b; [apply IH | simpl; apply IH].
  - rewrite filter_push. rewrite <- (IH false).
    destruct (pieces p false t) as [|[|d w] r] eqn:E.
    + destruct (pieces_not_nil _ _ E).
    + rewrite (pieces_head_nil _ _ E). reflexivity.
    + rewrite (pieces_head_cons _ _ _ _ E). reflexivity.
Qed.

Lemma filter_split s : filter nonempty (split (run_match p) s) = tokens p s.
Proof. rewrite split_pieces. apply filter_pieces. Qed.
End RunScan.

(** ** Tokens *)

Section Tokens.
Variable p : Z -> bool.

Lemma tokens_cons_sep d s : p d = true -> tokens p (d :: s) = tokens p s.
Proof. intros H. simpl. rewrite H. reflexivity. Qed.

Lemma tokens_continues s : continues p s = true -> tokens p s <> [].
Proof.
  destruct s as [|c t]; [discriminate|]. simpl. intros H.
  apply negb_true_iff in H. rewrite H.
  destruct (continues p t); [destruct (tokens p t)|]; discriminate.
Qed.

Lemma tokens_are_tokens s : Forall (token p) (tokens p s).
Proof.
  induction s as [|c t IH]; [constructor|].
  simpl. destruct (p c) eqn:Hc; [exact IH|].
  destruct (continues p t).
  - destruct IH as [|w r [Hw1 Hw2] Hr]; simpl.
    + repeat constructor; [discriminate | exact Hc].
    + constructor; [|exact Hr]. split; [discriminate | constructor; assumption].
  - constructor; [|exact IH]. split; [discriminate | repeat constructor; exact Hc].
Qed.

(** A token followed by a separator, or by the end of the text. *)
Lemma tokens_app w s :
  token p w -> continues p s = false -> tokens p (w ++ s) = w :: tokens p s.
Proof.
  intros [Hne Hw] Hs. induction Hw as [|c w Hc Hw IH]; [congruence|].
  simpl. rewrite Hc. destruct w as [|c' w'].
  - simpl. rewrite Hs. reflexivity.
  - assert (Hc' : continues p ((c' :: w') ++ s) = true).
    { simpl. inversion Hw; subst. apply negb_true_iff. assumption. }
    rewrite Hc'. rewrite IH by discriminate. reflexivity.
Qed.

Lemma tokens_join d ws :
  p d = true -> Forall (token p) ws -> tokens p (join [d] ws) = ws.
Proof.
  intros Hd. induction 1 as [|w r Hw Hr IH]; [reflexivity|].
  destruct r as [|w' r'].
  - simpl. rewrite <- (app_nil_r w) at 1. rewrite tokens_app by (auto; reflexivity).
    reflexivity.
  - change (join [d] (w :: w' :: r')) with (w ++ d :: join [d] (w' :: r')).
    rewrite tokens_app; [| exact Hw | simpl; rewrite Hd; reflexivity].
    rewrite tokens_cons_sep by exact Hd. rewrite IH. reflexivity.
Qed.

Lemma tokens_collapse sep b s :
  p sep = true -> tokens p (collapse p sep b s) = tokens p s.
Proof.
  intros Hsep. revert b. induction s as [|c t IH]; intros b; [reflexivity|].
  cbn [collapse]. destruct (p c) eqn:Hc.
  - rewrite (tokens_cons_sep c) by exact Hc.
    destruct b; [apply IH | rewrite tokens_cons_sep by exact Hsep; apply IH].
  - simpl. rewrite Hc, IH.
    replace (continues p (collapse p sep false t)) with (continues p t);
      [reflexivity|].
    destruct t as [|c' t']; [reflexivity|]. simpl.
    destruct (p c') eqn:Hc'; simpl; [rewrite Hsep | rewrite Hc']; reflexivity.
Qed.

(** The first token is a prefix of a text that starts outside [p]. *)
Lemma tokens_head t : forall c,
  p c = false ->
  exists w r post, tokens p (c :: t) = (c :: w) :: r /\ t = w ++ post
                   /\ (forall w0, In w0 r -> In w0 (tokens p t)).
Proof.
  induction t as [|c' t' IH]; intros c Hc.
  - exists [], [], []. simpl. rewrite Hc. repeat split. intros ? [].
  - destruct (p c') eqn:Hc'.
    + exists [], (tokens p (c' :: t')), (c' :: t').
      cbn [tokens continues]. rewrite Hc, Hc'. simpl. repeat split. auto.
    + destruct (IH c' Hc') as (w' & r' & post & E & Ht & Hr).
      exists (c' :: w'), r', post.
      change (tokens p (c :: c' :: t'))
        with (if p c then tokens p (c' :: t')
              else if continues p (c' :: t') then push c (tokens p (c' :: t'))
                   else [c] :: tokens p (c' :: t')).
      rewrite Hc. cbn [continues]. rewrite Hc'. cbn [negb].
      rewrite E. simpl. rewrite Ht. repeat split.
      intros w0 H0. right. exact H0.
Qed.

(** A token is a contiguous part of the text. *)
Lemma tokens_infix s w :
  In w (tokens p s) -> exists pre post, s = pre ++ w ++ post.
Proof.
  revert w. induction s as [|c t IH]; intros w; [intros []|].
  destruct (p c) eqn:Hc.
  - rewrite tokens_cons_sep by exact Hc.
    intros H. destruct (IH _ H) as (pre & post & ->).
    exists (c :: pre), post. reflexivity.
  - destruct (tokens_head t c Hc) as (w1 & r & post & E & Ht & Hr).
    rewrite E. intros [<-|H].
    + exists [], post. rewrite Ht. reflexivity.
    + destruct (IH _ (Hr _ H)) as (pre & post' & ->).
      exists (c :: pre), post'. reflexivity.
Qed.

Lemma tokens_In s w c : In w (tokens p s) -> In c w -> In c s.
Proof.
  intros Hw Hc. destruct (tokens_infix _ _ Hw) as (pre & post & ->).
  rewrite !in_app_iff. tauto.
Qed.
End Tokens.

Lemma tokens_ext p q s :
  (forall c, In c s -> p c = q c) -> tokens p s = tokens q s.
Proof.
  induction s as [|c t IH]; [reflexivity|].
  intros H. simpl. rewrite <- (H c) by (left; reflexivity).
  rewrite <- IH by (intros; apply H; right; assumption).
  replace (continues q t) with (continues p t); [reflexivity|].
  destruct t as [|c' t']; [reflexivity|]. simpl.
  rewrite (H c') by (right; left; reflexivity). reflexivity.
Qed.

Lemma join_not_nil d w ws : w <> [] -> join [d] (w :: ws) <> [].
Proof. destruct w; [congruence|]. destruct ws; discriminate. Qed.

Lemma join_cons d w w' ws :
  join [d] (w :: w' :: ws) = w ++ d :: join [d] (w' :: ws).
Proof. reflexivity. Qed.

(** ** Scans over code units and over code points

    A class of BMP characters that are not surrogates (white space, the
    hyphen) is read the same way in the code units and in the code points. *)

Lemma utf16_cases c :
  (is_astral c = false /\ utf16 c = [c])
  \/ (is_astral c = true /\
      exists h l, utf16 c = [h; l] /\ is_surrogate h = true /\ is_surrogate l = true).
Proof.
  destruct (is_astral c) eqn:E.
  - right. split; [reflexivity|].
    destruct (utf16_astral c E) as (a & b & Hu & Ha & Hb & _).
    exists a, b. split; [exact Hu|]. split; blia.
  - left. split; [reflexivity | apply utf16_bmp; exact E].
Qed.

Lemma utf16_not_nil c : utf16 c <> [].
Proof. unfold utf16. destruct (is_astral c); discriminate. Qed.

Lemma from_code_points_not_nil l : l <> [] -> from_code_points l <> [].
Proof.
  destruct l as [|c l]; [congruence|]. intros _. simpl.
  pose proof (utf16_not_nil c). destruct (utf16 c); [congruence | discriminate].
Qed.

Section BmpClass.
Variable pw : Z -> bool.
Hypothesis pw_bmp : forall c, pw c = true -> is_astral c = false.
Hypothesis pw_surrogate : forall u, is_surrogate u = true -> pw u = false.

Lemma utf16_in_class c : pw c = true -> utf16 c = [c].
Proof. intros H. apply utf16_bmp, pw_bmp, H. Qed.

Lemma utf16_token c : pw c = false -> token pw (utf16 c).
Proof.
  intros H. destruct (utf16_cases c) as [[_ ->]|[_ (h & l & -> & Hh & Hl)]].
  - split; [discriminate | repeat constructor; exact H].
  - split; [discriminate | repeat constructor; apply pw_surrogate; assumption].
Qed.

Lemma continues_from_code_points l :
  continues pw (from_code_points l) = continues pw l.
Proof.
  destruct l as [|c l]; [reflexivity|]. rewrite from_code_points_cons. simpl.
  destruct (utf16_cases c) as [[_ ->]|[Ha (h & l' & -> & Hh & Hl)]].
  - reflexivity.
  - simpl. rewrite (pw_surrogate h Hh).
    destruct (pw c) eqn:E; [|reflexivity].
    rewrite (pw_bmp c E) in Ha. discriminate.
Qed.

Lemma tokens_app_continues w s :
  Forall (fun c => pw c = false) w -> continues pw s = true ->
  tokens pw (w ++ s) = prepend w (tokens pw s).
Proof.
  intros Hw Hs. induction Hw as [|c w Hc Hw IH].
  - simpl. pose proof (tokens_continues pw s Hs).
    destruct (tokens pw s); [congruence | reflexivity].
  - simpl. rewrite Hc.
    assert (Hc' : continues pw (w ++ s) = true).
    { destruct Hw as [|c' w' Hc' _]; [exact Hs|]. simpl. rewrite Hc'. reflexivity. }
    rewrite Hc', IH. pose proof (tokens_continues pw s Hs).
    destruct (tokens pw s); [congruence | reflexivity].
Qed.

Lemma tokens_from_code_points l :
  tokens pw (from_code_points l) = map from_code_points (tokens pw l).
Proof.
  induction l as [|c l IH]; [reflexivity|].
  rewrite from_code_points_cons. cbn [tokens]. destruct (pw c) eqn:Hc.
  - rewrite utf16_in_class by exact Hc. simpl. rewrite Hc. exact IH.
  - destruct (continues pw l) eqn:Hl.
    + rewrite tokens_app_continues;
        [| apply utf16_token; exact Hc
         | rewrite continues_from_code_points; exact Hl].
      rewrite IH. pose proof (tokens_continues pw l Hl).
      destruct (tokens pw l); [congruence|]. reflexivity.
    + rewrite tokens_app;
        [| apply utf16_token; exact Hc
         | rewrite continues_from_code_points; exact Hl].
      rewrite IH. simpl. rewrite app_nil_r. reflexivity.
Qed.

Lemma collapse_from_code_points sep b l :
  is_astral sep = false ->
  collapse pw sep b (from_code_points l) = from_code_points (collapse pw sep b l).
Proof.
  intros Hsep. revert b. induction l as [|c l IH]; intros b; [reflexivity|].
  rewrite from_code_points_cons. cbn [collapse]. destruct (pw c) eqn:Hc.
  - rewrite utf16_in_class by exact Hc. simpl. rewrite Hc.
    destruct b; rewrite IH; [reflexivity|].
    rewrite from_code_points_cons, (utf16_bmp sep Hsep). reflexivity.
  - rewrite from_code_points_cons.
    destruct (utf16_cases c) as [[_ ->]|[_ (h & l' & -> & Hh & Hl)]].
    + simpl. rewrite Hc, IH. reflexivity.
    + simpl. rewrite (pw_surrogate h Hh), (pw_surrogate l' Hl), IH. reflexivity.
Qed.
End BmpClass.

Lemma isWhiteSpace_bmp c : isWhiteSpace c = true -> is_astral c = false.
Proof. unfold isWhiteSpace. intros H. blia. Qed.

Lemma isWhiteSpace_surrogate u : is_surrogate u = true -> isWhiteSpace u = false.
Proof. unfold isWhiteSpace. intros H. blia. Qed.

Lemma is_hyphen_bmp c : is_hyphen c = true -> is_astral c = false.
Proof. intros H. blia. Qed.

Lemma is_hyphen_surrogate u : is_surrogate u = true -> is_hyphen u = false.
Proof. intros H. blia. Qed.

(** *** Hyphens at the edges *)

Lemma drop_trailing_hyphen_cons c s :
  s <> [] -> drop_trailing_hyphen (c :: s) = c :: drop_trailing_hyphen s.
Proof. destruct s; [congruence | reflexivity]. Qed.

Lemma drop_trailing_hyphen_app w s :
  s <> [] -> drop_trailing_hyphen (w ++ s) = w ++ drop_trailing_hyphen s.
Proof.
  intros Hs. induction w as [|c w IH]; [reflexivity|].
  simpl app. rewrite drop_trailing_hyphen_cons, IH; [reflexivity|].
  destruct w; [exact Hs | discriminate].
Qed.

Lemma drop_trailing_hyphen_token w :
  token is_hyphen w -> drop_trailing_hyphen w = w.
Proof.
  intros [Hne Hw]. induction Hw as [|c w Hc Hw IH]; [congruence|].
  destruct w as [|c' w'].
  - simpl. rewrite Hc. reflexivity.
  - rewrite drop_trailing_hyphen_cons by discriminate.
    rewrite IH by discriminate. reflexivity.
Qed.

Lemma drop_trailing_hyphen_from_code_points l :
  drop_trailing_hyphen (from_code_points l) = from_code_points (drop_trailing_hyphen l).
Proof.
  induction l as [|c l IH]; [reflexivity|].
  destruct l as [|c' l'].
  - simpl. rewrite app_nil_r. destruct (is_hyphen c) eqn:Hc.
    + rewrite (utf16_in_class is_hyphen is_hyphen_bmp c Hc). simpl. rewrite Hc. reflexivity.
    + simpl. rewrite app_nil_r. apply drop_trailing_hyphen_token.
      apply utf16_token; [apply is_hyphen_surrogate | exact Hc].
  - rewrite drop_trailing_hyphen_cons by discriminate.
    rewrite !from_code_points_cons. rewrite <- from_code_points_cons.
    rewrite drop_trailing_hyphen_app by (apply from_code_points_not_nil; discriminate).
    rewrite IH. reflexivity.
Qed.

Lemma drop_leading_hyphen_from_code_points l :
  drop_leading_hyphen (from_code_points l) = from_code_points (drop_leading_hyphen l).
Proof.
  destruct l as [|c l]; [reflexivity|].
  change (drop_leading_hyphen (c :: l)) with (if is_hyphen c then l else c :: l).
  rewrite from_code_points_cons.
  destruct (is_hyphen c) eqn:Hc.
  - rewrite (utf16_in_class is_hyphen is_hyphen_bmp c Hc). simpl. rewrite Hc. reflexivity.
  - rewrite from_code_points_cons.
    destruct (utf16_cases c) as [[_ ->]|[_ (h & l' & -> & Hh & Hl)]].
    + simpl. rewrite Hc. reflexivity.
    + simpl. rewrite (is_hyphen_surrogate h Hh). reflexivity.
Qed.

Lemma strip_edge_hyphens_from_code_points l :
  strip_edge_hyphens (from_code_points l) = from_code_points (strip_edge_hyphens l).
Proof.
  unfold strip_edge_hyphens.
  rewrite drop_leading_hyphen_from_code_points, drop_trailing_hyphen_from_code_points.
  reflexivity.
Qed.

(** *** Trimming *)

Lemma trimEnd_last s z : isWhiteSpace z = false -> trimEnd (s ++ [z]) = s ++ [z].
Proof.
  intros Hz. unfold trimEnd. rewrite rev_app_distr. simpl. rewrite Hz.
  simpl. rewrite rev_involutive. reflexivity.
Qed.

Lemma trim_fixed a s z s' :
  isWhiteSpace a = false -> isWhiteSpace z = false ->
  a :: s = s' ++ [z] -> trim (a :: s) = a :: s.
Proof.
  intros Ha Hz E. unfold trim. simpl. rewrite Ha. rewrite E. apply trimEnd_last, Hz.
Qed.

(** ** The converters as tokenizer and renderer *)

Lemma firstn_plus {A} (k j : nat) (s : list A) :
  firstn (k + j) s = firstn k s ++ firstn j (skipn k s).
Proof.
  revert s. induction k as [|k IH]; intros s; [reflexivity|].
  destruct s as [|a s]; [simpl; rewrite firstn_nil; reflexivity|].
  simpl. rewrite IH. reflexivity.
Qed.

Lemma pair_matcher_inserted p q sep :
  forall s k r, pair_matcher p q sep s = Some (k, r) ->
    (0 < k <= List.length s)%nat /\ inserted sep (firstn k s) r.
Proof.
  intros s k r. unfold pair_matcher. destruct s as [|a [|b t]]; try discriminate.
  destruct (p a && q b); [|discriminate]. intros [= <- <-]. split.
  - simpl. lia.
  - simpl. repeat constructor.
Qed.

Lemma acronym_backtrack_some up lo k s j :
  acronym_backtrack up lo k s = Some j ->
  (0 < j <= k)%nat
  /\ exists a b t, skipn j s = a :: b :: t /\ up a = true /\ lo b = true.
Proof.
  induction k as [|k IH]; [discriminate|].
  cbn [acronym_backtrack].
  destruct (skipn (S k) s) as [|a [|b t]] eqn:E.
  - intros H. destruct (IH H) as [? ?]. split; [lia | assumption].
  - intros H. destruct (IH H) as [? ?]. split; [lia | assumption].
  - destruct (up a && lo b) eqn:Hab.
    + intros [= <-]. split; [lia|]. exists a, b, t.
      apply andb_true_iff in Hab. tauto.
    + intros H. destruct (IH H) as [? ?]. split; [lia | assumption].
Qed.

Lemma acronym_matcher_inserted up lo :
  forall s k r, acronym_matcher up lo s = Some (k, r) ->
    (0 < k <= List.length s)%nat /\ inserted HYPHEN (firstn k s) r.
Proof.
  intros s k r. unfold acronym_matcher.
  destruct (acronym_backtrack up lo (run_length up s) s) as [j|] eqn:E; [|discriminate].
  intros [= <- <-].
  destruct (acronym_backtrack_some _ _ _ _ _ E) as [Hj (a & b & t & Hs & _)].
  split.
  - split; [lia|]. rewrite <- (firstn_skipn j s), length_app, Hs.
    assert (List.length (firstn j s) = j).
    { apply firstn_length_le. apply Nat.lt_le_incl.
      apply Nat.nle_gt. intros Hle. rewrite (skipn_all2 s Hle) in Hs. discriminate. }
    simpl. lia.
  - rewrite firstn_plus. apply inserted_app; [apply inserted_refl|].
    constructor. apply inserted_refl.
Qed.

Section Pipeline.
Variable U : Unicode.
Hypothesis laws : UnicodeLaws U.

Lemma ascii_class c :
  is_ascii c ->
  isL U c = is_ascii_upper c || is_ascii_lower c
  /\ isLu U c = is_ascii_upper c /\ isLl U c = is_ascii_lower c
  /\ isN U c = is_ascii_digit c /\ isNd U c = is_ascii_digit c
  /\ isM U c = false.
Proof.
  intros Hc. unfold isL, isLu, isLl, isN, isNd, isM.
  rewrite (category_ascii U laws c Hc). unfold ascii_category.
  destruct (is_ascii_upper c) eqn:E1; [repeat split; try reflexivity; blia|].
  destruct (is_ascii_lower c) eqn:E2; [repeat split; try reflexivity; blia|].
  destruct (is_ascii_digit c) eqn:E3; [repeat split; reflexivity|].
  destruct (c =? 32); [repeat split; reflexivity|].
  destruct ((c <? 32) || (c =? 127)); [repeat split; reflexivity|].
  destruct (is_ascii_symbol c); repeat split; reflexivity.
Qed.

Lemma delimiter_hyphen : isDelimiter U HYPHEN = true.
Proof.
  unfold isDelimiter.
  destruct (ascii_class HYPHEN ltac:(blia)) as (-> & _ & _ & -> & _). reflexivity.
Qed.

Lemma delimiter_space : isDelimiter U SPACE = true.
Proof.
  unfold isDelimiter.
  destruct (ascii_class SPACE ltac:(blia)) as (-> & _ & _ & -> & _). reflexivity.
Qed.

Lemma delimiter_dot : isDelimiter U DOT = true.
Proof.
  unfold isDelimiter.
  destruct (ascii_class DOT ltac:(blia)) as (-> & _ & _ & -> & _). reflexivity.
Qed.

Lemma surrogate_class c :
  is_surrogate c = true ->
  isL U c = false /\ isN U c = false /\ isM U c = false /\ isDelimiter U c = true.
Proof.
  intros Hc. unfold isDelimiter, isL, isN, isM.
  rewrite (category_surrogate U laws c Hc). repeat split.
Qed.

Lemma word_char_not_surrogate c : isDelimiter U c = false -> is_surrogate c = false.
Proof.
  intros Hc. destruct (is_surrogate c) eqn:E; [|reflexivity].
  destruct (surrogate_class c E) as (_ & _ & _ & Hd). congruence.
Qed.

Lemma word_char_not_mark c : isDelimiter U c = false -> isM U c = false.
Proof.
  unfold isDelimiter, isL, isN, isM. destruct (general_category U c); simpl; congruence.
Qed.

Lemma word_char_not_space c : isDelimiter U c = false -> isWhiteSpace c = false.
Proof.
  intros Hc. destruct (isWhiteSpace c) eqn:E; [|reflexivity].
  rewrite (category_space U laws c E) in Hc. discriminate.
Qed.

Lemma word_char_not_hyphen c : isDelimiter U c = false -> is_hyphen c = false.
Proof.
  intros Hc. destruct (is_hyphen c) eqn:E; [|reflexivity].
  apply Z.eqb_eq in E. subst c. rewrite delimiter_hyphen in Hc. discriminate.
Qed.

Lemma normalize_nil : normalize_NFKD U [] = [].
Proof. apply (nfkd_fixed U laws []). constructor. Qed.

Lemma lower_nil : toLowerCase U [] = [].
Proof.
  destruct (lower_plain U laws [] ltac:(constructor)) as (l' & E & H).
  inversion H; subst. exact E.
Qed.

Lemma normalized_no_split s : no_split_pair (normalized U s) = true.
Proof. apply no_split_pair_code_points. Qed.

(** *** Boundary marking keeps the text decodable *)

Lemma kebab_lower_upper_inserted n :
  inserted HYPHEN n (replace_scan (chain_prompt.re_lower_upper U) O n).
Proof.
  apply (replace_scan_inserted _ HYPHEN (pair_matcher_inserted _ _ _) n O). lia.
Qed.

Lemma kebab_boundaries_inserted n : inserted HYPHEN n (kebab_boundaries U n).
Proof.
  unfold kebab_boundaries. eapply inserted_trans; [apply kebab_lower_upper_inserted|].
  apply (replace_scan_inserted _ HYPHEN (acronym_matcher_inserted _ _) _ O). lia.
Qed.

Lemma pair_scan_inserted p q sep n :
  inserted sep n (replace_scan (pair_matcher p q sep) O n).
Proof.
  apply (replace_scan_inserted _ sep (pair_matcher_inserted _ _ _) n O). lia.
Qed.

Lemma refined_boundaries_inserted n : inserted SPACE n (refined_boundaries U n).
Proof.
  unfold refined_boundaries.
  eapply inserted_trans; [|apply pair_scan_inserted].
  eapply inserted_trans; [|apply pair_scan_inserted].
  apply pair_scan_inserted.
Qed.

Lemma inserted_decodable sep s s' :
  is_surrogate sep = false -> inserted sep s s' -> no_split_pair s = true ->
  code_points (from_code_points s') = s'.
Proof.
  intros Hsep Hi Hs. apply code_points_from_code_points.
  apply (inserted_no_split_pair sep s s' Hsep Hi). exact Hs.
Qed.

(** *** Step 3 of each converter, on code points *)

Lemma kebab_step3 s :
  replace_all_u (chain_prompt.re_acronym U)
    (replace_all_u (chain_prompt.re_lower_upper U) s)
  = from_code_points (kebab_boundaries U (code_points s)).
Proof.
  unfold replace_all_u, kebab_boundaries.
  rewrite (inserted_decodable HYPHEN (code_points s));
    [reflexivity | reflexivity | apply kebab_lower_upper_inserted
    | apply no_split_pair_code_points].
Qed.

Lemma refined_step3 s :
  replace_all_u (refined_prompt.re_number_letter U)
    (replace_all_u (refined_prompt.re_letter_number U)
       (replace_all_u (refined_prompt.re_lower_upper U) s))
  = from_code_points (refined_boundaries U (code_points s)).
Proof.
  unfold replace_all_u, refined_boundaries.
  rewrite (inserted_decodable SPACE (code_points s)
             (replace_scan (refined_prompt.re_lower_upper U) O (code_points s)));
    [| reflexivity | apply pair_scan_inserted | apply no_split_pair_code_points].
  rewrite (inserted_decodable SPACE (code_points s));
    [reflexivity | reflexivity | | apply no_split_pair_code_points].
  eapply inserted_trans; [|apply pair_scan_inserted]. apply pair_scan_inserted.
Qed.

Lemma kebab_boundaries_decodable n :
  no_split_pair n = true ->
  code_points (from_code_points (kebab_boundaries U n)) = kebab_boundaries U n.
Proof.
  intros Hn. apply (inserted_decodable HYPHEN n);
    [reflexivity | apply kebab_boundaries_inserted | exact Hn].
Qed.

Lemma refined_boundaries_decodable n :
  no_split_pair n = true ->
  code_points (from_code_points (refined_boundaries U n)) = refined_boundaries U n.
Proof.
  intros Hn. apply (inserted_decodable SPACE n);
    [reflexivity | apply refined_boundaries_inserted | exact Hn].
Qed.
End Pipeline.

(** ** Collapsing delimiters and stripping the edges joins the tokens *)

Lemma collapse_In p sep b s c :
  In c (collapse p sep b s) -> p c = true -> c = sep.
Proof.
  revert b. induction s as [|a t IH]; intros b; [intros []|].
  cbn [collapse]. destruct (p a) eqn:Ha.
  - destruct b; [apply IH|]. intros [<-|Hc]; [reflexivity | revert Hc; apply IH].
  - intros [<-|Hc]; [congruence | revert Hc; apply IH].
Qed.

Section StripCollapse.
Variable p : Z -> bool.
Hypothesis p_hyphen : p HYPHEN = true.

Lemma not_hyphen c : p c = false -> is_hyphen c = false.
Proof.
  intros Hc. destruct (is_hyphen c) eqn:E; [|reflexivity].
  apply Z.eqb_eq in E. subst c. congruence.
Qed.

Lemma collapse_no_tokens s : tokens p s = [] -> collapse p HYPHEN true s = [].
Proof.
  induction s as [|c t IH]; [reflexivity|].
  simpl. destruct (p c); [exact IH|].
  destruct (continues p t); [destruct (tokens p t)|]; discriminate.
Qed.

Lemma join_push c ws :
  ws <> [] -> join [HYPHEN] (push c ws) = c :: join [HYPHEN] ws.
Proof. destruct ws as [|w [|w' r]]; [congruence | reflexivity..]. Qed.

Lemma join_tokens_not_nil s : tokens p s <> [] -> join [HYPHEN] (tokens p s) <> [].
Proof.
  pose proof (tokens_are_tokens p s) as H. destruct H as [|w r [Hw _] _]; [congruence|].
  intros _. apply join_not_nil. exact Hw.
Qed.

Lemma drop_trailing_collapse s :
  drop_trailing_hyphen (collapse p HYPHEN true s) = join [HYPHEN] (tokens p s)
  /\ drop_trailing_hyphen (collapse p HYPHEN false s)
     = (if leading p s && not_nil (tokens p s) then [HYPHEN] else [])
       ++ join [HYPHEN] (tokens p s).
Proof.
  induction s as [|c t [IHA IHB]]; [split; reflexivity|].
  destruct (p c) eqn:Hc.
  - split.
    + simpl. rewrite Hc. exact IHA.
    + cbn [collapse leading]. rewrite Hc. rewrite tokens_cons_sep by exact Hc.
      destruct (tokens p t) as [|w r] eqn:E.
      * rewrite collapse_no_tokens by exact E. reflexivity.
      * assert (Hy : collapse p HYPHEN true t <> []).
        { intros Hy. rewrite Hy in IHA. simpl in IHA. symmetry in IHA.
          pose proof (tokens_are_tokens p t) as Ht. rewrite E in Ht.
          inversion Ht as [|? ? [Hw _] _]; subst.
          exact (join_not_nil HYPHEN w r Hw IHA). }
        rewrite drop_trailing_hyphen_cons by exact Hy. rewrite IHA. reflexivity.
  - assert (H : drop_trailing_hyphen (c :: collapse p HYPHEN false t)
                = join [HYPHEN] (tokens p (c :: t))).
    { cbn [tokens]. rewrite Hc. destruct t as [|c' t'].
      - simpl. rewrite (not_hyphen c Hc). reflexivity.
      - rewrite drop_trailing_hyphen_cons
          by (simpl; destruct (p c'); discriminate).
        rewrite IHB. cbn [leading continues]. destruct (p c') eqn:Hc'.
        + cbn [negb]. destruct (tokens p (c' :: t')) as [|w r]; reflexivity.
        + cbn [negb andb app]. rewrite join_push; [reflexivity|].
          apply tokens_continues. simpl. rewrite Hc'. reflexivity. }
    split.
    + cbn [collapse]. rewrite Hc. exact H.
    + cbn [collapse leading]. rewrite Hc. exact H.
Qed.

Lemma drop_leading_collapse s :
  drop_leading_hyphen (collapse p HYPHEN false s) = collapse p HYPHEN true s.
Proof.
  destruct s as [|c t]; [reflexivity|]. simpl. destruct (p c) eqn:Hc.
  - reflexivity.
  - simpl. rewrite (not_hyphen c Hc). reflexivity.
Qed.

Lemma strip_collapse s :
  strip_edge_hyphens (collapse p HYPHEN false s) = join [HYPHEN] (tokens p s).
Proof.
  unfold strip_edge_hyphens. rewrite drop_leading_collapse.
  apply drop_trailing_collapse.
Qed.

(** After the delimiters were collapsed no run of hyphens is left. *)
Lemma collapse_hyphens b s :
  collapse is_hyphen HYPHEN b (collapse p HYPHEN b s) = collapse p HYPHEN b s.
Proof.
  revert b. induction s as [|c t IH]; intros b; [reflexivity|].
  cbn [collapse]. destruct (p c) eqn:Hc.
  - destruct b; [apply IH|]. cbn [collapse]. rewrite (IH true). reflexivity.
  - cbn [collapse]. rewrite (not_hyphen c Hc), (IH false). reflexivity.
Qed.
End StripCollapse.

Section Render.
Variable U : Unicode.
Hypothesis laws : UnicodeLaws U.

(** Steps 4 and 5 of toKebabCase, before lower-casing. *)
Lemma kebab_steps45 x :
  code_points (from_code_points x) = x ->
  strip_edge_hyphens
    (replace_all re_hyphens
       (replace_all_u (re_delimiters U HYPHEN) (from_code_points x)))
  = from_code_points (join [HYPHEN] (tokens (isDelimiter U) x)).
Proof.
  intros Hx. unfold replace_all_u, replace_all, re_delimiters, re_hyphens.
  rewrite Hx, !replace_run.
  rewrite (collapse_from_code_points is_hyphen is_hyphen_bmp is_hyphen_surrogate)
    by reflexivity.
  rewrite (collapse_hyphens _ (delimiter_hyphen U laws)).
  rewrite strip_edge_hyphens_from_code_points.
  rewrite (strip_collapse _ (delimiter_hyphen U laws)). reflexivity.
Qed.

(** The splitting step of toCamelCase and toDotCase. *)
Lemma refined_split x :
  code_points (from_code_points x) = x ->
  filter nonempty
    (split refined_prompt.re_spaces
       (replace_all_u (re_delimiters U SPACE) (from_code_points x)))
  = map from_code_points (tokens (isDelimiter U) x).
Proof.
  intros Hx. unfold replace_all_u, re_delimiters, refined_prompt.re_spaces.
  rewrite Hx, replace_run, filter_split.
  rewrite (tokens_from_code_points isWhiteSpace isWhiteSpace_bmp isWhiteSpace_surrogate).
  f_equal.
  rewrite <- (tokens_collapse (isDelimiter U) SPACE false x (delimiter_space U laws)).
  apply tokens_ext. intros c Hc.
  destruct (isDelimiter U c) eqn:Hd.
  - assert (Hs : c = SPACE) by exact (collapse_In _ _ _ _ _ Hc Hd).
    subst c. reflexivity.
  - apply (word_char_not_space U laws c Hd).
Qed.

(** toKebabCase lower-cases the tokens joined by hyphens. *)
Theorem toKebabCase_tokens s :
  chain_prompt.toKebabCase U (VString s)
  = Return (toLowerCase U
              (from_code_points (join [HYPHEN] (kebab_tokens U s)))).
Proof.
  unfold chain_prompt.toKebabCase, try_catch.
  rewrite kebab_step3. rewrite kebab_steps45.
  - reflexivity.
  - apply kebab_boundaries_decodable, no_split_pair_code_points.
Qed.

Lemma refined_words str :
  refined_prompt.words U str
  = map from_code_points
      (tokens (isDelimiter U)
         (refined_boundaries U
            (code_points (replace_all_u (re_marks U) (normalize_NFKD U str))))).
Proof.
  unfold refined_prompt.words. rewrite refined_step3. apply refined_split.
  apply refined_boundaries_decodable, no_split_pair_code_points.
Qed.

Lemma refined_rawWords str : refined_prompt.rawWords U str = refined_prompt.words U str.
Proof. reflexivity. Qed.

Lemma normalized_empty s : trim s = [] -> normalized U s = [].
Proof.
  intros E. unfold normalized. rewrite E, (normalize_nil U laws). reflexivity.
Qed.

Lemma refined_tokens_empty s : trim s = [] -> refined_tokens U s = [].
Proof.
  intros E. unfold refined_tokens. rewrite normalized_empty by exact E. reflexivity.
Qed.

(** toDotCase lower-cases each token and joins them by dots. *)
Theorem toDotCase_tokens s :
  refined_prompt.toDotCase U (VString s)
  = Return (join [DOT]
              (map (toLowerCase U) (map from_code_points (refined_tokens U s)))).
Proof.
  unfold refined_prompt.toDotCase. destruct (trim s) as [|a t] eqn:E.
  - rewrite refined_tokens_empty by exact E. reflexivity.
  - rewrite refined_words. unfold refined_tokens, normalized. rewrite E.
    destruct (tokens _ _); reflexivity.
Qed.

Theorem toCamelCase_tokens s :
  refined_prompt.toCamelCase U (VString s)
  = Return (match map from_code_points (refined_tokens U s) with
            | [] => []
            | w0 :: others =>
                refined_prompt.lowerFirst U w0
                ++ join [] (map (refined_prompt.capitalize U) others)
            end).
Proof.
  unfold refined_prompt.toCamelCase. destruct (trim s) as [|a t] eqn:E.
  - rewrite refined_tokens_empty by exact E. reflexivity.
  - rewrite refined_rawWords, refined_words. unfold refined_tokens, normalized.
    rewrite E. destruct (tokens _ _); reflexivity.
Qed.
End Render.

(** ** The sample engine satisfies the laws *)

Module SampleLaws.
Import Sample.

Lemma lookup_spec c :
  match lookup c with
  | Some e => In e table /\ e_code e = c
  | None => forall e, In e table -> e_code e <> c
  end.
Proof.
  unfold lookup. induction table as [|e0 l IH]; simpl; [intros ? []|].
  destruct (e_code e0 =? c) eqn:E.
  - split; [left; reflexivity | apply Z.eqb_eq; exact E].
  - destruct (find _ l).
    + destruct IH. split; [right|]; assumption.
    + intros e [<-|He]; [apply Z.eqb_neq; exact E | apply IH; exact He].
Qed.

(** Case analysis on the table: [c] is one of its code points or none. *)
Ltac table_cases c :=
  let E := fresh "E" in
  let H := fresh "H" in
  pose proof (lookup_spec c) as H;
  destruct (lookup c) as [?e|] eqn:E;
  [ destruct H as [H ?]; simpl in H;
    repeat (destruct H as [H|H]; [subst; simpl in *|]); [..|destruct H]
  | ].

Lemma lookup_none_ascii c : is_ascii c -> lookup c = None.
Proof.
  intros Hc. table_cases c; try (exfalso; blia). reflexivity.
Qed.

Lemma lookup_none_surrogate c : is_surrogate c = true -> lookup c = None.
Proof.
  intros Hc. table_cases c; try discriminate. reflexivity.
Qed.

Lemma decomposition_surrogate c : is_surrogate c = true -> decomposition c = [c].
Proof.
  intros Hc. unfold decomposition. rewrite lookup_none_surrogate by exact Hc.
  replace (is_compat_space c) with false; [reflexivity|].
  symmetry. unfold is_compat_space. blia.
Qed.

Lemma decomposition_settled c :
  is_surrogate c = false -> decomposition c <> [] /\ Forall settled (decomposition c).
Proof.
  intros Hc. unfold decomposition. table_cases c.
  1-12: (split; [discriminate | repeat constructor]).
  destruct (is_compat_space c) eqn:Hs.
  - split; [discriminate | repeat constructor].
  - split; [discriminate|]. repeat constructor; [exact Hc|].
    unfold decomposition. rewrite E, Hs. reflexivity.
Qed.

Lemma normalize_from_code_points l :
  no_split_pair l = true ->
  normalize (from_code_points l) = from_code_points (flat_map decomposition l).
Proof. intros H. unfold normalize. rewrite code_points_from_code_points by exact H. reflexivity. Qed.

Lemma stable_iff c : stable sample c <-> decomposition c = [c].
Proof.
  unfold stable. cbn [normalize_NFKD sample engine]. unfold normalize.
  rewrite code_points_utf16. simpl. rewrite app_nil_r. split.
  - intros H. destruct (is_surrogate c) eqn:Hc;
      [apply decomposition_surrogate; exact Hc|].
    destruct (decomposition_settled c Hc) as [_ Hs].
    apply (f_equal code_points) in H. rewrite code_points_utf16 in H.
    rewrite code_points_from_code_points in H; [exact H|].
    apply no_surrogate_no_split. revert Hs. apply Forall_impl. intros ? [? _]. assumption.
  - intros ->. simpl. apply app_nil_r.
Qed.

Ltac sample_classes :=
  unfold isDelimiter, isL, isLu, isLl, isN, isNd, isM;
  cbn [general_category sample engine].

Lemma category_of_ascii c : is_ascii c -> category_of c = ascii_category c.
Proof.
  intros Hc. unfold category_of.
  replace ((0 <=? c) && (c <? 128)) with true by (symmetry; blia). reflexivity.
Qed.

Lemma category_of_upper c :
  is_ascii_upper c = true -> category_of c = Lu /\ category_of (c + 32) = Ll.
Proof.
  intros Hc. rewrite !category_of_ascii by blia. unfold ascii_category.
  rewrite Hc.
  replace (is_ascii_upper (c + 32)) with false by (symmetry; blia).
  replace (is_ascii_lower (c + 32)) with true by (symmetry; blia).
  split; reflexivity.
Qed.

Lemma category_of_lower c :
  is_ascii_lower c = true -> category_of c = Ll /\ category_of (c - 32) = Lu.
Proof.
  intros Hc. rewrite !category_of_ascii by blia. unfold ascii_category.
  rewrite Hc.
  replace (is_ascii_upper c) with false by (symmetry; blia).
  replace (is_ascii_upper (c - 32)) with true by (symmetry; blia).
  split; reflexivity.
Qed.

Lemma decomposition_ascii c : is_ascii c -> decomposition c = [c].
Proof.
  intros Hc. unfold decomposition. rewrite lookup_none_ascii by exact Hc.
  replace (is_compat_space c) with false; [reflexivity|].
  symmetry. unfold is_compat_space. blia.
Qed.

(** The category of a code point that is not in the table. *)
Lemma category_of_unlisted c :
  lookup c = None ->
  category_of c = Other \/ category_of c = Separator \/ category_of c = Mn
  \/ (is_ascii c /\ category_of c = ascii_category c).
Proof.
  intros E. unfold category_of. rewrite E.
  destruct ((0 <=? c) && (c <? 128)) eqn:H1; [right; right; right; split; [blia | reflexivity]|].
  destruct ((768 <=? c) && (c <=? 788)); [tauto|].
  destruct (isWhiteSpace c && negb (c =? 65279)); tauto.
Qed.

Lemma ascii_category_not_upper c :
  is_ascii_upper c = false -> ascii_category c <> Lu.
Proof.
  intros H. unfold ascii_category. rewrite H.
  repeat match goal with |- context [if ?b then _ else _] => destruct b end;
    discriminate.
Qed.

Lemma ascii_category_not_lower c :
  is_ascii_lower c = false -> ascii_category c <> Ll.
Proof.
  intros H. unfold ascii_category. rewrite H.
  repeat match goal with |- context [if ?b then _ else _] => destruct b end;
    discriminate.
Qed.

Lemma ascii_category_not_mark c :
  ascii_category c <> Mn /\ ascii_category c <> Mc /\ ascii_category c <> Me.
Proof.
  unfold ascii_category.
  repeat match goal with |- context [if ?b then _ else _] => destruct b end;
    repeat split; discriminate.
Qed.

Lemma lower_surrogate c : is_surrogate c = true -> lower c = c.
Proof.
  intros Hc. unfold lower. rewrite lookup_none_surrogate by exact Hc.
  replace (is_ascii_upper c) with false by (symmetry; blia). reflexivity.
Qed.

Lemma upper_of_surrogate c : is_surrogate c = true -> upper c = c.
Proof.
  intros Hc. unfold upper. rewrite lookup_none_surrogate by exact Hc.
  replace (is_ascii_lower c) with false by (symmetry; blia). reflexivity.
Qed.

Lemma lower_not_surrogate c : is_surrogate c = false -> is_surrogate (lower c) = false.
Proof.
  intros Hc. unfold lower. destruct (is_ascii_upper c) eqn:Hu; [blia|].
  table_cases c; try reflexivity. exact Hc.
Qed.

Lemma upper_not_surrogate c : is_surrogate c = false -> is_surrogate (upper c) = false.
Proof.
  intros Hc. unfold upper. destruct (is_ascii_lower c) eqn:Hu; [blia|].
  table_cases c; try reflexivity. exact Hc.
Qed.

Lemma lower_mark c : isM sample (lower c) = isM sample c.
Proof.
  sample_classes. unfold lower. destruct (is_ascii_upper c) eqn:Hu.
  - destruct (category_of_upper c Hu) as [-> ->]. reflexivity.
  - table_cases c; reflexivity.
Qed.

Lemma upper_mark c : isM sample (upper c) = isM sample c.
Proof.
  sample_classes. unfold upper. destruct (is_ascii_lower c) eqn:Hu.
  - destruct (category_of_lower c Hu) as [-> ->]. reflexivity.
  - table_cases c; reflexivity.
Qed.

Lemma lower_delimiter c : isDelimiter sample (lower c) = isDelimiter sample c.
Proof.
  sample_classes. unfold lower. destruct (is_ascii_upper c) eqn:Hu.
  - destruct (category_of_upper c Hu) as [-> ->]. reflexivity.
  - table_cases c; reflexivity.
Qed.

Lemma upper_delimiter c : isDelimiter sample (upper c) = isDelimiter sample c.
Proof.
  sample_classes. unfold upper. destruct (is_ascii_lower c) eqn:Hu.
  - destruct (category_of_lower c Hu) as [-> ->]. reflexivity.
  - table_cases c; reflexivity.
Qed.

Lemma delimiter_surrogate c : is_surrogate c = true -> isDelimiter sample c = true.
Proof.
  intros Hs. sample_classes. unfold category_of.
  rewrite lookup_none_surrogate by exact Hs.
  replace ((0 <=? c) && (c <? 128)) with false by (symmetry; blia).
  replace ((768 <=? c) && (c <=? 788)) with false by (symmetry; blia).
  rewrite (isWhiteSpace_surrogate c Hs). reflexivity.
Qed.

Lemma word_not_surrogate c : isDelimiter sample c = false -> is_surrogate c = false.
Proof.
  intros Hc. destruct (is_surrogate c) eqn:Hs; [|reflexivity].
  rewrite delimiter_surrogate in Hc by exact Hs. discriminate.
Qed.

Lemma lower_lower c : lower (lower c) = lower c.
Proof.
  unfold lower at 2 3. destruct (is_ascii_upper c) eqn:Hu.
  - unfold lower. replace (is_ascii_upper (c + 32)) with false by (symmetry; blia).
    rewrite lookup_none_ascii by blia. reflexivity.
  - table_cases c; try reflexivity.
    unfold lower. rewrite Hu, E. reflexivity.
Qed.

Lemma lower_ascii_char c : is_ascii c -> lower c = ascii_lower c.
Proof.
  intros Hc. unfold lower, ascii_lower. rewrite lookup_none_ascii by exact Hc.
  reflexivity.
Qed.

Lemma upper_ascii_char c : is_ascii c -> upper c = ascii_upper c.
Proof.
  intros Hc. unfold upper, ascii_upper. rewrite lookup_none_ascii by exact Hc.
  reflexivity.
Qed.

Lemma plain_lowered c : plain sample c -> lowered sample c (lower c).
Proof.
  intros (Hst & Hm & Hs). pose proof Hst as Hd. rewrite stable_iff in Hd.
  assert (Hplain : plain sample (lower c) /\ isLu sample (lower c) = false
                   /\ isL sample (lower c) = isL sample c
                   /\ isN sample (lower c) = isN sample c
                   /\ (isL sample c = false -> lower c = c));
    [|unfold lowered; tauto].
  unfold plain. rewrite stable_iff, lower_mark.
  rewrite (lower_not_surrogate c Hs).
  unfold lower. destruct (is_ascii_upper c) eqn:Hu.
  - sample_classes. destruct (category_of_upper c Hu) as [-> ->].
    rewrite decomposition_ascii by blia. repeat split; auto. discriminate.
  - table_cases c;
      try (unfold decomposition in Hd; rewrite E in Hd; discriminate Hd);
      try (repeat split; auto; discriminate).
    repeat split; auto. sample_classes.
    destruct (category_of_unlisted c E) as [->|[->|[->|[Ha ->]]]];
      try reflexivity.
    pose proof (ascii_category_not_upper c Hu).
    destruct (ascii_category c); congruence.
Qed.

(** *** Strings *)

Lemma flat_map_settled l :
  Forall (fun c => is_surrogate c = false) l ->
  Forall settled (flat_map decomposition l).
Proof.
  induction 1 as [|c l Hc Hl IH]; [constructor|].
  simpl. apply Forall_app. split; [|exact IH].
  apply decomposition_settled, Hc.
Qed.

Lemma settled_no_surrogate l :
  Forall settled l -> Forall (fun c => is_surrogate c = false) l.
Proof. apply Forall_impl. intros ? [? _]. assumption. Qed.

Lemma no_low_head_flat_map l :
  no_low_head l = true -> no_low_head (flat_map decomposition l) = true.
Proof.
  destruct l as [|c l]; [reflexivity|]. simpl. intros Hc.
  destruct (is_surrogate c) eqn:Hs.
  - rewrite decomposition_surrogate by exact Hs. exact Hc.
  - destruct (decomposition_settled c Hs) as [Hne Hall].
    destruct (decomposition c) as [|d r]; [congruence|].
    inversion Hall as [|? ? [Hd _] _]; subst. simpl. blia.
Qed.

Lemma no_split_pair_app_settled w l :
  Forall settled w -> no_split_pair (w ++ l) = no_split_pair l.
Proof.
  induction 1 as [|c w [Hc _] Hw IH]; [reflexivity|].
  simpl. rewrite IH.
  replace (is_high_surrogate c) with false by (symmetry; blia). reflexivity.
Qed.

Lemma no_split_pair_flat_map l :
  no_split_pair l = true -> no_split_pair (flat_map decomposition l) = true.
Proof.
  induction l as [|c l IH]; [reflexivity|].
  simpl. intros H. apply andb_true_iff in H. destruct H as [Hc Hl].
  destruct (is_surrogate c) eqn:Hs.
  - rewrite decomposition_surrogate by exact Hs. simpl.
    rewrite (IH Hl), andb_true_r.
    apply orb_true_iff in Hc. destruct Hc as [Hc|Hc].
    + rewrite Hc. reflexivity.
    + rewrite (no_low_head_flat_map l Hc). apply orb_true_r.
  - destruct (decomposition_settled c Hs) as [_ Hall].
    rewrite no_split_pair_app_settled by exact Hall. apply IH, Hl.
Qed.

Lemma code_points_normalize s :
  code_points (normalize s) = flat_map decomposition (code_points s).
Proof.
  unfold normalize. apply code_points_from_code_points.
  apply no_split_pair_flat_map, no_split_pair_code_points.
Qed.

Lemma decomposition_fixed c c' :
  In c' (decomposition c) -> decomposition c' = [c'].
Proof.
  destruct (is_surrogate c) eqn:Hs.
  - rewrite decomposition_surrogate by exact Hs. intros [<-|[]].
    apply decomposition_surrogate, Hs.
  - destruct (decomposition_settled c Hs) as [_ Hall]. intros Hc'.
    rewrite Forall_forall in Hall. apply (Hall c' Hc').
Qed.

Lemma flat_map_fixed l :
  Forall (fun c => decomposition c = [c]) l -> flat_map decomposition l = l.
Proof.
  induction 1 as [|c l Hc Hl IH]; [reflexivity|].
  simpl. rewrite Hc, IH. reflexivity.
Qed.

Lemma plain_no_surrogate l :
  Forall (plain sample) l -> Forall (fun c => is_surrogate c = false) l.
Proof. apply Forall_impl. intros ? (_ & _ & ?). assumption. Qed.

Lemma lower_case_from_code_points l :
  no_split_pair l = true ->
  lower_case (from_code_points l) = from_code_points (map lower l).
Proof.
  intros H. unfold lower_case. rewrite code_points_from_code_points by exact H.
  reflexivity.
Qed.

Lemma map_lower_no_surrogate l :
  Forall (fun c => is_surrogate c = false) l ->
  Forall (fun c => is_surrogate c = false) (map lower l).
Proof.
  induction 1; simpl; constructor; auto using lower_not_surrogate.
Qed.

Theorem sample_laws : UnicodeLaws sample.
Proof.
  constructor.
  - (* category_ascii *)
    intros c Hc. apply category_of_ascii, Hc.
  - (* category_surrogate *)
    intros c Hc. cbn [general_category sample engine]. unfold category_of.
    rewrite lookup_none_surrogate by exact Hc.
    replace ((0 <=? c) && (c <? 128)) with false by (symmetry; blia).
    replace ((768 <=? c) && (c <=? 788)) with false by (symmetry; blia).
    replace (isWhiteSpace c) with false; [reflexivity|].
    symmetry. apply isWhiteSpace_surrogate, Hc.
  - (* category_space *)
    intros c Hc.
    assert (Hl : lookup c = None).
    { table_cases c; try discriminate. reflexivity. }
    sample_classes. unfold category_of. rewrite Hl, Hc.
    destruct ((0 <=? c) && (c <? 128)) eqn:H1.
    + assert (Hv : c = 9 \/ c = 10 \/ c = 11 \/ c = 12 \/ c = 13 \/ c = 32).
      { unfold isWhiteSpace in Hc. blia. }
      repeat (destruct Hv as [->|Hv]; [reflexivity|]). subst c. reflexivity.
    + replace ((768 <=? c) && (c <=? 788)) with false
        by (symmetry; unfold isWhiteSpace in Hc; blia).
      destruct (negb (c =? 65279)); reflexivity.
  - (* nfkd_well_formed *)
    intros s. rewrite !well_formed_spec. cbn [normalize_NFKD sample engine].
    rewrite code_points_normalize. intros H.
    apply settled_no_surrogate, flat_map_settled, H.
  - (* nfkd_stable *)
    intros s. cbn [normalize_NFKD sample engine]. rewrite code_points_normalize.
    apply Forall_forall. intros c' Hc'. apply stable_iff.
    apply in_flat_map in Hc'. destruct Hc' as (c & _ & Hc).
    apply (decomposition_fixed c c' Hc).
  - (* nfkd_fixed *)
    intros l Hl. cbn [normalize_NFKD sample engine].
    rewrite normalize_from_code_points
      by (apply no_surrogate_no_split, plain_no_surrogate, Hl).
    rewrite flat_map_fixed; [reflexivity|].
    revert Hl. apply Forall_impl. intros c (Hc & _). apply stable_iff, Hc.
  - (* nfkd_ascii *)
    intros c Hc. apply stable_iff, decomposition_ascii, Hc.
  - (* lower_plain *)
    intros l Hl. exists (map lower l). cbn [toLowerCase sample engine]. split.
    + apply lower_case_from_code_points, no_surrogate_no_split, plain_no_surrogate, Hl.
    + induction Hl as [|c l Hc Hl IH]; simpl; constructor;
        [apply plain_lowered, Hc | exact IH].
  - (* lower_idempotent *)
    intros l Hl. cbn [toLowerCase sample engine].
    pose proof (plain_no_surrogate l Hl) as Hs.
    rewrite lower_case_from_code_points by (apply no_surrogate_no_split, Hs).
    rewrite lower_case_from_code_points
      by (apply no_surrogate_no_split, map_lower_no_surrogate, Hs).
    rewrite map_map. f_equal. apply map_ext. intros c. apply lower_lower.
  - (* lower_hyphen *)
    intros x y. cbn [toLowerCase sample engine]. unfold lower_case.
    rewrite code_points_app by reflexivity.
    rewrite (code_points_cons HYPHEN) by (left; reflexivity).
    rewrite map_app, from_code_points_app. reflexivity.
  - (* lower_low_surrogate *)
    intros u x Hu. cbn [toLowerCase sample engine]. unfold lower_case.
    rewrite code_points_cons by (left; blia).
    simpl. rewrite lower_surrogate by blia.
    rewrite utf16_bmp by blia. reflexivity.
  - (* lower_word *)
    intros l Hl. cbn [toLowerCase sample engine].
    assert (Hs : Forall (fun c => is_surrogate c = false) l).
    { revert Hl. apply Forall_impl. intros c [Hc _]. apply word_not_surrogate, Hc. }
    rewrite lower_case_from_code_points by (apply no_surrogate_no_split, Hs).
    split.
    + rewrite code_points_from_code_points
        by (apply no_surrogate_no_split, map_lower_no_surrogate, Hs).
      clear Hs. induction Hl as [|c l [Hc _] Hl IH]; simpl; constructor.
      * rewrite lower_delimiter. exact Hc.
      * exact IH.
    + intros Hne. apply from_code_points_not_nil.
      destruct l; [congruence | discriminate].
  - (* lower_ascii *)
    intros s Hs. cbn [toLowerCase sample engine]. unfold lower_case.
    destruct (ascii_bmp s Hs) as [H1 H2].
    rewrite code_points_bmp by exact H1.
    rewrite (map_ext_Forall lower ascii_lower is_ascii s lower_ascii_char Hs).
    apply from_code_points_bmp.
    clear H1 H2. induction Hs as [|c s Hc Hs IH]; simpl; constructor; [|exact IH].
    pose proof (ascii_lower_ascii c Hc). blia.
  - (* upper_surrogate *)
    intros u Hu. cbn [toUpperCase sample engine]. unfold upper_case. simpl.
    rewrite upper_of_surrogate by exact Hu. rewrite app_nil_r.
    apply utf16_bmp. blia.
  - (* upper_word *)
    intros c HL Hst Ha. cbn [toUpperCase sample engine]. unfold upper_case. simpl.
    rewrite app_nil_r, code_points_utf16. constructor; [|constructor].
    rewrite upper_delimiter. unfold isDelimiter. rewrite HL. reflexivity.
  - (* upper_ascii *)
    intros s Hs. cbn [toUpperCase sample engine]. unfold upper_case.
    destruct (ascii_bmp s Hs) as [H1 H2].
    rewrite code_points_bmp by exact H1.
    rewrite (map_ext_Forall upper ascii_upper is_ascii s upper_ascii_char Hs).
    apply from_code_points_bmp.
    clear H1 H2. induction Hs as [|c s Hc Hs IH]; simpl; constructor; [|exact IH].
    pose proof (ascii_upper_ascii c Hc). blia.
Qed.
End SampleLaws.

(** ** ASCII text *)

Lemma trimStart_Forall (P : Z -> Prop) s : Forall P s -> Forall P (trimStart s).
Proof.
  induction 1 as [|c s Hc Hs IH]; [constructor|].
  simpl. destruct (isWhiteSpace c); [exact IH | constructor; assumption].
Qed.

Lemma trim_Forall (P : Z -> Prop) s : Forall P s -> Forall P (trim s).
Proof.
  intros H. unfold trim, trimEnd. apply Forall_rev, trimStart_Forall, Forall_rev.
  apply trimStart_Forall, H.
Qed.

Lemma delete_scan_filter p s :
  replace_scan (delete_matcher p) O s = filter (fun c => negb (p c)) s.
Proof.
  induction s as [|a t IH]; [reflexivity|].
  simpl. destruct (p a); simpl; rewrite IH; reflexivity.
Qed.

Lemma delete_scan_never p l :
  Forall (fun c => p c = false) l -> replace_scan (delete_matcher p) O l = l.
Proof.
  induction 1 as [|c l Hc Hl IH]; [reflexivity|].
  simpl. rewrite Hc, IH. reflexivity.
Qed.

Lemma replace_scan_skip (m : matcher) k s :
  replace_scan m k s = replace_scan m O (skipn k s).
Proof.
  revert k. induction s as [|c t IH]; intros [|k]; try reflexivity.
  simpl. apply IH.
Qed.

Lemma tokens_all_separators p s : Forall (fun c => p c = true) s -> tokens p s = [].
Proof.
  induction 1 as [|c s Hc Hs IH]; [reflexivity|]. simpl. rewrite Hc. exact IH.
Qed.

(** A property of every character of a literal. *)
Ltac each_char :=
  apply Forall_forall;
  let c := fresh "c" in
  let Hc := fresh "Hc" in
  intros c Hc; vm_compute in Hc;
  repeat (destruct Hc as [<-|Hc]; [try blia | ]); try destruct Hc.

Section Ascii.
Variable U : Unicode.
Hypothesis laws : UnicodeLaws U.

Lemma ascii_plain c : is_ascii c -> plain U c.
Proof.
  intros Hc. split; [apply (nfkd_ascii U laws), Hc|].
  split; [apply (ascii_class U laws c Hc) | blia].
Qed.

(** NFKD and the removal of marks leave ASCII text as it is. *)
Lemma normalized_ascii s : Forall is_ascii s -> normalized U s = trim s.
Proof.
  intros Hs. pose proof (trim_Forall _ _ Hs) as Ht.
  destruct (ascii_bmp _ Ht) as [H1 H2].
  assert (Hn : normalize_NFKD U (trim s) = trim s).
  { rewrite <- (from_code_points_bmp (trim s) H2) at 1.
    rewrite (nfkd_fixed U laws)
      by (revert Ht; apply Forall_impl; apply ascii_plain).
    apply from_code_points_bmp, H2. }
  unfold normalized, replace_all_u. rewrite Hn.
  rewrite (code_points_bmp (trim s) H1).
  unfold re_marks. rewrite delete_scan_never.
  - rewrite (from_code_points_bmp (trim s) H2). apply code_points_bmp, H1.
  - revert Ht. apply Forall_impl. intros c Hc. apply (ascii_class U laws c Hc).
Qed.

Lemma ascii_delimiter c :
  is_ascii c -> isDelimiter U c = negb (is_ascii_alnum c).
Proof.
  intros Hc. unfold isDelimiter, is_ascii_alnum.
  destruct (ascii_class U laws c Hc) as (-> & _ & _ & -> & _). reflexivity.
Qed.
End Ascii.

(** ** The shape of the outputs *)

Lemma join_map_cons {A} (f : A -> list Z) sep t t' r :
  join [sep] (map f (t :: t' :: r)) = f t ++ sep :: join [sep] (map f (t' :: r)).
Proof. reflexivity. Qed.

Lemma from_code_points_join sep ts :
  is_astral sep = false ->
  from_code_points (join [sep] ts) = join [sep] (map from_code_points ts).
Proof.
  intros Hsep. induction ts as [|t r IH]; [reflexivity|].
  destruct r as [|t' r']; [reflexivity|].
  change (from_code_points (t ++ sep :: join [sep] (t' :: r'))
          = from_code_points t ++ sep :: join [sep] (map from_code_points (t' :: r'))).
  rewrite <- IH.
  rewrite from_code_points_app, from_code_points_cons, (utf16_bmp sep Hsep).
  reflexivity.
Qed.

Lemma In_code_units u s :
  In u s -> In u (code_points s) \/ is_surrogate u = true.
Proof.
  induction s as [| a | a b r IHr IHbr] using list_ind2.
  - intros [].
  - simpl. tauto.
  - destruct (is_high_surrogate a && is_low_surrogate b) eqn:E.
    + rewrite code_points_pair by assumption.
      apply andb_true_iff in E. destruct E as [Ha Hb].
      intros [<-|[<-|H]]; [right; blia | right; blia|].
      destruct (IHr H); [left; right; assumption | tauto].
    + rewrite code_points_step by assumption. intros [<-|H].
      * left. left. reflexivity.
      * destruct (IHbr H); [left; right; assumption | tauto].
Qed.

Lemma code_points_join sep ws :
  is_surrogate sep = false ->
  code_points (join [sep] ws) = join [sep] (map code_points ws).
Proof.
  intros Hsep. induction ws as [|w r IH]; [reflexivity|].
  destruct r as [|w' r']; [reflexivity|].
  change (code_points (w ++ sep :: join [sep] (w' :: r'))
          = code_points w ++ sep :: join [sep] (map code_points (w' :: r'))).
  rewrite <- IH.
  rewrite code_points_app by (simpl; blia).
  rewrite (code_points_cons sep) by (left; blia). reflexivity.
Qed.

Lemma In_join sep (ws : list (list Z)) c :
  In c (join [sep] ws) -> c = sep \/ exists w, In w ws /\ In c w.
Proof.
  induction ws as [|w r IH]; [intros []|].
  destruct r as [|w' r'].
  - simpl. intros H. right. exists w. split; [left; reflexivity | exact H].
  - rewrite join_cons, in_app_iff. intros [H|[<-|H]].
    + right. exists w. split; [left; reflexivity | exact H].
    + left. reflexivity.
    + destruct (IH H) as [->|(w0 & Hw0 & Hc)]; [left; reflexivity|].
      right. exists w0. split; [right; exact Hw0 | exact Hc].
Qed.

Section Output.
Variable U : Unicode.
Hypothesis laws : UnicodeLaws U.

Lemma lower_join_hyphen ws :
  toLowerCase U (join [HYPHEN] ws) = join [HYPHEN] (map (toLowerCase U) ws).
Proof.
  induction ws as [|w r IH]; [apply (lower_nil U laws)|].
  destruct r as [|w' r']; [reflexivity|].
  change (toLowerCase U (w ++ HYPHEN :: join [HYPHEN] (w' :: r'))
          = toLowerCase U w
            ++ HYPHEN :: join [HYPHEN] (map (toLowerCase U) (w' :: r'))).
  rewrite <- IH. apply (lower_hyphen U laws).
Qed.

(** toKebabCase joins the lower-cased tokens by hyphens. *)
Theorem toKebabCase_output s :
  chain_prompt.toKebabCase U (VString s)
  = Return (join [HYPHEN] (lowered_tokens U (kebab_tokens U s))).
Proof.
  rewrite (toKebabCase_tokens U laws).
  rewrite from_code_points_join by reflexivity.
  rewrite lower_join_hyphen. unfold lowered_tokens. rewrite map_map. reflexivity.
Qed.

(** toDotCase joins the lower-cased tokens by dots. *)
Theorem toDotCase_output s :
  refined_prompt.toDotCase U (VString s)
  = Return (join [DOT] (lowered_tokens U (refined_tokens U s))).
Proof.
  rewrite (toDotCase_tokens U laws). unfold lowered_tokens. rewrite map_map.
  reflexivity.
Qed.

(** *** The characters of the tokens *)

Lemma normalized_word_char s c :
  In c (normalized U s) -> isDelimiter U c = false -> word_char U c.
Proof.
  intros Hc Hd. split; [exact Hd|].
  unfold normalized, replace_all_u in Hc.
  destruct (In_code_points _ _ Hc) as [Hc1|Ha]; [|right; exact Ha].
  destruct (In_from_code_points _ _ Hc1) as [Hc2|Hs].
  - left.
    assert (Hc3 : In c (code_points (normalize_NFKD U (trim s)))).
    { unfold re_marks in Hc2. rewrite delete_scan_filter in Hc2.
      apply filter_In in Hc2. apply Hc2. }
    pose proof (nfkd_stable U laws (trim s)) as Hst.
    rewrite Forall_forall in Hst. apply Hst, Hc3.
  - rewrite (word_char_not_surrogate U laws c Hd) in Hs. discriminate.
Qed.

Lemma token_word_chars sep n s w :
  isDelimiter U sep = true -> inserted sep (normalized U s) n ->
  In w (tokens (isDelimiter U) n) -> Forall (word_char U) w.
Proof.
  intros Hsep Hi Hw.
  pose proof (tokens_are_tokens (isDelimiter U) n) as Ht.
  rewrite Forall_forall in Ht. destruct (Ht w Hw) as [_ Hall].
  rewrite Forall_forall in Hall. apply Forall_forall. intros c Hc.
  pose proof (Hall c Hc) as Hd.
  apply (normalized_word_char s c); [|exact Hd].
  destruct (inserted_In _ _ _ c Hi (tokens_In _ _ _ _ Hw Hc)) as [H| ->];
    [exact H | congruence].
Qed.

Lemma kebab_token_word_chars s w :
  In w (kebab_tokens U s) -> Forall (word_char U) w.
Proof.
  apply (token_word_chars HYPHEN (kebab_boundaries U (normalized U s)) s w).
  - apply (delimiter_hyphen U laws).
  - apply kebab_boundaries_inserted.
Qed.

Lemma refined_token_word_chars s w :
  In w (refined_tokens U s) -> Forall (word_char U) w.
Proof.
  apply (token_word_chars SPACE (refined_boundaries U (normalized U s)) s w).
  - apply (delimiter_space U laws).
  - apply refined_boundaries_inserted.
Qed.

(** *** Strings of letters and numbers *)

Lemma wordy_no_low_head s : wordy U s -> no_low_head s = true.
Proof.
  unfold wordy. intros H. rewrite <- no_low_head_code_points.
  destruct (code_points s) as [|c r]; [reflexivity|].
  inversion H as [|? ? Hc _]; subst. simpl.
  pose proof (word_char_not_surrogate U laws c Hc). blia.
Qed.

Lemma wordy_app a b : wordy U a -> wordy U b -> wordy U (a ++ b).
Proof.
  intros Ha Hb. unfold wordy.
  rewrite code_points_app by (apply wordy_no_low_head, Hb).
  apply Forall_app. split; assumption.
Qed.

Lemma wordy_concat ws : Forall (wordy U) ws -> wordy U (List.concat ws).
Proof.
  induction 1 as [|w r Hw Hr IH]; [constructor|].
  simpl. apply wordy_app; assumption.
Qed.

Lemma wordy_units s u :
  wordy U s -> In u s -> is_surrogate u = false -> isDelimiter U u = false.
Proof.
  intros Hs Hu Hsurr. destruct (In_code_units u s Hu) as [H|H]; [|congruence].
  unfold wordy in Hs. rewrite Forall_forall in Hs. apply Hs, H.
Qed.

(** A lower-cased token is a non-empty string of letters and numbers. *)
Lemma lowered_token s sep n w :
  isDelimiter U sep = true -> inserted sep (normalized U s) n ->
  In w (tokens (isDelimiter U) n) ->
  wordy U (toLowerCase U (from_code_points w))
  /\ toLowerCase U (from_code_points w) <> [].
Proof.
  intros Hsep Hi Hw.
  destruct (lower_word U laws w (token_word_chars sep n s w Hsep Hi Hw)) as [H1 H2].
  split; [exact H1|]. apply H2.
  pose proof (tokens_are_tokens (isDelimiter U) n) as Ht.
  rewrite Forall_forall in Ht. apply (Ht w Hw).
Qed.

Lemma lowered_kebab_tokens s :
  Forall (fun p => wordy U p /\ p <> []) (lowered_tokens U (kebab_tokens U s)).
Proof.
  apply Forall_forall. intros p Hp. unfold lowered_tokens in Hp.
  apply in_map_iff in Hp. destruct Hp as (w & <- & Hw).
  apply (lowered_token s HYPHEN _ w (delimiter_hyphen U laws)
           (kebab_boundaries_inserted U _) Hw).
Qed.

Lemma lowered_refined_tokens s :
  Forall (fun p => wordy U p /\ p <> []) (lowered_tokens U (refined_tokens U s)).
Proof.
  apply Forall_forall. intros p Hp. unfold lowered_tokens in Hp.
  apply in_map_iff in Hp. destruct Hp as (w & <- & Hw).
  apply (lowered_token s SPACE _ w (delimiter_space U laws)
           (refined_boundaries_inserted U _) Hw).
Qed.

(** The code points of words joined by an ASCII delimiter. *)
Lemma joined_code_points sep ps c :
  is_ascii sep -> Forall (fun p => wordy U p /\ p <> []) ps ->
  In c (code_points (join [sep] ps)) -> c = sep \/ isDelimiter U c = false.
Proof.
  intros Hsep Hps Hc. rewrite code_points_join in Hc by blia.
  destruct (In_join _ _ _ Hc) as [->|(w & Hw & Hcw)]; [left; reflexivity|].
  right. apply in_map_iff in Hw. destruct Hw as (p & <- & Hp).
  rewrite Forall_forall in Hps. destruct (Hps p Hp) as [Hwordy _].
  unfold wordy in Hwordy. rewrite Forall_forall in Hwordy. apply Hwordy, Hcw.
Qed.
End Output.

(** ** Well-formed input *)

Lemma trimStart_split s :
  exists a, s = a ++ trimStart s /\ Forall (fun c => isWhiteSpace c = true) a.
Proof.
  induction s as [|c t (a & E & Ha)]; [exists []; split; [reflexivity | constructor]|].
  simpl. destruct (isWhiteSpace c) eqn:Hc.
  - exists (c :: a). split; [simpl; f_equal; exact E | constructor; assumption].
  - exists []. split; [reflexivity | constructor].
Qed.

Lemma trimEnd_split s :
  exists b, s = trimEnd s ++ b /\ Forall (fun c => isWhiteSpace c = true) b.
Proof.
  unfold trimEnd. destruct (trimStart_split (rev s)) as (a & E & Ha).
  exists (rev a). split; [|apply Forall_rev, Ha].
  rewrite <- rev_app_distr, <- E, rev_involutive. reflexivity.
Qed.

Lemma code_points_app_bmp a s :
  Forall (fun c => is_high_surrogate c = false) a ->
  code_points (a ++ s) = a ++ code_points s.
Proof.
  induction 1 as [|c a Hc Ha IH]; [reflexivity|].
  simpl app. rewrite code_points_cons by tauto. rewrite IH. reflexivity.
Qed.

Lemma well_formed_trim s : well_formed s = true -> well_formed (trim s) = true.
Proof.
  rewrite !well_formed_spec. intros H. unfold trim.
  destruct (trimStart_split s) as (a & Ea & Ha).
  destruct (trimEnd_split (trimStart s)) as (b & Eb & Hb).
  rewrite Ea in H. rewrite code_points_app_bmp in H.
  2:{ revert Ha. apply Forall_impl. intros c Hc.
      pose proof (isWhiteSpace_surrogate c).
      destruct (is_high_surrogate c) eqn:E; [|reflexivity].
      rewrite H0 in Hc by blia. discriminate. }
  apply Forall_app in H. destruct H as [_ H].
  rewrite Eb in H. rewrite code_points_app in H.
  2:{ destruct Hb as [|c b Hc _]; [reflexivity|]. simpl.
      pose proof (isWhiteSpace_surrogate c).
      destruct (is_low_surrogate c) eqn:E; [|reflexivity].
      rewrite H0 in Hc by blia. discriminate. }
  apply Forall_app in H. apply H.
Qed.

Lemma pair_scan_never p q sep s :
  no_adjacent (fun a b => p a && q b) s = true ->
  replace_scan (pair_matcher p q sep) O s = s.
Proof.
  induction s as [|a t IH]; [reflexivity|].
  cbn [no_adjacent]. rewrite andb_true_iff. intros [Ha Ht].
  rewrite pair_scan_miss; [rewrite IH by exact Ht; reflexivity|].
  intros b r ->. simpl in Ha. apply negb_true_iff in Ha. exact Ha.
Qed.

Lemma no_adjacent_no_second (p q : Z -> bool) s :
  Forall (fun c => q c = false) s -> no_adjacent (fun a b => p a && q b) s = true.
Proof.
  induction 1 as [|a t Ha Ht IH]; [reflexivity|].
  cbn [no_adjacent]. rewrite IH, andb_true_r.
  destruct Ht as [|b r Hb _]; [reflexivity|]. simpl. rewrite Hb, andb_false_r.
  reflexivity.
Qed.

Lemma acronym_scan_no_upper up lo s :
  Forall (fun c => up c = false) s ->
  replace_scan (acronym_matcher up lo) O s = s.
Proof.
  induction 1 as [|a t Ha Ht IH]; [reflexivity|].
  cbn [replace_scan]. unfold acronym_matcher at 1. cbn [run_length].
  rewrite Ha. cbn [acronym_backtrack]. rewrite IH. reflexivity.
Qed.

Section WellFormed.
Variable U : Unicode.
Hypothesis laws : UnicodeLaws U.

Lemma normalized_plain s :
  well_formed s = true -> Forall (plain U) (normalized U s).
Proof.
  intros Hs. unfold normalized, replace_all_u, re_marks.
  rewrite delete_scan_filter.
  pose proof (nfkd_well_formed U laws _ (well_formed_trim s Hs)) as Hwf.
  rewrite well_formed_spec in Hwf.
  pose proof (nfkd_stable U laws (trim s)) as Hst.
  set (l := code_points (normalize_NFKD U (trim s))) in *.
  assert (Hf : Forall (plain U) (filter (fun c => negb (isM U c)) l)).
  { apply Forall_forall. intros c Hc. apply filter_In in Hc.
    destruct Hc as [Hc Hm]. rewrite Forall_forall in Hwf, Hst.
    split; [apply Hst, Hc|]. split; [apply negb_true_iff, Hm | apply Hwf, Hc]. }
  rewrite code_points_from_code_points; [exact Hf|].
  apply no_surrogate_no_split. revert Hf. apply Forall_impl.
  intros c (_ & _ & H). exact H.
Qed.

Lemma token_plain sep n s w :
  well_formed s = true ->
  isDelimiter U sep = true -> inserted sep (normalized U s) n ->
  In w (tokens (isDelimiter U) n) -> Forall (plain U) w.
Proof.
  intros Hs Hsep Hi Hw.
  pose proof (tokens_are_tokens (isDelimiter U) n) as Ht.
  rewrite Forall_forall in Ht. destruct (Ht w Hw) as [_ Hall].
  rewrite Forall_forall in Hall. apply Forall_forall. intros c Hc.
  pose proof (Hall c Hc) as Hd.
  pose proof (normalized_plain s Hs) as Hp. rewrite Forall_forall in Hp.
  apply Hp.
  destruct (inserted_In _ _ _ c Hi (tokens_In _ _ _ _ Hw Hc)) as [H| ->];
    [exact H | congruence].
Qed.

Lemma lower_tokens ts :
  Forall (fun t => Forall (plain U) t) ts ->
  exists ts', Forall2 (lowered_token_of U) ts ts'
              /\ lowered_tokens U ts = map from_code_points ts'.
Proof.
  induction 1 as [|t r Ht Hr (r' & IH1 & IH2)].
  - exists []. split; [constructor | reflexivity].
  - destruct (lower_plain U laws t Ht) as (t' & E & H2).
    exists (t' :: r'). split.
    + constructor; [|exact IH1]. split; [exact E|]. split; [exact H2|].
      rewrite <- E. apply (lower_idempotent U laws t Ht).
    + simpl. rewrite E. f_equal. exact IH2.
Qed.

Lemma lowered_preserves t t' :
  Forall2 (lowered U) t t' ->
  Forall (fun c => isDelimiter U c = false) t ->
  Forall (plain U) t'
  /\ Forall (fun c => isLu U c = false) t'
  /\ Forall (fun c => isDelimiter U c = false) t'
  /\ (Forall (fun c => isL U c = true) t -> Forall (fun c => isL U c = true) t')
  /\ (Forall (fun c => isN U c = true) t -> Forall (fun c => isN U c = true) t')
  /\ (t <> [] -> t' <> []).
Proof.
  induction 1 as [|c c' t t' (Hp & Hu & HL & HN & _) Ht IH].
  - intros _. repeat split; auto.
  - intros Hd. inversion Hd as [|? ? Hc Hd']; subst.
    destruct (IH Hd') as (I1 & I2 & I3 & I4 & I5 & _).
    repeat split.
    + constructor; assumption.
    + constructor; assumption.
    + constructor; [|assumption]. unfold isDelimiter in *. rewrite HL, HN. exact Hc.
    + intros H. inversion H; subst. constructor; [congruence | auto].
    + intros H. inversion H; subst. constructor; [congruence | auto].
    + discriminate.
Qed.
End WellFormed.
(** The examples of the source files, run on [sample]. *)
Section SourceExamples.
Let kebab (s : jsstring) := chain_prompt.toKebabCase sample (VString s).
Let camel (s : jsstring) := refined_prompt.toCamelCase sample (VString s).
Let dot (s : jsstring) := refined_prompt.toDotCase sample (VString s).
Let camel0 (s : jsstring) := few_shot_prompt.toCamelCase sample (VString s).

Example kebab_tests :
  kebab (js "Simple Test") = Return (js "simple-test")
  /\ kebab (js "Mixed_delimiters - andSpaces") = Return (js "mixed-delimiters-and-spaces")
  /\ kebab (js "fooBarBaz") = Return (js "foo-bar-baz")
  /\ kebab (js "PascalCaseInputExample") = Return (js "pascal-case-input-example")
  /\ kebab (js "  multiple   spaces__and--delims!! ") = Return (js "multiple-spaces-and-delims")
  /\ kebab (js "Unicode " ++ [0x2014] ++ js " na" ++ [0xEF] ++ js "ve caf" ++ [0xE9] ++ js " 123")
     = Return (js "unicode-naive-cafe-123")
  /\ kebab (js "Hello World") = Return (js "hello-world").
Proof. repeat split; vm_compute; reflexivity. Qed.

Example camel_tests :
  camel (js "hello world") = Return (js "helloWorld")
  /\ camel (js "Hello_world-test") = Return (js "helloWorldTest")
  /\ camel (js "alreadyCamelCase") = Return (js "alreadyCamelCase")
  /\ camel (js "PascalCaseInput") = Return (js "pascalCaseInput")
  /\ camel (js "  multiple   DELIMITERS__and--punct.!?  ") = Return (js "multipleDelimitersAndPunct")
  /\ camel (js "user_id") = Return (js "userId")
  /\ camel (js "123 leading digits") = Return (js "123LeadingDigits")
  /\ camel (js "version2alpha") = Return (js "version2Alpha")
  /\ camel (js "caf" ++ [0xE9] ++ js "-au-lait") = Return (js "cafeAuLait")
  /\ camel ([0xC9] ++ js "cole primaire") = Return (js "ecolePrimaire")
  /\ camel (js "   ") = Return [].
Proof. repeat split; vm_compute; reflexivity. Qed.

Example dot_tests :
  dot (js "hello world") = Return (js "hello.world")
  /\ dot (js "Hello_world-test") = Return (js "hello.world.test")
  /\ dot (js "already.dot.case") = Return (js "already.dot.case")
  /\ dot (js "PascalCaseInput") = Return (js "pascal.case.input")
  /\ dot (js "  multiple   DELIMITERS__and--punct.!?  ") = Return (js "multiple.delimiters.and.punct")
  /\ dot (js "user_id") = Return (js "user.id")
  /\ dot (js "123 leading digits") = Return (js "123.leading.digits")
  /\ dot (js "version2alpha") = Return (js "version.2.alpha")
  /\ dot (js "caf" ++ [0xE9] ++ js "-au-lait") = Return (js "cafe.au.lait")
  /\ dot (js "Zo" ++ [0xEB] ++ js "-and-" ++ [0xC5] ++ js "ke") = Return (js "zoe.and.ake")
  /\ dot (js "  HTTP ResponseCode ") = Return (js "http.response.code")
  /\ dot (js "   ") = Return [].
Proof. repeat split; vm_compute; reflexivity. Qed.

Example few_shot_tests :
  camel0 (js "first name") = Return (js "firstName")
  /\ camel0 (js "user_id") = Return (js "userId")
  /\ camel0 (js "SCREEN_NAME") = Return (js "screenName")
  /\ camel0 (js "mobile-number") = Return (js "mobileNumber").
Proof. repeat split; vm_compute; reflexivity. Qed.

(** The doc comment of toCamelCase also gives "1stPlace" -> "1stPlace";
    the function splits the digit from the letters and capitalises "st". *)
Example camel_1stPlace :
  refined_prompt.rawWords sample (js "1stPlace") = [js "1"; js "st"; js "Place"]
  /\ camel (js "1stPlace") = Return (js "1StPlace").
Proof. split; vm_compute; reflexivity. Qed.
End SourceExamples.

(** ** Splitting a joined string *)

Section SplitChar.
Variable sep : Z.

Lemma split_char_scan_app cur a s :
  split_char_scan sep cur (a ++ sep :: s)
  = split_char_scan sep cur a ++ split_char_scan sep [] s.
Proof.
  revert cur. induction a as [|c a IH]; intros cur.
  - simpl. rewrite Z.eqb_refl. reflexivity.
  - simpl. destruct (c =? sep); rewrite IH; reflexivity.
Qed.

Lemma split_char_scan_piece cur p :
  sep_free sep p -> split_char_scan sep cur p = [rev cur ++ p].
Proof.
  intros Hp. revert cur. induction Hp as [|c p Hc Hp IH]; intros cur.
  - simpl. rewrite app_nil_r. reflexivity.
  - simpl. rewrite Hc, IH. simpl. rewrite <- app_assoc. reflexivity.
Qed.

Lemma split_char_join ps :
  ps <> [] -> Forall (sep_free sep) ps -> split_char sep (join [sep] ps) = ps.
Proof.
  intros Hne Hps. unfold split_char. revert Hne.
  induction Hps as [|p r Hp Hr IH]; [intros H; destruct (H eq_refl)|]. intros _.
  destruct r as [|p' r'].
  - simpl. apply (split_char_scan_piece [] p Hp).
  - rewrite join_cons, split_char_scan_app, (split_char_scan_piece [] p Hp).
    rewrite IH by discriminate. reflexivity.
Qed.

Lemma split_char_app a s :
  split_char sep (a ++ sep :: s) = split_char sep a ++ split_char sep s.
Proof. apply split_char_scan_app. Qed.

Lemma split_char_nil : split_char sep [] = [[]].
Proof. reflexivity. Qed.

(** A joined string of non-empty pieces has no separator at an edge and no
    two separators in a row. *)
Lemma joined_shape ps :
  Forall (fun p => sep_free sep p /\ p <> []) ps ->
  (forall t, join [sep] ps <> sep :: t)
  /\ (forall t, join [sep] ps <> t ++ [sep])
  /\ (forall a b, join [sep] ps <> a ++ sep :: sep :: b).
Proof.
  intros Hps.
  assert (Hfree : Forall (sep_free sep) ps)
    by (revert Hps; apply Forall_impl; tauto).
  assert (Hno : ~ In [] ps).
  { intros H. rewrite Forall_forall in Hps. destruct (Hps [] H) as [_ Hn]. congruence. }
  destruct ps as [|p r].
  - repeat split; intros; simpl.
    + discriminate.
    + destruct t; discriminate.
    + destruct a; discriminate.
  - assert (Hs : split_char sep (join [sep] (p :: r)) = p :: r)
      by (apply split_char_join; [discriminate | exact Hfree]).
    repeat split.
    + intros t E. rewrite E in Hs.
      change (sep :: t) with ([] ++ sep :: t) in Hs.
      rewrite split_char_app in Hs. simpl in Hs. apply Hno. rewrite <- Hs.
      left. reflexivity.
    + intros t E. rewrite E in Hs. rewrite split_char_app in Hs.
      apply Hno. rewrite <- Hs. apply in_or_app. right. left. reflexivity.
    + intros a b E. rewrite E in Hs. rewrite split_char_app in Hs.
      change (sep :: b) with ([] ++ sep :: b) in Hs.
      rewrite split_char_app in Hs. apply Hno. rewrite <- Hs.
      apply in_or_app. right. left. reflexivity.
Qed.
End SplitChar.

Lemma join_last_unit sep (ps : list jsstring) (P : Z -> Prop) :
  ps <> [] -> Forall (fun p => p <> [] /\ Forall P p) ps ->
  exists t z, join [sep] ps = t ++ [z] /\ P z.
Proof.
  intros Hne Hps. revert Hne.
  induction Hps as [|p r [Hp HP] Hr IH]; [intros H; destruct (H eq_refl)|]. intros _.
  destruct r as [|p' r'].
  - simpl. destruct (exists_last Hp) as (t & z & ->).
    exists t, z. split; [reflexivity|].
    apply Forall_app in HP. destruct HP as [_ HP]. inversion HP; assumption.
  - destruct (IH ltac:(discriminate)) as (t & z & E & Hz).
    exists (p ++ sep :: t), z. split; [|exact Hz].
    change (p ++ sep :: join [sep] (p' :: r') = (p ++ sep :: t) ++ [z]).
    rewrite E, <- app_assoc. reflexivity.
Qed.

Lemma trim_join sep (ps : list jsstring) :
  Forall (fun p => p <> [] /\ Forall (fun u => isWhiteSpace u = false) p) ps ->
  trim (join [sep] ps) = join [sep] ps.
Proof.
  intros Hps. destruct ps as [|p r]; [reflexivity|].
  destruct (join_last_unit sep (p :: r) _ ltac:(discriminate) Hps) as (t & z & E & Hz).
  inversion Hps as [|? ? [Hp HP] _]; subst.
  destruct p as [|u p']; [congruence|]. inversion HP; subst.
  assert (Hj : exists s, join [sep] ((u :: p') :: r) = u :: s).
  { destruct r; simpl; eexists; reflexivity. }
  destruct Hj as (s & Hj). rewrite Hj.
  apply (trim_fixed u s z t); [assumption | assumption |].
  rewrite <- Hj. exact E.
Qed.

Section Pieces.
Variable U : Unicode.
Hypothesis laws : UnicodeLaws U.

Lemma wordy_sep_free sep p :
  is_ascii sep -> isDelimiter U sep = true -> wordy U p -> sep_free sep p.
Proof.
  intros Ha Hsep Hp. apply Forall_forall. intros u Hu.
  destruct (u =? sep) eqn:E; [|reflexivity]. apply Z.eqb_eq in E. subst u.
  rewrite (wordy_units U p sep Hp Hu) in Hsep by blia. discriminate.
Qed.

Lemma wordy_no_space p : wordy U p -> Forall (fun u => isWhiteSpace u = false) p.
Proof.
  intros Hp. apply Forall_forall. intros u Hu.
  destruct (is_surrogate u) eqn:E; [apply isWhiteSpace_surrogate, E|].
  apply (word_char_not_space U laws), (wordy_units U p u Hp Hu E).
Qed.

Lemma pieces_sep_free sep ps :
  is_ascii sep -> isDelimiter U sep = true ->
  Forall (fun p => wordy U p /\ p <> []) ps ->
  Forall (fun p => sep_free sep p /\ p <> []) ps.
Proof.
  intros Ha Hsep. apply Forall_impl. intros p [Hp Hn].
  split; [apply wordy_sep_free; assumption | exact Hn].
Qed.

Lemma trim_pieces sep ps :
  Forall (fun p => wordy U p /\ p <> []) ps ->
  trim (join [sep] ps) = join [sep] ps.
Proof.
  intros Hps. apply trim_join. revert Hps. apply Forall_impl.
  intros p [Hp Hn]. split; [exact Hn | apply wordy_no_space, Hp].
Qed.
End Pieces.

(** * The claims *)

(** ** C1: the type guard *)

(** C1, as stated, fails: the toCamelCase of src/few_shot_prompt.js does not
    raise on a non-string argument; for the number 123 it returns the empty
    string. *)
Lemma few_shot_toCamelCase_does_not_throw :
  is_string (VNumber 123) = false
  /\ few_shot_prompt.toCamelCase sample (VNumber 123) = Return []
  /\ throws (few_shot_prompt.toCamelCase sample (VNumber 123)) = false.
Proof. repeat split. Qed.

(** C1, amended: for every non-string argument toKebabCase, the toCamelCase of
    src/refined_prompt.js and toDotCase raise a TypeError, whatever the
    engine's tables (no normalisation work is done); the toCamelCase of
    src/few_shot_prompt.js returns the empty string instead. *)
Theorem non_string_argument (U : Unicode) (input : value) :
  is_string input = false ->
  chain_prompt.toKebabCase U input
  = Throw (TypeError "toKebabCase: input must be a string")
  /\ refined_prompt.toCamelCase U input
     = Throw (TypeError ("toCamelCase expected a string but received "
                         ++ refined_prompt.received input))
  /\ refined_prompt.toDotCase U input
     = Throw (TypeError ("toDotCase expected a string but received "
                         ++ refined_prompt.received input))
  /\ few_shot_prompt.toCamelCase U input = Return [].
Proof.
  intros H. destruct input; try discriminate H; repeat split.
Qed.

Lemma non_string_argument_witness :
  chain_prompt.toKebabCase sample VNull
  = Throw (TypeError "toKebabCase: input must be a string")
  /\ refined_prompt.toCamelCase sample VNull
     = Throw (TypeError "toCamelCase expected a string but received null")
  /\ refined_prompt.toDotCase sample VNull
     = Throw (TypeError "toDotCase expected a string but received null")
  /\ few_shot_prompt.toCamelCase sample VNull = Return [].
Proof. exact (non_string_argument sample VNull eq_refl). Defined.

(** ** C2: the acronym boundary *)


Lemma run_length_app p u s :
  Forall (fun c => p c = true) u -> run_length p (u ++ s) = (List.length u + run_length p s)%nat.
Proof.
  induction 1 as [|c u Hc Hu IH]; [reflexivity|]. simpl. rewrite Hc, IH. reflexivity.
Qed.

Lemma skipn_app_length {A} (u s : list A) : skipn (List.length u) (u ++ s) = s.
Proof. induction u; simpl; auto. Qed.

Lemma firstn_app_length {A} (u s : list A) : firstn (List.length u) (u ++ s) = u.
Proof. induction u; simpl; [reflexivity | f_equal; assumption]. Qed.



(** ** C7: every string is converted *)

Lemma tokens_of_separators p sep s s' :
  p sep = true -> Forall (fun c => p c = true) s -> inserted sep s s' ->
  tokens p s' = [].
Proof.
  intros Hsep Hs Hi. apply tokens_all_separators. apply Forall_forall.
  intros c Hc. destruct (inserted_In _ _ _ _ Hi Hc) as [H| ->]; [|exact Hsep].
  rewrite Forall_forall in Hs. apply Hs, H.
Qed.

(** C7: every string input gives a string and no error, with every converter
    and whatever the tables of the engine; toKebabCase(""),
    toCamelCase("   ") and toDotCase("!!!") are the empty string. *)
Theorem string_input_returns (U : Unicode) :
  (forall s, exists r, chain_prompt.toKebabCase U (VString s) = Return r)
  /\ (forall s, exists r, refined_prompt.toCamelCase U (VString s) = Return r)
  /\ (forall s, exists r, refined_prompt.toDotCase U (VString s) = Return r)
  /\ (forall s, exists r, few_shot_prompt.toCamelCase U (VString s) = Return r)
  /\ (UnicodeLaws U ->
      chain_prompt.toKebabCase U (VString (js "")) = Return (js "")
      /\ refined_prompt.toCamelCase U (VString (js "   ")) = Return (js "")
      /\ refined_prompt.toDotCase U (VString (js "!!!")) = Return (js "")).
Proof.
  repeat apply conj.
  - intros s. eexists. reflexivity.
  - intros s. unfold refined_prompt.toCamelCase.
    destruct (trim s); [eexists; reflexivity|].
    destruct (refined_prompt.rawWords U _); eexists; reflexivity.
  - intros s. unfold refined_prompt.toDotCase.
    destruct (trim s); [eexists; reflexivity|].
    destruct (refined_prompt.words U _); eexists; reflexivity.
  - intros s. unfold few_shot_prompt.toCamelCase.
    destruct (trim s); [eexists; reflexivity|].
    destruct (filter nonempty _) as [|w [|w' r]]; eexists; reflexivity.
  - intros laws. repeat apply conj.
    + rewrite (toKebabCase_tokens U laws). unfold kebab_tokens.
      rewrite (normalized_empty U laws) by reflexivity.
      simpl. rewrite (lower_nil U laws). reflexivity.
    + reflexivity.
    + rewrite (toDotCase_tokens U laws). unfold refined_tokens.
      rewrite (normalized_ascii U laws) by each_char.
      rewrite (tokens_of_separators (isDelimiter U) SPACE (trim (js "!!!"))).
      * reflexivity.
      * apply (delimiter_space U laws).
      * each_char; rewrite (ascii_delimiter U laws) by blia; reflexivity.
      * apply refined_boundaries_inserted.
Qed.

Lemma string_input_returns_witness :
  (exists r, chain_prompt.toKebabCase sample (VString (js "Hello World")) = Return r)
  /\ chain_prompt.toKebabCase sample (VString (js "")) = Return (js "")
  /\ refined_prompt.toCamelCase sample (VString (js "   ")) = Return (js "")
  /\ refined_prompt.toDotCase sample (VString (js "!!!")) = Return (js "").
Proof.
  destruct (string_input_returns sample) as (H1 & _ & _ & _ & H5).
  exact (conj (H1 (js "Hello World")) (H5 SampleLaws.sample_laws)).
Defined.

(** ** Tokens of the camel renderer *)

Lemma join_nil_concat ws : join [] ws = List.concat ws.
Proof.
  induction ws as [|w r IH]; [reflexivity|].
  destruct r as [|w' r']; [simpl; rewrite app_nil_r; reflexivity|].
  change (join [] (w :: w' :: r')) with (w ++ [] ++ join [] (w' :: r')).
  rewrite IH. reflexivity.
Qed.

Section Camel.
Variable U : Unicode.
Hypothesis laws : UnicodeLaws U.

Lemma delimiter_cases c :
  isDelimiter U c = false ->
  (isL U c = true /\ isN U c = false) \/ (isL U c = false /\ isN U c = true).
Proof.
  unfold isDelimiter, isL, isN. destruct (general_category U c); simpl; intros; try discriminate; tauto.
Qed.

Lemma rawWords_tokens s :
  refined_prompt.rawWords U (trim s) = map from_code_points (refined_tokens U s).
Proof. rewrite refined_rawWords, (refined_words U laws). reflexivity. Qed.
End Camel.

(** ** C3: letters and digits *)


Section Adjacent.
Variable R : Z -> Z -> bool.

Lemma inserted_no_adjacent sep s s' :
  (forall a, R a sep = false /\ R sep a = false) ->
  inserted sep s s' ->
  (forall a, ok_after R a s = true -> ok_after R a s' = true)
  /\ (no_adjacent R s = true -> no_adjacent R s' = true).
Proof.
  intros Hsep. induction 1 as [|c s s' H [IH1 IH2]|s s' H [IH1 IH2]].
  - tauto.
  - split; [tauto|]. simpl. rewrite !andb_true_iff. intros [Hc Hs]. auto.
  - split.
    + intros a _. simpl. rewrite (proj1 (Hsep a)). reflexivity.
    + intros Hs. simpl. rewrite (IH2 Hs), andb_true_r.
      destruct s' as [|b r]; [reflexivity|]. simpl.
      rewrite (proj2 (Hsep b)). reflexivity.
Qed.

Lemma no_adjacent_app_r pre s :
  no_adjacent R (pre ++ s) = true -> no_adjacent R s = true.
Proof.
  induction pre as [|a pre IH]; [tauto|]. simpl.
  rewrite andb_true_iff. intros [_ H]. apply IH, H.
Qed.

Lemma no_adjacent_app_l s post :
  no_adjacent R (s ++ post) = true -> no_adjacent R s = true.
Proof.
  induction s as [|a s IH]; [reflexivity|]. simpl.
  rewrite !andb_true_iff. intros [Ha H]. split; [|apply IH, H].
  destruct s; [reflexivity | exact Ha].
Qed.
End Adjacent.

Lemma insert_sep_separates p q sep s :
  p sep = false -> q sep = false ->
  no_adjacent (fun a b => p a && q b) (insert_sep p q sep s) = true.
Proof.
  intros Hp Hq. induction s as [|a t IH]; [reflexivity|].
  destruct t as [|b r]; [reflexivity|].
  rewrite insert_sep_cons. destruct (p a && q b) eqn:E.
  - cbn [no_adjacent ok_after]. rewrite Hq, andb_false_r. cbn [negb andb].
    rewrite IH, andb_true_r.
    destruct (insert_sep p q sep (b :: r)); [reflexivity|].
    cbn [ok_after]. rewrite Hp. reflexivity.
  - cbn [no_adjacent]. rewrite IH, andb_true_r.
    destruct r as [|b' r'].
    + simpl. rewrite E. reflexivity.
    + rewrite insert_sep_cons. destruct (p b && q b'); simpl; rewrite E; reflexivity.
Qed.

Section LetterNumber.
Variable U : Unicode.
Hypothesis laws : UnicodeLaws U.

Lemma space_class : isL U SPACE = false /\ isN U SPACE = false.
Proof.
  destruct (ascii_class U laws SPACE ltac:(blia)) as (HL & _ & _ & HN & _).
  split; assumption.
Qed.

Lemma number_not_letter c : isN U c = true -> isL U c = false.
Proof. unfold isN, isL. destruct (general_category U c); congruence. Qed.

Lemma letter_not_number c : isL U c = true -> isN U c = false.
Proof. unfold isN, isL. destruct (general_category U c); congruence. Qed.

(** After the boundary steps of src/refined_prompt.js no letter is next to
    a number. *)
Lemma refined_boundaries_separated n :
  no_adjacent (letter_number U) (refined_boundaries U n) = true
  /\ no_adjacent (number_letter U) (refined_boundaries U n) = true.
Proof.
  destruct space_class as [HL HN]. unfold refined_boundaries.
  set (x := replace_scan (refined_prompt.re_lower_upper U) O n).
  unfold refined_prompt.re_number_letter, refined_prompt.re_letter_number.
  rewrite (pair_scan_insert (isL U) (isN U) SPACE number_not_letter x).
  split.
  - apply (inserted_no_adjacent (letter_number U) SPACE
             (insert_sep (isL U) (isN U) SPACE x)).
    + intros a. unfold letter_number. rewrite HL, HN, andb_false_r. tauto.
    + apply pair_scan_inserted.
    + apply insert_sep_separates; assumption.
  - rewrite (pair_scan_insert (isN U) (isL U) SPACE letter_not_number).
    apply insert_sep_separates; assumption.
Qed.

Lemma uniform_token w :
  Forall (fun c => isDelimiter U c = false) w ->
  no_adjacent (letter_number U) w = true ->
  no_adjacent (number_letter U) w = true ->
  Forall (fun c => isL U c = true) w \/ Forall (fun c => isN U c = true) w.
Proof.
  induction 1 as [|a w Ha Hw IH]; [left; constructor|].
  cbn [no_adjacent]. rewrite !andb_true_iff. intros [H1 H1'] [H2 H2'].
  specialize (IH H1' H2').
  destruct w as [|b w'].
  - destruct (delimiter_cases U a Ha) as [[HL _]|[_ HN]];
      [left | right]; repeat constructor; assumption.
  - simpl in H1, H2. unfold letter_number in H1. unfold number_letter in H2.
    inversion Hw as [|? ? Hb _]; subst.
    destruct (delimiter_cases U a Ha) as [[HLa HNa]|[HLa HNa]];
      destruct (delimiter_cases U b Hb) as [[HLb HNb]|[HLb HNb]];
      revert H1 H2; rewrite HLa, HNa, HLb, HNb; simpl; intros H1 H2;
      try discriminate.
    + left. destruct IH as [IH|IH]; [constructor; assumption|].
      inversion IH; subst; congruence.
    + right. destruct IH as [IH|IH]; [|constructor; assumption].
      inversion IH; subst; congruence.
Qed.

Lemma token_decodable w :
  Forall (fun c => isDelimiter U c = false) w ->
  code_points (from_code_points w) = w.
Proof.
  intros Hw. apply code_points_from_code_points, no_surrogate_no_split.
  revert Hw. apply Forall_impl. apply (word_char_not_surrogate U laws).
Qed.

Lemma boundary_tokens_uniform n t :
  In t (tokens (isDelimiter U) (refined_boundaries U n)) ->
  Forall (fun c => isL U c = true) t \/ Forall (fun c => isN U c = true) t.
Proof.
  intros Ht. set (x := refined_boundaries U n) in *.
  pose proof (tokens_are_tokens (isDelimiter U) x) as Hall.
  rewrite Forall_forall in Hall. destruct (Hall t Ht) as [_ Hd].
  destruct (tokens_infix _ _ _ Ht) as (pre & post & Hx).
  destruct (refined_boundaries_separated n) as [H1 H2].
  fold x in H1, H2. rewrite Hx in H1, H2.
  apply uniform_token; [exact Hd | |].
  - eapply no_adjacent_app_l, no_adjacent_app_r, H1.
  - eapply no_adjacent_app_l, no_adjacent_app_r, H2.
Qed.

Lemma refined_words_uniform str w :
  In w (refined_prompt.words U str) ->
  Forall (fun c => isL U c = true) (code_points w)
  \/ Forall (fun c => isN U c = true) (code_points w).
Proof.
  rewrite (refined_words U laws). rewrite in_map_iff.
  intros (w0 & <- & Hw0).
  pose proof (boundary_tokens_uniform _ w0 Hw0) as Hu.
  rewrite token_decodable; [exact Hu|].
  destruct Hu as [Hu|Hu]; revert Hu; apply Forall_impl; intros c Hc;
    unfold isDelimiter; rewrite Hc, ?orb_true_r; reflexivity.
Qed.
End LetterNumber.



(** ** C5: the camel renderer *)


Section Renderer.
Variable U : Unicode.
Hypothesis laws : UnicodeLaws U.

(** On a token the source's [capitalize] upper-cases a first letter of the
    BMP and leaves every other first character alone. *)
Lemma capitalize_token w :
  token (isDelimiter U) w ->
  refined_prompt.capitalize U (from_code_points w)
  = render_token U (bmp_letter U) (from_code_points w).
Proof.
  intros [Hne Hw]. destruct w as [|c w']; [congruence|].
  pose proof (token_decodable U laws (c :: w') Hw) as Hdec.
  inversion Hw as [|? ? Hc Hw']; subst.
  unfold refined_prompt.capitalize, render_token, first_is, first_character,
    remaining_characters, bmp_letter.
  rewrite Hdec. cbn [tl]. rewrite from_code_points_cons.
  destruct (is_astral c) eqn:Ea.
  - destruct (utf16_astral c Ea) as (h & l & -> & Hh & Hl & _).
    assert (Hs : is_surrogate h = true) by blia.
    cbn [app charAt0 slice1 tl code_points existsb]. rewrite orb_false_r.
    destruct (surrogate_class U laws h Hs) as (_ & -> & _).
    rewrite andb_false_r.
    rewrite (upper_surrogate U laws h Hs).
    rewrite (lower_low_surrogate U laws l _ Hl). reflexivity.
  - rewrite (utf16_bmp c Ea).
    cbn [app charAt0 slice1 tl code_points existsb]. rewrite orb_false_r.
    rewrite andb_true_r.
    destruct (delimiter_cases U c Hc) as [[-> ->]|[-> ->]]; reflexivity.
Qed.

(** The two rules agree on a token that keeps its first character. *)
Lemma render_token_kept w :
  first_kept U w ->
  render_token U (bmp_letter U) w = render_token U (isL U) w.
Proof.
  unfold first_kept, render_token, first_is, first_character, bmp_letter.
  destruct (code_points w) as [|c r]; [reflexivity|]. intros H.
  destruct (isL U c) eqn:EL; [|reflexivity].
  destruct (is_astral c) eqn:Ea; [|reflexivity].
  cbn [negb andb]. rewrite (H eq_refl eq_refl). reflexivity.
Qed.

Lemma camel_bmp s :
  refined_prompt.toCamelCase U (VString s)
  = Return (bmp_camel U (refined_prompt.rawWords U (trim s))).
Proof.
  rewrite (toCamelCase_tokens U laws), (rawWords_tokens U laws).
  pose proof (tokens_are_tokens (isDelimiter U)
                (refined_boundaries U (normalized U s))) as Ht.
  fold (refined_tokens U s) in Ht.
  destruct (refined_tokens U s) as [|w0 others]; [reflexivity|].
  cbn [map]. unfold bmp_camel, render_camel, refined_prompt.lowerFirst.
  rewrite join_nil_concat. do 3 f_equal.
  inversion Ht as [|? ? _ Ho]; subst. clear Ht.
  induction Ho as [|w r Hw Hr IH]; [reflexivity|].
  cbn [map]. rewrite (capitalize_token w Hw), IH. reflexivity.
Qed.

Lemma bmp_camel_kept ws :
  Forall (first_kept U) (tl ws) -> bmp_camel U ws = spec_camel U ws.
Proof.
  destruct ws as [|w0 rest]; [reflexivity|]. cbn [tl]. intros H.
  unfold bmp_camel, spec_camel, render_camel. do 2 f_equal.
  induction H as [|w r Hw Hr IH]; [reflexivity|].
  cbn [map]. rewrite (render_token_kept w Hw), IH. reflexivity.
Qed.
End Renderer.



(** ** C6: diacritics *)

Section Marks.
Variable U : Unicode.
Hypothesis laws : UnicodeLaws U.

Lemma joined_no_marks sep ps :
  is_ascii sep -> Forall (fun p => wordy U p /\ p <> []) ps ->
  Forall (fun c => isM U c = false) (code_points (join [sep] ps)).
Proof.
  intros Hsep Hps. apply Forall_forall. intros c Hc.
  destruct (joined_code_points U sep ps c Hsep Hps Hc) as [->|Hd].
  - apply (ascii_class U laws sep Hsep).
  - apply (word_char_not_mark U c Hd).
Qed.

Lemma wordy_no_marks s : wordy U s -> Forall (fun c => isM U c = false) (code_points s).
Proof. apply Forall_impl. apply word_char_not_mark. Qed.

Lemma wordy_single c : isDelimiter U c = false -> wordy U (utf16 c).
Proof. intros Hc. unfold wordy. rewrite code_points_utf16. repeat constructor. exact Hc. Qed.

(** [capitalize] makes a string of letters and numbers of a token. *)
Lemma capitalize_wordy w :
  w <> [] -> Forall (word_char U) w ->
  wordy U (refined_prompt.capitalize U (from_code_points w)).
Proof.
  intros Hne Hw. destruct w as [|c w']; [congruence|].
  inversion Hw as [|? ? [Hc Hst] Hw']; subst.
  destruct (lower_word U laws w' Hw') as [Hlow _].
  unfold refined_prompt.capitalize. rewrite from_code_points_cons.
  destruct (utf16_cases c) as [[Ha ->]|[_ (h & l & Hu & Hh & Hl)]].
  - cbn [app charAt0 slice1 tl code_points existsb]. rewrite orb_false_r.
    destruct (delimiter_cases U c Hc) as [[HL ->]|[HL ->]].
    + apply (wordy_app U laws); [|exact Hlow].
      apply (upper_word U laws c HL); [|exact Ha].
      destruct Hst as [Hst|Hst]; [exact Hst | congruence].
    + apply (wordy_app U laws [c]); [|exact Hlow].
      rewrite <- (utf16_bmp c Ha). apply wordy_single, Hc.
  - rewrite Hu. cbn [app charAt0 slice1 tl code_points existsb].
    rewrite orb_false_r.
    destruct (surrogate_class U laws h Hh) as (_ & -> & _).
    rewrite (upper_surrogate U laws h Hh).
    assert (Hlow' : is_low_surrogate l = true).
    { destruct (is_astral c) eqn:Ha.
      - destruct (utf16_astral c Ha) as (a & b & Hu' & _ & Hb & _).
        rewrite Hu in Hu'. injection Hu' as -> ->. exact Hb.
      - rewrite (utf16_bmp c Ha) in Hu. discriminate. }
    rewrite (lower_low_surrogate U laws l _ Hlow').
    change ([h] ++ l :: toLowerCase U (from_code_points w'))
      with ([h; l] ++ toLowerCase U (from_code_points w')).
    rewrite <- Hu. apply (wordy_app U laws); [apply wordy_single, Hc | exact Hlow].
Qed.

Lemma toCamelCase_wordy s :
  exists out, refined_prompt.toCamelCase U (VString s) = Return out /\ wordy U out.
Proof.
  rewrite (toCamelCase_tokens U laws). eexists. split; [reflexivity|].
  pose proof (refined_token_word_chars U laws s) as Hch.
  pose proof (tokens_are_tokens (isDelimiter U)
                (refined_boundaries U (normalized U s))) as Ht.
  fold (refined_tokens U s) in Ht.
  destruct (refined_tokens U s) as [|w0 others]; [constructor|].
  cbn [map]. apply (wordy_app U laws).
  - apply (lower_word U laws), Hch. left. reflexivity.
  - rewrite join_nil_concat. apply (wordy_concat U laws).
    apply Forall_forall. intros p Hp. apply in_map_iff in Hp.
    destruct Hp as (p0 & <- & Hp0). apply in_map_iff in Hp0.
    destruct Hp0 as (w & <- & Hw).
    apply capitalize_wordy; [|apply Hch; right; exact Hw].
    rewrite Forall_forall in Ht. apply (Ht w). right. exact Hw.
Qed.

(** *** A precomposed letter *)

Variables (c b : Z) (marks : list Z).
Hypothesis letter_c : isL U c = true.
Hypothesis letter_b : isL U b = true.
Hypothesis marks_M : Forall (fun m => isM U m = true) marks.
Hypothesis decomposition_c :
  normalize_NFKD U (utf16 c) = from_code_points (b :: marks).

Lemma letter_not_delimiter x : isL U x = true -> isDelimiter U x = false.
Proof. unfold isDelimiter. intros ->. reflexivity. Qed.

Lemma trim_letter : trim (utf16 c) = utf16 c.
Proof.
  pose proof (letter_not_delimiter c letter_c) as Hd.
  pose proof (word_char_not_space U laws c Hd) as Hs.
  destruct (utf16_cases c) as [[_ ->]|[_ (h & l & -> & Hh & Hl)]].
  - apply (trim_fixed c [] c []); auto.
  - apply (trim_fixed h [l] l [h]); auto using isWhiteSpace_surrogate.
Qed.

Lemma normalized_letter : normalized U (utf16 c) = [b].
Proof.
  unfold normalized. rewrite trim_letter, decomposition_c. unfold replace_all_u.
  assert (Hns : Forall (fun x => is_surrogate x = false) (b :: marks)).
  { constructor.
    - apply (word_char_not_surrogate U laws), letter_not_delimiter, letter_b.
    - revert marks_M. apply Forall_impl. intros m Hm.
      destruct (is_surrogate m) eqn:E; [|reflexivity].
      destruct (surrogate_class U laws m E) as (_ & _ & HM & _). congruence. }
  rewrite (code_points_from_code_points (b :: marks))
    by (apply no_surrogate_no_split, Hns).
  unfold re_marks. rewrite delete_scan_filter. cbn [filter].
  assert (HbM : isM U b = false)
    by (apply word_char_not_mark, letter_not_delimiter, letter_b).
  rewrite HbM. cbn [negb].
  replace (filter (fun x => negb (isM U x)) marks) with (@nil Z).
  - simpl. rewrite app_nil_r. apply code_points_utf16.
  - symmetry. clear decomposition_c Hns. revert marks_M.
    generalize marks. induction 1 as [|m r Hm Hr IH]; [reflexivity|].
    simpl. rewrite Hm. exact IH.
Qed.

Lemma kebab_tokens_letter : kebab_tokens U (utf16 c) = [[b]].
Proof.
  unfold kebab_tokens. rewrite normalized_letter.
  assert (Hk : kebab_boundaries U [b] = [b]).
  { unfold kebab_boundaries. cbn [replace_scan chain_prompt.re_lower_upper pair_matcher].
    unfold chain_prompt.re_acronym, acronym_matcher. cbn [run_length].
    destruct (isLu U b); reflexivity. }
  rewrite Hk. simpl. rewrite (letter_not_delimiter b letter_b). reflexivity.
Qed.

Lemma refined_tokens_letter : refined_tokens U (utf16 c) = [[b]].
Proof.
  unfold refined_tokens. rewrite normalized_letter.
  simpl. rewrite (letter_not_delimiter b letter_b). reflexivity.
Qed.

Lemma precomposed_letter :
  chain_prompt.toKebabCase U (VString (utf16 c)) = Return (toLowerCase U (utf16 b))
  /\ refined_prompt.toCamelCase U (VString (utf16 c)) = Return (toLowerCase U (utf16 b))
  /\ refined_prompt.toDotCase U (VString (utf16 c)) = Return (toLowerCase U (utf16 b)).
Proof.
  rewrite (toKebabCase_output U laws), (toCamelCase_tokens U laws),
    (toDotCase_output U laws).
  rewrite kebab_tokens_letter, refined_tokens_letter.
  unfold refined_prompt.lowerFirst. simpl. rewrite !app_nil_r. auto.
Qed.
End Marks.

(** C6: every conversion of a string is free of combining marks; two strings
    with the same text after NFKD and the removal of marks (an accented
    spelling and the unaccented one) are converted alike; a precomposed
    letter whose NFKD form is a base letter followed by marks is converted
    to that base letter, lower-cased; toKebabCase("café au lait") is
    "cafe-au-lait". *)
Theorem diacritics_removed (U : Unicode) :
  UnicodeLaws U ->
  (forall s, exists out,
      chain_prompt.toKebabCase U (VString s) = Return out
      /\ Forall (fun c => isM U c = false) (code_points out))
  /\ (forall s, exists out,
         refined_prompt.toCamelCase U (VString s) = Return out
         /\ Forall (fun c => isM U c = false) (code_points out))
  /\ (forall s, exists out,
         refined_prompt.toDotCase U (VString s) = Return out
         /\ Forall (fun c => isM U c = false) (code_points out))
  /\ (forall s s',
         normalized U s = normalized U s' ->
         chain_prompt.toKebabCase U (VString s)
         = chain_prompt.toKebabCase U (VString s')
         /\ refined_prompt.toCamelCase U (VString s)
            = refined_prompt.toCamelCase U (VString s')
         /\ refined_prompt.toDotCase U (VString s)
            = refined_prompt.toDotCase U (VString s'))
  /\ (forall c b marks,
         isL U c = true -> isL U b = true ->
         Forall (fun m => isM U m = true) marks ->
         normalize_NFKD U (utf16 c) = from_code_points (b :: marks) ->
         chain_prompt.toKebabCase U (VString (utf16 c))
         = Return (toLowerCase U (utf16 b))
         /\ refined_prompt.toCamelCase U (VString (utf16 c))
            = Return (toLowerCase U (utf16 b))
         /\ refined_prompt.toDotCase U (VString (utf16 c))
            = Return (toLowerCase U (utf16 b)))
  /\ normalized sample (js "caf" ++ [0xE9] ++ js " au lait") = js "cafe au lait"
  /\ chain_prompt.toKebabCase sample
       (VString (js "caf" ++ [0xE9] ++ js " au lait"))
     = Return (js "cafe-au-lait").
Proof.
  intros laws. repeat apply conj.
  - intros s. rewrite (toKebabCase_output U laws). eexists. split; [reflexivity|].
    apply (joined_no_marks U laws); [blia | apply (lowered_kebab_tokens U laws)].
  - intros s. destruct (toCamelCase_wordy U laws s) as (out & E & Hout).
    exists out. split; [exact E | apply wordy_no_marks, Hout].
  - intros s. rewrite (toDotCase_output U laws). eexists. split; [reflexivity|].
    apply (joined_no_marks U laws); [blia | apply (lowered_refined_tokens U laws)].
  - intros s s' E. rewrite !(toKebabCase_tokens U laws), !(toCamelCase_tokens U laws),
      !(toDotCase_tokens U laws).
    unfold kebab_tokens, refined_tokens. rewrite E. auto.
  - intros c b marks Hc Hb Hm Hd. apply (precomposed_letter U laws c b marks Hc Hb Hm Hd).
  - vm_compute. reflexivity.
  - vm_compute. reflexivity.
Qed.

Lemma diacritics_removed_witness :
  (exists out,
      chain_prompt.toKebabCase sample
        (VString (js "na" ++ [0xEF] ++ js "ve caf" ++ [0xE9])) = Return out
      /\ Forall (fun c => isM sample c = false) (code_points out))
  /\ refined_prompt.toCamelCase sample (VString (js "caf" ++ [0xE9] ++ js " au lait"))
     = refined_prompt.toCamelCase sample (VString (js "cafe au lait"))
  /\ chain_prompt.toKebabCase sample (VString (utf16 0xC9))
     = Return (toLowerCase sample (utf16 0x45))
  /\ chain_prompt.toKebabCase sample
       (VString (js "caf" ++ [0xE9] ++ js " au lait"))
     = Return (js "cafe-au-lait").
Proof.
  destruct (diacritics_removed sample SampleLaws.sample_laws)
    as (H1 & _ & _ & H4 & H5 & _ & H7).
  refine (conj (H1 _) (conj _ (conj _ H7))).
  - exact (proj1 (proj2 (H4 (js "caf" ++ [0xE9] ++ js " au lait") (js "cafe au lait")
                           eq_refl))).
  - exact (proj1 (H5 0xC9 0x45 [0x301] eq_refl eq_refl
                    ltac:(repeat constructor) eq_refl)).
Defined.

(** ** C10: the alphabet of toKebabCase *)

(** C10, as stated, fails: the ideograph U+4E2D is converted to itself, and
    it is a letter without case, neither a lowercase letter nor a digit nor a
    hyphen; and on a string with unpaired surrogates the output can hold an
    uppercase letter: the mark between the two halves of U+1D400 is removed,
    which makes the uppercase letter U+1D400 of them. *)
Lemma toKebabCase_not_lowercase :
  (chain_prompt.toKebabCase sample (VString [0x4E2D]) = Return [0x4E2D]
   /\ code_points [0x4E2D] = [0x4E2D]
   /\ isLl sample 0x4E2D = false /\ isNd sample 0x4E2D = false
   /\ 0x4E2D <> HYPHEN)
  /\ (chain_prompt.toKebabCase sample (VString [0xD835; 0x301; 0xDC00])
      = Return [0xD835; 0xDC00]
      /\ code_points [0xD835; 0xDC00] = [0x1D400]
      /\ isLu sample 0x1D400 = true).
Proof. repeat apply conj; try (vm_compute; reflexivity). discriminate. Qed.

Lemma Forall_join (P : Z -> Prop) sep ts :
  P sep -> Forall (fun t => Forall P t) ts -> Forall P (join [sep] ts).
Proof.
  intros Hsep. induction 1 as [|t r Ht Hr IH]; [constructor|].
  destruct r as [|t' r']; [exact Ht|].
  rewrite join_cons. apply Forall_app. split; [exact Ht|].
  constructor; [exact Hsep | exact IH].
Qed.

Section SecondPass.
Variable U : Unicode.
Hypothesis laws : UnicodeLaws U.

Lemma lower_tokens_settled sep n s :
  well_formed s = true ->
  isDelimiter U sep = true -> inserted sep (normalized U s) n ->
  exists ts',
    lowered_tokens U (tokens (isDelimiter U) n) = map from_code_points ts'
    /\ Forall (settled_token U) ts'
    /\ Forall2 (Forall2 (lowered U)) (tokens (isDelimiter U) n) ts'.
Proof.
  intros Hs Hsep Hi.
  assert (Hplain : Forall (fun t => Forall (plain U) t) (tokens (isDelimiter U) n)).
  { apply Forall_forall. intros w Hw. apply (token_plain U laws sep n s w Hs Hsep Hi Hw). }
  destruct (lower_tokens U laws _ Hplain) as (ts' & H2 & E).
  exists ts'. split; [exact E|].
  pose proof (tokens_are_tokens (isDelimiter U) n) as Ht.
  clear E Hplain. induction H2 as [|t t' r r' (E1 & E2 & E3) Hr IH].
  - split; constructor.
  - inversion Ht as [|? ? [Hne Hd] Ht']; subst.
    destruct (IH Ht') as [IH1 IH2].
    destruct (lowered_preserves U t t' E2 Hd) as (P1 & P2 & P3 & _ & _ & P6).
    split; constructor; auto.
    repeat split; auto.
Qed.

Lemma settled_plain sep ts' :
  is_ascii sep -> Forall (settled_token U) ts' -> Forall (plain U) (join [sep] ts').
Proof.
  intros Hsep Hts. apply Forall_join; [apply (ascii_plain U laws), Hsep|].
  revert Hts. apply Forall_impl. intros t (_ & H & _). exact H.
Qed.

Lemma plain_decodable l : Forall (plain U) l -> code_points (from_code_points l) = l.
Proof.
  intros H. apply code_points_from_code_points, no_surrogate_no_split.
  revert H. apply Forall_impl. intros c (_ & _ & H). exact H.
Qed.

(** A trimmed text of plain characters is its own normalised text. *)
Lemma normalized_plain_text l :
  Forall (plain U) l -> trim (from_code_points l) = from_code_points l ->
  normalized U (from_code_points l) = l.
Proof.
  intros Hl Ht. unfold normalized. rewrite Ht, (nfkd_fixed U laws l Hl).
  unfold replace_all_u, re_marks. rewrite (plain_decodable l Hl).
  rewrite delete_scan_never.
  - apply plain_decodable, Hl.
  - revert Hl. apply Forall_impl. intros c (_ & H & _). exact H.
Qed.

Lemma delimiter_not_upper c : isDelimiter U c = true -> isLu U c = false.
Proof.
  unfold isDelimiter, isL, isN, isLu. destruct (general_category U c); simpl; congruence.
Qed.

Lemma settled_no_upper sep ts' :
  isDelimiter U sep = true -> Forall (settled_token U) ts' ->
  Forall (fun c => isLu U c = false) (join [sep] ts').
Proof.
  intros Hsep Hts. apply Forall_join; [apply delimiter_not_upper, Hsep|].
  revert Hts. apply Forall_impl. intros t (_ & _ & H & _). exact H.
Qed.

Lemma settled_tokens sep ts' :
  isDelimiter U sep = true -> Forall (settled_token U) ts' ->
  tokens (isDelimiter U) (join [sep] ts') = ts'.
Proof.
  intros Hsep Hts. apply tokens_join; [exact Hsep|].
  revert Hts. apply Forall_impl. intros t (H & _). exact H.
Qed.

Lemma settled_lowered ts' :
  Forall (settled_token U) ts' -> lowered_tokens U ts' = map from_code_points ts'.
Proof.
  induction 1 as [|t r (_ & _ & _ & E) Hr IH]; [reflexivity|].
  simpl. rewrite E. f_equal. exact IH.
Qed.

Lemma kebab_boundaries_no_upper l :
  Forall (fun c => isLu U c = false) l -> kebab_boundaries U l = l.
Proof.
  intros Hl. unfold kebab_boundaries, chain_prompt.re_lower_upper, chain_prompt.re_acronym.
  rewrite pair_scan_never by (apply no_adjacent_no_second, Hl).
  apply acronym_scan_no_upper, Hl.
Qed.

(** The output of toKebabCase on a well-formed string, described. *)
Lemma toKebabCase_settled s :
  well_formed s = true ->
  exists ts',
    chain_prompt.toKebabCase U (VString s)
    = Return (from_code_points (join [HYPHEN] ts'))
    /\ Forall (settled_token U) ts'.
Proof.
  intros Hs.
  destruct (lower_tokens_settled HYPHEN (kebab_boundaries U (normalized U s)) s Hs
              (delimiter_hyphen U laws) (kebab_boundaries_inserted U _))
    as (ts' & E & Hts & _).
  exists ts'. split; [|exact Hts].
  rewrite (toKebabCase_output U laws). unfold kebab_tokens. rewrite E.
  rewrite from_code_points_join by reflexivity. reflexivity.
Qed.

Lemma toKebabCase_fixed ts' :
  Forall (settled_token U) ts' ->
  chain_prompt.toKebabCase U (VString (from_code_points (join [HYPHEN] ts')))
  = Return (from_code_points (join [HYPHEN] ts')).
Proof.
  intros Hts. rewrite (toKebabCase_output U laws). unfold kebab_tokens.
  pose proof (settled_plain HYPHEN ts' ltac:(blia) Hts) as Hplain.
  rewrite normalized_plain_text; [| exact Hplain |].
  - rewrite kebab_boundaries_no_upper
      by (apply settled_no_upper; [apply (delimiter_hyphen U laws) | exact Hts]).
    rewrite settled_tokens by (try apply (delimiter_hyphen U laws); exact Hts).
    rewrite settled_lowered by exact Hts.
    rewrite from_code_points_join by reflexivity. reflexivity.
  - rewrite from_code_points_join by reflexivity.
    apply (trim_pieces U laws). apply Forall_forall. intros p Hp.
    apply in_map_iff in Hp. destruct Hp as (t & <- & Ht).
    rewrite Forall_forall in Hts. destruct (Hts t Ht) as ([Hne Hd] & _).
    split; [|apply from_code_points_not_nil, Hne].
    unfold wordy. rewrite (token_decodable U laws t Hd). exact Hd.
Qed.

(** *** toDotCase *)

Lemma uniform_no_adjacent t :
  Forall (fun c => isL U c = true) t \/ Forall (fun c => isN U c = true) t ->
  no_adjacent (letter_number U) t = true /\ no_adjacent (number_letter U) t = true.
Proof.
  intros [H|H].
  - split.
    + apply no_adjacent_no_second. revert H. apply Forall_impl.
      apply (letter_not_number U).
    + induction H as [|a r Ha Hr IH]; [reflexivity|].
      cbn [no_adjacent]. rewrite IH, andb_true_r.
      destruct r; [reflexivity|]. simpl. unfold number_letter.
      rewrite (letter_not_number U a Ha). reflexivity.
  - split.
    + induction H as [|a r Ha Hr IH]; [reflexivity|].
      cbn [no_adjacent]. rewrite IH, andb_true_r.
      destruct r; [reflexivity|]. simpl. unfold letter_number.
      rewrite (number_not_letter U a Ha). reflexivity.
    + apply no_adjacent_no_second. revert H. apply Forall_impl.
      apply (number_not_letter U).
Qed.

Lemma no_adjacent_join R sep ts :
  (forall a, R a sep = false /\ R sep a = false) ->
  Forall (fun t => no_adjacent R t = true) ts ->
  no_adjacent R (join [sep] ts) = true.
Proof.
  intros Hsep. induction 1 as [|t r Ht Hr IH]; [reflexivity|].
  destruct r as [|t' r']; [exact Ht|].
  rewrite join_cons. revert IH. generalize (join [sep] (t' :: r')). intros j Hj.
  clear Hr. induction t as [|a t IHt].
  - simpl. rewrite Hj, andb_true_r. destruct j; [reflexivity|].
    simpl. rewrite (proj2 (Hsep z)). reflexivity.
  - cbn [no_adjacent] in Ht. apply andb_true_iff in Ht. destruct Ht as [Ha Ht].
    simpl app. cbn [no_adjacent]. rewrite (IHt Ht), andb_true_r.
    destruct t as [|b t0]; [|exact Ha].
    simpl. rewrite (proj1 (Hsep a)). reflexivity.
Qed.

Lemma refined_boundaries_fixed l :
  Forall (fun c => isLu U c = false) l ->
  no_adjacent (letter_number U) l = true ->
  no_adjacent (number_letter U) l = true ->
  refined_boundaries U l = l.
Proof.
  intros Hl H1 H2. unfold refined_boundaries, refined_prompt.re_lower_upper,
    refined_prompt.re_letter_number, refined_prompt.re_number_letter.
  rewrite (pair_scan_never _ (isLu U)) by (apply no_adjacent_no_second, Hl).
  rewrite (pair_scan_never (isL U) (isN U)) by exact H1.
  apply pair_scan_never. exact H2.
Qed.

Lemma toDotCase_settled s :
  well_formed s = true ->
  exists ts',
    refined_prompt.toDotCase U (VString s)
    = Return (from_code_points (join [DOT] ts'))
    /\ Forall (settled_token U) ts' /\ Forall (uniform U) ts'.
Proof.
  intros Hs.
  destruct (lower_tokens_settled SPACE (refined_boundaries U (normalized U s)) s Hs
              (delimiter_space U laws) (refined_boundaries_inserted U _))
    as (ts' & E & Hts & H2).
  exists ts'. split; [|split; [exact Hts|]].
  - rewrite (toDotCase_output U laws). unfold refined_tokens. rewrite E.
    rewrite from_code_points_join by reflexivity. reflexivity.
  - assert (Hu : Forall (uniform U) (tokens (isDelimiter U)
                                   (refined_boundaries U (normalized U s)))).
    { apply Forall_forall. intros t Ht. apply (boundary_tokens_uniform U laws _ t Ht). }
    pose proof (tokens_are_tokens (isDelimiter U)
                  (refined_boundaries U (normalized U s))) as Htok.
    clear E Hts. induction H2 as [|t t' r r' Htt Hr IH]; [constructor|].
    inversion Hu as [|? ? Hut Hur]; subst. inversion Htok as [|? ? [_ Hd] Htr]; subst.
    constructor; [|apply IH; assumption].
    destruct (lowered_preserves U t t' Htt Hd) as (_ & _ & _ & P4 & P5 & _).
    destruct Hut as [Hut|Hut]; [left; apply P4, Hut | right; apply P5, Hut].
Qed.

Lemma dot_class :
  forall a, letter_number U a DOT = false /\ letter_number U DOT a = false
            /\ number_letter U a DOT = false /\ number_letter U DOT a = false.
Proof.
  intros a. unfold letter_number, number_letter.
  destruct (ascii_class U laws DOT ltac:(blia)) as (HL & _ & _ & HN & _).
  rewrite HL, HN. simpl. rewrite !andb_false_r. auto.
Qed.

Lemma toDotCase_fixed ts' :
  Forall (settled_token U) ts' -> Forall (uniform U) ts' ->
  refined_prompt.toDotCase U (VString (from_code_points (join [DOT] ts')))
  = Return (from_code_points (join [DOT] ts')).
Proof.
  intros Hts Hu. rewrite (toDotCase_output U laws). unfold refined_tokens.
  pose proof (settled_plain DOT ts' ltac:(blia) Hts) as Hplain.
  rewrite normalized_plain_text; [| exact Hplain |].
  - rewrite refined_boundaries_fixed.
    + rewrite settled_tokens by (try apply (delimiter_dot U laws); exact Hts).
      rewrite settled_lowered by exact Hts.
      rewrite from_code_points_join by reflexivity. reflexivity.
    + apply settled_no_upper; [apply (delimiter_dot U laws) | exact Hts].
    + apply no_adjacent_join; [intros a; split; apply (dot_class a)|].
      revert Hu. apply Forall_impl. intros t Ht. apply (uniform_no_adjacent t Ht).
    + apply no_adjacent_join; [intros a; split; apply (dot_class a)|].
      revert Hu. apply Forall_impl. intros t Ht. apply (uniform_no_adjacent t Ht).
  - rewrite from_code_points_join by reflexivity.
    apply (trim_pieces U laws). apply Forall_forall. intros p Hp.
    apply in_map_iff in Hp. destruct Hp as (t & <- & Ht).
    rewrite Forall_forall in Hts. destruct (Hts t Ht) as ([Hne Hd] & _).
    split; [|apply from_code_points_not_nil, Hne].
    unfold wordy. rewrite (token_decodable U laws t Hd). exact Hd.
Qed.
End SecondPass.

(** C10, amended: for every string input the code points of the output of
    toKebabCase are letters, numbers and hyphens (letters of any kind, such as
    letters without case, and numbers of any kind); the output neither begins
    nor ends with a hyphen and has no two hyphens in a row.  When the input
    has no unpaired surrogate, no letter of the output is uppercase and
    lower-casing leaves the output unchanged. *)
Theorem kebab_output_alphabet (U : Unicode) (s : jsstring) :
  UnicodeLaws U ->
  exists out,
    chain_prompt.toKebabCase U (VString s) = Return out
    /\ Forall (fun c => c = HYPHEN \/ isL U c = true \/ isN U c = true)
         (code_points out)
    /\ (forall t, out <> HYPHEN :: t)
    /\ (forall t, out <> t ++ [HYPHEN])
    /\ (forall a b, out <> a ++ HYPHEN :: HYPHEN :: b)
    /\ (well_formed s = true ->
        Forall (fun c => isLu U c = false) (code_points out)
        /\ toLowerCase U out = out).
Proof.
  intros laws. eexists. split; [apply (toKebabCase_output U laws)|].
  pose proof (lowered_kebab_tokens U laws s) as Hps.
  split; [|split; [|split; [|split]]].
  - apply Forall_forall. intros c Hc.
    destruct (joined_code_points U HYPHEN _ c ltac:(blia) Hps Hc) as [->|Hd];
      [left; reflexivity|].
    right. destruct (delimiter_cases U c Hd) as [[H _]|[_ H]]; tauto.
  - apply (joined_shape HYPHEN), (pieces_sep_free U HYPHEN);
      [blia | apply (delimiter_hyphen U laws) | exact Hps].
  - apply (joined_shape HYPHEN), (pieces_sep_free U HYPHEN);
      [blia | apply (delimiter_hyphen U laws) | exact Hps].
  - apply (joined_shape HYPHEN), (pieces_sep_free U HYPHEN);
      [blia | apply (delimiter_hyphen U laws) | exact Hps].
  - intros Hs. destruct (toKebabCase_settled U laws s Hs) as (ts' & E & Hts).
    rewrite (toKebabCase_output U laws) in E. injection E as E. rewrite E.
    pose proof (settled_plain U laws HYPHEN ts' ltac:(blia) Hts) as Hplain.
    split.
    + rewrite (plain_decodable U _ Hplain).
      apply settled_no_upper; [apply (delimiter_hyphen U laws) | exact Hts].
    + pose proof (toKebabCase_fixed U laws ts' Hts) as Hfix.
      rewrite (toKebabCase_tokens U laws) in Hfix. injection Hfix as Hfix.
      unfold kebab_tokens in Hfix.
      rewrite (normalized_plain_text U laws) in Hfix.
      * rewrite (kebab_boundaries_no_upper U) in Hfix
          by (apply settled_no_upper; [apply (delimiter_hyphen U laws) | exact Hts]).
        rewrite (settled_tokens U) in Hfix
          by (try apply (delimiter_hyphen U laws); exact Hts).
        exact Hfix.
      * exact Hplain.
      * rewrite <- E. apply (trim_pieces U laws), Hps.
Qed.

Lemma kebab_output_alphabet_witness :
  exists out,
    chain_prompt.toKebabCase sample (VString (js "  Hello__World 42 ")) = Return out
    /\ Forall (fun c => c = HYPHEN \/ isL sample c = true \/ isN sample c = true)
         (code_points out)
    /\ (forall t, out <> HYPHEN :: t)
    /\ (forall t, out <> t ++ [HYPHEN])
    /\ (forall a b, out <> a ++ HYPHEN :: HYPHEN :: b)
    /\ (well_formed (js "  Hello__World 42 ") = true ->
        Forall (fun c => isLu sample c = false) (code_points out)
        /\ toLowerCase sample out = out).
Proof.
  exact (kebab_output_alphabet sample (js "  Hello__World 42 ") SampleLaws.sample_laws).
Defined.

(** ** C8: idempotence *)

(** C8, as stated, fails on a string with unpaired surrogates: between the
    two halves of U+1D400 stands a combining mark; its removal makes the
    letter U+1D400 of them, which the second conversion decomposes to "A" and
    lower-cases. *)
Lemma toKebabCase_not_idempotent :
  chain_prompt.toKebabCase sample (VString [0xD835; 0x301; 0xDC00])
  = Return [0xD835; 0xDC00]
  /\ chain_prompt.toKebabCase sample (VString [0xD835; 0xDC00]) = Return (js "a")
  /\ [0xD835; 0xDC00] <> js "a".
Proof. repeat apply conj; try (vm_compute; reflexivity). discriminate. Qed.

(** C8, amended: on every string without unpaired surrogates toKebabCase and
    toDotCase are idempotent: converting the output again gives the output
    back. *)
Theorem kebab_dot_idempotent (U : Unicode) (s : jsstring) :
  UnicodeLaws U -> well_formed s = true ->
  (exists out, chain_prompt.toKebabCase U (VString s) = Return out
               /\ chain_prompt.toKebabCase U (VString out) = Return out)
  /\ (exists out, refined_prompt.toDotCase U (VString s) = Return out
                  /\ refined_prompt.toDotCase U (VString out) = Return out).
Proof.
  intros laws Hs. split.
  - destruct (toKebabCase_settled U laws s Hs) as (ts' & E & Hts).
    eexists. split; [exact E|]. apply (toKebabCase_fixed U laws ts' Hts).
  - destruct (toDotCase_settled U laws s Hs) as (ts' & E & Hts & Hu).
    eexists. split; [exact E|]. apply (toDotCase_fixed U laws ts' Hts Hu).
Qed.

Lemma kebab_dot_idempotent_witness :
  well_formed (js "XMLHttpRequest v2beta") = true
  /\ (exists out,
         chain_prompt.toKebabCase sample (VString (js "XMLHttpRequest v2beta")) = Return out
         /\ chain_prompt.toKebabCase sample (VString out) = Return out)
  /\ (exists out,
         refined_prompt.toDotCase sample (VString (js "XMLHttpRequest v2beta")) = Return out
         /\ refined_prompt.toDotCase sample (VString out) = Return out).
Proof.
  split; [reflexivity|].
  exact (kebab_dot_idempotent sample (js "XMLHttpRequest v2beta")
           SampleLaws.sample_laws eq_refl).
Defined.

(** ** C4: the words of the kebab and dot styles *)

(** C4, as stated, fails: "version2alpha" is one word for toKebabCase and
    three for toDotCase, and "XMLHttp" is two words for toKebabCase and one
    for toDotCase. *)
Lemma kebab_dot_words_differ :
  (split_char HYPHEN (returned (chain_prompt.toKebabCase sample (VString (js "version2alpha"))))
   = [js "version2alpha"]
   /\ split_char DOT (returned (refined_prompt.toDotCase sample (VString (js "version2alpha"))))
      = [js "version"; js "2"; js "alpha"])
  /\ (split_char HYPHEN (returned (chain_prompt.toKebabCase sample (VString (js "XMLHttp"))))
      = [js "xml"; js "http"]
      /\ split_char DOT (returned (refined_prompt.toDotCase sample (VString (js "XMLHttp"))))
         = [js "xmlhttp"]).
Proof. repeat apply conj; vm_compute; reflexivity. Qed.

Section Triples.
Variable P : Z -> Z -> Z -> bool.

Lemma inserted_no_triple sep s s' :
  (forall a b, P a b sep = false /\ P a sep b = false /\ P sep a b = false) ->
  inserted sep s s' ->
  (forall a b, ok_after2 P a b s = true -> ok_after2 P a b s' = true)
  /\ (forall a, ok_after1 P a s = true -> ok_after1 P a s' = true)
  /\ (no_triple P s = true -> no_triple P s' = true).
Proof.
  intros Hsep. induction 1 as [|c s s' H (IH1 & IH2 & IH3)|s s' H (IH1 & IH2 & IH3)].
  - tauto.
  - repeat split.
    + tauto.
    + intros a. simpl. apply IH1.
    + simpl. rewrite !andb_true_iff. intros [Hc Hs]. auto.
  - repeat split.
    + intros a b _. simpl. rewrite (proj1 (Hsep a b)). reflexivity.
    + intros a _. simpl. destruct s' as [|c r]; [reflexivity|]. simpl.
      destruct (Hsep a c) as (_ & -> & _). reflexivity.
    + intros Hs. simpl. rewrite (IH3 Hs), andb_true_r.
      destruct s' as [|b [|c r]]; try reflexivity. simpl.
      destruct (Hsep b c) as (_ & _ & ->). reflexivity.
Qed.

Lemma no_triple_app_r pre s : no_triple P (pre ++ s) = true -> no_triple P s = true.
Proof.
  induction pre as [|a pre IH]; [tauto|]. simpl.
  rewrite andb_true_iff. intros [_ H]. apply IH, H.
Qed.

Lemma no_triple_skipn k s : no_triple P s = true -> no_triple P (skipn k s) = true.
Proof.
  intros H. apply (no_triple_app_r (firstn k s)). rewrite firstn_skipn. exact H.
Qed.
End Triples.

Lemma run_length_nth up s j :
  (j < run_length up s)%nat ->
  exists pre z post, s = pre ++ z :: post /\ List.length pre = j /\ up z = true.
Proof.
  revert j. induction s as [|c t IH]; intros j; [simpl; lia|].
  simpl. destruct (up c) eqn:Hc; [|lia]. destruct j as [|j].
  - intros _. exists [], c, t. auto.
  - intros Hj. destruct (IH j ltac:(lia)) as (pre & z & post & -> & Hl & Hz).
    exists (c :: pre), z, post. simpl. auto.
Qed.

Lemma acronym_matcher_none up lo s :
  no_triple (fun a b c => up a && up b && lo c) s = true ->
  acronym_matcher up lo s = None.
Proof.
  intros Hs. unfold acronym_matcher.
  destruct (acronym_backtrack up lo (run_length up s) s) as [j|] eqn:E; [|reflexivity].
  exfalso.
  destruct (acronym_backtrack_some _ _ _ _ _ E) as [Hj (a & b & t & Hskip & Ha & Hb)].
  destruct j as [|j]; [lia|].
  destruct (run_length_nth up s j ltac:(lia)) as (pre & z & post & -> & Hl & Hz).
  assert (Hpost : post = a :: b :: t).
  { rewrite <- Hskip, <- Hl.
    change (z :: post) with ([z] ++ post). rewrite app_assoc.
    replace (S (List.length pre)) with (List.length (pre ++ [z]))
      by (rewrite length_app; simpl; lia).
    rewrite skipn_app_length. reflexivity. }
  subst post. apply no_triple_app_r in Hs. simpl in Hs.
  rewrite Hz, Ha, Hb in Hs. discriminate.
Qed.

Lemma acronym_scan_never up lo s :
  no_triple (fun a b c => up a && up b && lo c) s = true ->
  replace_scan (acronym_matcher up lo) O s = s.
Proof.
  intros Hs. apply replace_scan_never. intros k.
  apply acronym_matcher_none, no_triple_skipn, Hs.
Qed.

Lemma no_adjacent_impl (R R' : Z -> Z -> bool) s :
  (forall a b, R' a b = true -> R a b = true) ->
  no_adjacent R s = true -> no_adjacent R' s = true.
Proof.
  intros H. induction s as [|a t IH]; [reflexivity|].
  cbn [no_adjacent]. rewrite !andb_true_iff. intros [Ha Ht]. split; [|auto].
  destruct t as [|b r]; [reflexivity|]. simpl in *.
  destruct (R' a b) eqn:E; [|reflexivity]. rewrite (H a b E) in Ha. discriminate.
Qed.

Lemma insert_sep_ext p1 p2 q sep s :
  no_adjacent (fun a b => xorb (p1 a) (p2 a) && q b) s = true ->
  insert_sep p1 q sep s = insert_sep p2 q sep s.
Proof.
  induction s as [|a t IH]; [reflexivity|].
  cbn [no_adjacent]. rewrite andb_true_iff. intros [Ha Ht].
  destruct t as [|b r]; [reflexivity|].
  rewrite !insert_sep_cons, (IH Ht). simpl in Ha.
  replace (p2 a && q b) with (p1 a && q b); [reflexivity|].
  destruct (p1 a), (p2 a), (q b); simpl in *; congruence.
Qed.

Lemma insert_sep_head p q sep b r :
  exists x, insert_sep p q sep (b :: r) = b :: x.
Proof.
  destruct r as [|c r']; [exists []; reflexivity|].
  rewrite insert_sep_cons. destruct (p b && q c); eexists; reflexivity.
Qed.

Lemma tokens_insert_sep d p q sep sep' s :
  d sep = true -> d sep' = true ->
  tokens d (insert_sep p q sep s) = tokens d (insert_sep p q sep' s).
Proof.
  intros Hsep Hsep'. induction s as [|a t IH]; [reflexivity|].
  destruct t as [|b r]; [reflexivity|].
  rewrite !insert_sep_cons.
  destruct (insert_sep_head p q sep b r) as (x & Ex).
  destruct (insert_sep_head p q sep' b r) as (x' & Ex').
  destruct (p a && q b).
  - cbn [tokens continues]. rewrite Hsep, Hsep', IH. reflexivity.
  - cbn [tokens]. rewrite IH. rewrite Ex, Ex'. reflexivity.
Qed.

Section StyleEquivalence.
Variable U : Unicode.
Hypothesis laws : UnicodeLaws U.

Lemma upper_not_lower_or_number c :
  isLu U c = true -> (isLl U c || isNd U c = false) /\ (isLl U c || isN U c = false).
Proof.
  unfold isLu, isLl, isNd, isN. destruct (general_category U c); simpl; try discriminate; auto.
Qed.

Lemma hyphen_class :
  isLu U HYPHEN = false /\ isLl U HYPHEN = false
  /\ isL U HYPHEN = false /\ isN U HYPHEN = false.
Proof.
  destruct (ascii_class U laws HYPHEN ltac:(blia)) as (HL & HLu & HLl & HN & _).
  rewrite HL, HLu, HLl, HN. auto.
Qed.

Variable n : list Z.
Hypothesis no_letter_number : no_adjacent (letter_number U) n = true.
Hypothesis no_number_letter : no_adjacent (number_letter U) n = true.
Hypothesis no_acronym_n : no_acronym U n = true.

Lemma kebab_boundaries_simple :
  kebab_boundaries U n
  = insert_sep (fun c => isLl U c || isN U c) (isLu U) HYPHEN n.
Proof.
  unfold kebab_boundaries, chain_prompt.re_lower_upper, chain_prompt.re_acronym.
  rewrite pair_scan_insert by (intros c Hc; apply (upper_not_lower_or_number c Hc)).
  rewrite acronym_scan_never.
  - apply insert_sep_ext. revert no_number_letter. apply no_adjacent_impl.
    intros a b. unfold number_letter, isLl, isNd, isN, isLu, isL.
    destruct (general_category U a), (general_category U b); simpl; congruence.
  - destruct hyphen_class as (H1 & H2 & _).
    apply (inserted_no_triple (acronym_pattern U) HYPHEN n).
    + intros a b. unfold acronym_pattern. rewrite H1, H2, !andb_false_r. auto.
    + apply insert_sep_inserted.
    + exact no_acronym_n.
Qed.

Lemma refined_boundaries_simple :
  refined_boundaries U n
  = insert_sep (fun c => isLl U c || isN U c) (isLu U) SPACE n.
Proof.
  destruct (space_class U laws) as [HL HN].
  unfold refined_boundaries, refined_prompt.re_lower_upper,
    refined_prompt.re_letter_number, refined_prompt.re_number_letter.
  rewrite (pair_scan_insert _ (isLu U))
    by (intros c Hc; apply (upper_not_lower_or_number c Hc)).
  set (x := insert_sep _ _ SPACE n).
  assert (Hx : inserted SPACE n x) by apply insert_sep_inserted.
  rewrite (pair_scan_never (isL U) (isN U)).
  - apply pair_scan_never.
    apply (inserted_no_adjacent (number_letter U) SPACE n x); [|exact Hx|exact no_number_letter].
    intros a. unfold number_letter. rewrite HL, HN, andb_false_r. auto.
  - apply (inserted_no_adjacent (letter_number U) SPACE n x); [|exact Hx|exact no_letter_number].
    intros a. unfold letter_number. rewrite HL, HN, andb_false_r. auto.
Qed.

End StyleEquivalence.

Lemma insert_sep_rest (R : Z -> Z -> bool) p q sep s :
  (forall a, R a sep = false /\ R sep a = false) ->
  no_adjacent (fun a b => R a b && negb (p a && q b)) s = true ->
  no_adjacent R (insert_sep p q sep s) = true.
Proof.
  intros Hsep. induction s as [|a t IH]; [reflexivity|].
  destruct t as [|b r]; [reflexivity|].
  change (no_adjacent (fun a b => R a b && negb (p a && q b)) (a :: b :: r))
    with (negb (R a b && negb (p a && q b))
          && no_adjacent (fun a b => R a b && negb (p a && q b)) (b :: r)).
  rewrite andb_true_iff. intros [Ha Ht]. specialize (IH Ht).
  rewrite insert_sep_cons.
  destruct (insert_sep_head p q sep b r) as (x & Ex). rewrite Ex in *.
  destruct (p a && q b) eqn:E.
  - cbn [no_adjacent ok_after]. destruct (Hsep a) as [-> _].
    destruct (Hsep b) as [_ ->]. exact IH.
  - cbn [no_adjacent ok_after]. cbn [negb] in Ha. rewrite andb_true_r in Ha.
    rewrite Ha. exact IH.
Qed.

Section SameBoundaries.
Variable U : Unicode.
Hypothesis laws : UnicodeLaws U.
Variable n : list Z.
Hypothesis no_letter_number : no_adjacent (letter_number U) n = true.
Hypothesis no_number_before_letter : no_adjacent (number_before_letter U) n = true.
Hypothesis no_acronym_n : no_acronym U n = true.

Lemma kebab_boundaries_marks :
  kebab_boundaries U n
  = insert_sep (fun c => isLl U c || isNd U c) (isLu U) HYPHEN n.
Proof.
  unfold kebab_boundaries, chain_prompt.re_lower_upper, chain_prompt.re_acronym.
  rewrite pair_scan_insert by (intros c Hc; apply (upper_not_lower_or_number U c Hc)).
  apply acronym_scan_never.
  destruct (hyphen_class U laws) as (H1 & H2 & _).
  apply (inserted_no_triple (acronym_pattern U) HYPHEN n).
  - intros a b. unfold acronym_pattern. rewrite H1, H2, !andb_false_r. auto.
  - apply insert_sep_inserted.
  - exact no_acronym_n.
Qed.

Lemma refined_boundaries_marks :
  refined_boundaries U n
  = insert_sep (fun c => isLl U c || isN U c) (isLu U) SPACE n.
Proof.
  destruct (space_class U laws) as [HL HN].
  unfold refined_boundaries, refined_prompt.re_lower_upper,
    refined_prompt.re_letter_number, refined_prompt.re_number_letter.
  rewrite (pair_scan_insert _ (isLu U))
    by (intros c Hc; apply (upper_not_lower_or_number U c Hc)).
  set (x := insert_sep _ _ SPACE n).
  assert (Hx : inserted SPACE n x) by apply insert_sep_inserted.
  rewrite (pair_scan_never (isL U) (isN U)).
  - apply pair_scan_never.
    apply (insert_sep_rest (number_letter U)).
    + intros a. unfold number_letter. rewrite HL, HN, andb_false_r. auto.
    + revert no_number_before_letter. apply no_adjacent_impl.
      intros a b. unfold number_letter, number_before_letter, isLl, isNd, isN, isLu, isL.
      destruct (general_category U a), (general_category U b); simpl; congruence.
  - apply (inserted_no_adjacent (letter_number U) SPACE n x); [|exact Hx|exact no_letter_number].
    intros a. unfold letter_number. rewrite HL, HN, andb_false_r. auto.
Qed.

Lemma same_tokens :
  tokens (isDelimiter U) (kebab_boundaries U n)
  = tokens (isDelimiter U) (refined_boundaries U n).
Proof.
  rewrite kebab_boundaries_marks, refined_boundaries_marks.
  rewrite (insert_sep_ext (fun c => isLl U c || isNd U c)
             (fun c => isLl U c || isN U c) (isLu U) HYPHEN n).
  - apply tokens_insert_sep; [apply (delimiter_hyphen U laws) | apply (delimiter_space U laws)].
  - revert no_number_before_letter. apply no_adjacent_impl.
    intros a b. unfold number_before_letter, isLl, isNd, isN, isLu, isL.
    destruct (general_category U a), (general_category U b); simpl; congruence.
Qed.
End SameBoundaries.

Lemma split_joined (U : Unicode) sep ps :
  UnicodeLaws U -> is_ascii sep -> isDelimiter U sep = true ->
  Forall (fun p => wordy U p /\ p <> []) ps ->
  split_char sep (join [sep] ps) = match ps with [] => [[]] | _ => ps end.
Proof.
  intros laws Ha Hsep Hps. destruct ps as [|p r]; [reflexivity|].
  apply split_char_join; [discriminate|].
  pose proof (pieces_sep_free U sep _ Ha Hsep Hps) as H.
  revert H. apply Forall_impl. tauto.
Qed.

(** C4, amended: for every string whose normalised text has no letter
    immediately followed by a number, no number immediately followed by a
    letter other than a decimal digit followed by an uppercase letter, and
    no two uppercase letters followed by a lowercase letter, splitting
    toKebabCase(s) on '-' and toDotCase(s) on '.' gives the same sequence of
    words. *)
Theorem style_equivalence (U : Unicode) (s : jsstring) :
  UnicodeLaws U ->
  no_adjacent (letter_number U) (normalized U s) = true ->
  no_adjacent (number_before_letter U) (normalized U s) = true ->
  no_acronym U (normalized U s) = true ->
  exists k d,
    chain_prompt.toKebabCase U (VString s) = Return k
    /\ refined_prompt.toDotCase U (VString s) = Return d
    /\ split_char HYPHEN k = split_char DOT d.
Proof.
  intros laws H1 H2 H3. eexists _, _.
  split; [apply (toKebabCase_output U laws)|].
  split; [apply (toDotCase_output U laws)|].
  unfold kebab_tokens, refined_tokens.
  rewrite (same_tokens U laws _ H1 H2 H3).
  pose proof (lowered_refined_tokens U laws s) as Hps. unfold refined_tokens in Hps.
  rewrite (split_joined U HYPHEN _ laws ltac:(blia) (delimiter_hyphen U laws) Hps).
  rewrite (split_joined U DOT _ laws ltac:(blia) (delimiter_dot U laws) Hps).
  reflexivity.
Qed.

Lemma style_equivalence_witness :
  no_adjacent (letter_number sample) (normalized sample (js "PascalCase 42Answer_text")) = true
  /\ no_adjacent (number_before_letter sample)
       (normalized sample (js "PascalCase 42Answer_text")) = true
  /\ no_acronym sample (normalized sample (js "PascalCase 42Answer_text")) = true
  /\ exists k d,
       chain_prompt.toKebabCase sample (VString (js "PascalCase 42Answer_text")) = Return k
       /\ refined_prompt.toDotCase sample (VString (js "PascalCase 42Answer_text")) = Return d
       /\ split_char HYPHEN k = split_char DOT d.
Proof.
  repeat apply conj; try (vm_compute; reflexivity).
  exact (style_equivalence sample (js "PascalCase 42Answer_text")
           SampleLaws.sample_laws eq_refl eq_refl eq_refl).
Defined.

(** The three conditions of C4 are needed, too: on the sample engine, among
    all strings of up to six of the characters "a", "A", "1" and "-", the
    two word sequences are the same exactly for the strings that satisfy
    them. *)
Lemma same_boundaries_exact_small :
  forallb
    (fun s =>
       Bool.eqb
         (same_boundaries sample (normalized sample s))
         (same_texts
            (split_char HYPHEN (returned (chain_prompt.toKebabCase sample (VString s))))
            (split_char DOT (returned (refined_prompt.toDotCase sample (VString s))))))
    (texts [0x61; 0x41; 0x31; 0x2D] 6)
  = true.
Proof. vm_compute. reflexivity. Qed.

(** ** C9: the two toCamelCase *)

(** C9, as stated, fails: on "AB" the simple implementation keeps the inner
    casing of a single word and gives "aB", the Unicode-aware one gives
    "ab". *)
Lemma toCamelCase_implementations_differ :
  few_shot_prompt.toCamelCase sample (VString (js "AB")) = Return (js "aB")
  /\ refined_prompt.toCamelCase sample (VString (js "AB")) = Return (js "ab")
  /\ js "aB" <> js "ab".
Proof. repeat apply conj; try (vm_compute; reflexivity). discriminate. Qed.

Lemma map_id_Forall (f : Z -> Z) (P : Z -> Prop) l :
  (forall c, P c -> f c = c) -> Forall P l -> map f l = l.
Proof.
  intros H. induction 1 as [|c l Hc Hl IH]; [reflexivity|].
  simpl. rewrite (H c Hc), IH. reflexivity.
Qed.

(** *** Adjacent pairs *)

Lemma no_adjacent_app R x y :
  no_adjacent R (x ++ y) = true -> no_adjacent R x = true /\ no_adjacent R y = true.
Proof.
  induction x as [|a x IH]; [intros H; split; [reflexivity | exact H]|].
  cbn [app no_adjacent]. rewrite !andb_true_iff. intros [Ha Hx].
  destruct (IH Hx) as [H1 H2]. repeat split; try assumption.
  destruct x as [|b x']; [reflexivity | exact Ha].
Qed.

Lemma no_adjacent_trim R s : no_adjacent R s = true -> no_adjacent R (trim s) = true.
Proof.
  intros H. unfold trim.
  destruct (trimStart_split s) as (a & Ea & _).
  destruct (trimEnd_split (trimStart s)) as (b & Eb & _).
  rewrite Ea in H. apply no_adjacent_app in H. destruct H as [_ H].
  rewrite Eb in H. apply no_adjacent_app in H. apply H.
Qed.

(** *** Words and trimming *)

Section TrimTokens.
Variable p : Z -> bool.
Hypothesis spaces : forall c, isWhiteSpace c = true -> p c = true.

Lemma tokens_leading a s :
  Forall (fun c => isWhiteSpace c = true) a -> tokens p (a ++ s) = tokens p s.
Proof.
  induction 1 as [|c a Hc Ha IH]; [reflexivity|].
  simpl app. rewrite tokens_cons_sep by (apply spaces, Hc). exact IH.
Qed.

Lemma continues_trailing s b :
  Forall (fun c => isWhiteSpace c = true) b -> continues p (s ++ b) = continues p s.
Proof.
  intros Hb. destruct s as [|c t]; [|reflexivity].
  destruct Hb as [|d b Hd _]; [reflexivity|]. simpl. rewrite (spaces d Hd). reflexivity.
Qed.

Lemma tokens_trailing s b :
  Forall (fun c => isWhiteSpace c = true) b -> tokens p (s ++ b) = tokens p s.
Proof.
  intros Hb. induction s as [|c t IH].
  - simpl. apply tokens_all_separators. revert Hb. apply Forall_impl, spaces.
  - cbn [app tokens]. rewrite IH, (continues_trailing t b Hb). reflexivity.
Qed.

Lemma tokens_trim s : tokens p (trim s) = tokens p s.
Proof.
  unfold trim.
  destruct (trimStart_split s) as (a & Ea & Ha).
  destruct (trimEnd_split (trimStart s)) as (b & Eb & Hb).
  rewrite Ea at 2. rewrite (tokens_leading a _ Ha).
  rewrite Eb at 2. rewrite (tokens_trailing _ b Hb). reflexivity.
Qed.
End TrimTokens.

Lemma ascii_words_trim s : ascii_words (trim s) = ascii_words s.
Proof.
  apply tokens_trim. intros c Hc. unfold isWhiteSpace in Hc. blia.
Qed.

Lemma ascii_upper_lower c : ascii_upper (ascii_lower c) = ascii_upper c.
Proof.
  unfold ascii_upper, ascii_lower.
  destruct (is_ascii_upper c) eqn:E1; [|reflexivity].
  destruct (is_ascii_lower (c + 32)) eqn:E2; destruct (is_ascii_lower c) eqn:E3; blia.
Qed.

Lemma ascii_upper_lower_digit c :
  is_ascii_digit c = true -> ascii_upper (ascii_lower c) = c.
Proof.
  intros Hd. unfold ascii_upper, ascii_lower.
  destruct (is_ascii_upper c) eqn:E1; [blia|].
  destruct (is_ascii_lower c) eqn:E2; [blia | reflexivity].
Qed.


(** ** The engine of Basic Latin satisfies the laws *)

Module BasicLatinLaws.
Import BasicLatin.

Ltac latin_classes :=
  unfold isDelimiter, isL, isLu, isLl, isN, isNd, isM;
  cbn [general_category basic_latin engine].

Lemma category_of_basic c : is_ascii c -> category_of c = ascii_category c.
Proof.
  intros Hc. unfold category_of.
  replace ((0 <=? c) && (c <? 128)) with true by (symmetry; blia). reflexivity.
Qed.

Lemma category_of_other c : ~ is_ascii c -> category_of c = Other.
Proof.
  intros Hc. unfold category_of.
  replace ((0 <=? c) && (c <? 128)) with false; [reflexivity|].
  symmetry. apply andb_false_iff. unfold is_ascii in Hc.
  destruct (0 <=? c) eqn:E1; [right | left; reflexivity].
  apply Z.ltb_ge. apply Z.leb_le in E1. lia.
Qed.

Lemma ascii_dec c : is_ascii c \/ ~ is_ascii c.
Proof. unfold is_ascii. lia. Qed.

(** The classes of the engine are the ASCII classes. *)
Lemma classes c :
  isLu basic_latin c = is_ascii_upper c
  /\ isL basic_latin c = is_ascii_letter c
  /\ isN basic_latin c = is_ascii_digit c
  /\ isM basic_latin c = false
  /\ isDelimiter basic_latin c = negb (is_ascii_alnum c).
Proof.
  latin_classes. unfold is_ascii_letter, is_ascii_alnum.
  destruct (ascii_dec c) as [Hc|Hc].
  - rewrite (category_of_basic c Hc). unfold ascii_category.
    destruct (is_ascii_upper c) eqn:E1, (is_ascii_lower c) eqn:E2,
      (is_ascii_digit c) eqn:E3; try (exfalso; blia);
      try (repeat split; reflexivity).
    destruct (c =? 32); [repeat split; reflexivity|].
    destruct ((c <? 32) || (c =? 127)); [repeat split; reflexivity|].
    destruct (is_ascii_symbol c); repeat split; reflexivity.
  - rewrite (category_of_other c Hc).
    replace (is_ascii_upper c) with false by (symmetry; unfold is_ascii in Hc; blia).
    replace (is_ascii_lower c) with false by (symmetry; unfold is_ascii in Hc; blia).
    replace (is_ascii_digit c) with false by (symmetry; unfold is_ascii in Hc; blia).
    repeat split; reflexivity.
Qed.

Lemma alnum_lower c :
  is_ascii_alnum c = true -> is_ascii_alnum (ascii_lower c) = true.
Proof.
  unfold ascii_lower. destruct (is_ascii_upper c) eqn:E; [|tauto]. intros _. blia.
Qed.

Lemma lower_unit c : map ascii_lower (utf16 c) = utf16 (ascii_lower c).
Proof.
  unfold ascii_lower. destruct (is_ascii_upper c) eqn:E.
  - unfold utf16.
    replace (is_astral c) with false by (symmetry; blia).
    replace (is_astral (c + 32)) with false by (symmetry; blia).
    simpl. unfold ascii_lower. rewrite E. reflexivity.
  - destruct (utf16_cases c) as [[_ ->]|[_ (h & l & -> & Hh & Hl)]].
    + simpl. unfold ascii_lower. rewrite E. reflexivity.
    + simpl. unfold ascii_lower.
      replace (is_ascii_upper h) with false by (symmetry; blia).
      replace (is_ascii_upper l) with false by (symmetry; blia). reflexivity.
Qed.

Lemma lower_text l :
  map ascii_lower (from_code_points l) = from_code_points (map ascii_lower l).
Proof.
  induction l as [|c l IH]; [reflexivity|].
  cbn [map]. rewrite !from_code_points_cons, map_app, lower_unit, IH. reflexivity.
Qed.

Lemma stable_all c : stable basic_latin c.
Proof. reflexivity. Qed.

Lemma plain_iff c : plain basic_latin c <-> is_surrogate c = false.
Proof.
  unfold plain. destruct (classes c) as (_ & _ & _ & -> & _).
  split; [tauto|]. intros H. split; [apply stable_all|]. split; [reflexivity | exact H].
Qed.

Lemma lowered_lower c : is_surrogate c = false -> lowered basic_latin c (ascii_lower c).
Proof.
  intros Hc. unfold lowered.
  assert (Hs : is_surrogate (ascii_lower c) = false).
  { unfold ascii_lower. destruct (is_ascii_upper c) eqn:E; [blia | exact Hc]. }
  split; [apply plain_iff, Hs|].
  destruct (classes c) as (E1 & E2 & E3 & _).
  destruct (classes (ascii_lower c)) as (F1 & F2 & F3 & _).
  rewrite E2, E3, F1, F2, F3. unfold is_ascii_letter, ascii_lower.
  destruct (is_ascii_upper c) eqn:E.
  - replace (is_ascii_upper (c + 32)) with false by (symmetry; blia).
    replace (is_ascii_lower (c + 32)) with true by (symmetry; blia).
    replace (is_ascii_digit (c + 32)) with false by (symmetry; blia).
    replace (is_ascii_digit c) with false by (symmetry; blia).
    repeat split. discriminate.
  - rewrite E. repeat split.
Qed.

Lemma lower_twice s : map ascii_lower (map ascii_lower s) = map ascii_lower s.
Proof.
  rewrite map_map. apply map_ext. intros c. unfold ascii_lower.
  destruct (is_ascii_upper c) eqn:E; [|rewrite E; reflexivity].
  replace (is_ascii_upper (c + 32)) with false by (symmetry; blia). reflexivity.
Qed.

Lemma code_points_alnum s :
  Forall (fun c => is_ascii_alnum c = true) s -> code_points s = s.
Proof.
  intros H. apply code_points_bmp. revert H. apply Forall_impl. intros c Hc. blia.
Qed.

Lemma basic_latin_laws : UnicodeLaws basic_latin.
Proof.
  constructor.
  - intros c Hc. apply (category_of_basic c Hc).
  - intros c Hc. apply category_of_other. unfold is_ascii. blia.
  - intros c Hc. destruct (classes c) as (_ & _ & _ & _ & ->).
    apply negb_true_iff. unfold isWhiteSpace in Hc. blia.
  - intros s Hs. exact Hs.
  - intros s. apply Forall_forall. intros c _. apply stable_all.
  - intros l _. reflexivity.
  - intros c _. apply stable_all.
  - intros l Hl. exists (map ascii_lower l). split; [apply lower_text|].
    induction Hl as [|c l Hc Hl IH]; constructor; [|exact IH].
    apply lowered_lower, plain_iff, Hc.
  - intros l _. apply lower_twice.
  - intros x y. cbn [toLowerCase basic_latin engine]. rewrite map_app. reflexivity.
  - intros u x Hu. cbn [toLowerCase basic_latin engine map]. f_equal.
    unfold ascii_lower. replace (is_ascii_upper u) with false by (symmetry; blia).
    reflexivity.
  - intros l Hl. cbn [toLowerCase basic_latin engine].
    assert (Ha : Forall (fun c => is_ascii_alnum c = true) l).
    { revert Hl. apply Forall_impl. intros c [Hc _].
      destruct (classes c) as (_ & _ & _ & _ & E). rewrite E in Hc.
      apply negb_false_iff, Hc. }
    rewrite lower_text. split.
    + assert (Hb : Forall (fun c => is_ascii_alnum c = true) (map ascii_lower l)).
      { apply Forall_forall. intros c Hc. apply in_map_iff in Hc.
        destruct Hc as (c0 & <- & H0). rewrite Forall_forall in Ha.
        apply alnum_lower, Ha, H0. }
      rewrite from_code_points_bmp
        by (revert Hb; apply Forall_impl; intros c Hc; blia).
      rewrite (code_points_alnum _ Hb). revert Hb. apply Forall_impl.
      intros c Hc. destruct (classes c) as (_ & _ & _ & _ & ->). rewrite Hc. reflexivity.
    + intros Hne. destruct l as [|c l']; [congruence|].
      cbn [map]. rewrite from_code_points_cons. intros E.
      apply app_eq_nil in E. destruct E as [E _]. apply (utf16_not_nil _ E).
  - intros s _. reflexivity.
  - intros u Hu. cbn [toUpperCase basic_latin engine map]. f_equal.
    unfold ascii_upper. replace (is_ascii_lower u) with false by (symmetry; blia).
    reflexivity.
  - intros c Hc _ _. cbn [toUpperCase basic_latin engine map].
    destruct (classes c) as (_ & E & _). rewrite E in Hc.
    assert (Hu : is_ascii_alnum (ascii_upper c) = true).
    { unfold ascii_upper, is_ascii_letter in *.
      destruct (is_ascii_lower c) eqn:E2; [blia|].
      rewrite orb_false_r in Hc. unfold is_ascii_alnum. rewrite Hc. reflexivity. }
    rewrite (code_points_alnum [ascii_upper c])
      by (constructor; [exact Hu | constructor]).
    constructor; [|constructor].
    destruct (classes (ascii_upper c)) as (_ & _ & _ & _ & ->). rewrite Hu. reflexivity.
  - intros s _. reflexivity.
Qed.

End BasicLatinLaws.

(** * Further properties of the converters *)

(** ** ASCII input *)

Section ScanExt.
Variable P : Z -> Prop.

Lemma replace_scan_ext (m1 m2 : matcher) k s :
  (forall l, Forall P l -> m1 l = m2 l) -> Forall P s ->
  replace_scan m1 k s = replace_scan m2 k s.
Proof.
  intros Hm Hs. revert k. induction Hs as [|c t Hc Ht IH]; intros k; [reflexivity|].
  cbn [replace_scan]. destruct k as [|k]; [|apply IH].
  rewrite <- (Hm (c :: t)) by (constructor; assumption).
  destruct (m1 (c :: t)) as [[[|n] r]|]; rewrite ?IH; reflexivity.
Qed.

Lemma replace_scan_Forall (m : matcher) k s :
  (forall l n r, Forall P l -> m l = Some (n, r) -> Forall P r) -> Forall P s ->
  Forall P (replace_scan m k s).
Proof.
  intros Hm Hs. revert k. induction Hs as [|c t Hc Ht IH]; intros k; [constructor|].
  cbn [replace_scan]. destruct k as [|k]; [|apply IH].
  destruct (m (c :: t)) as [[[|n] r]|] eqn:E.
  - apply Forall_app. split; [|constructor; [exact Hc | apply IH]].
    apply (Hm _ _ _ (Forall_cons c Hc Ht) E).
  - apply Forall_app. split; [|apply IH].
    apply (Hm _ _ _ (Forall_cons c Hc Ht) E).
  - constructor; [exact Hc | apply IH].
Qed.

Lemma run_length_ext (p1 p2 : Z -> bool) s :
  (forall c, P c -> p1 c = p2 c) -> Forall P s -> run_length p1 s = run_length p2 s.
Proof.
  intros Hp. induction 1 as [|c t Hc Ht IH]; [reflexivity|].
  simpl. rewrite <- (Hp c Hc), IH. reflexivity.
Qed.

Lemma pair_matcher_ext (p1 q1 p2 q2 : Z -> bool) sep l :
  (forall c, P c -> p1 c = p2 c) -> (forall c, P c -> q1 c = q2 c) -> Forall P l ->
  pair_matcher p1 q1 sep l = pair_matcher p2 q2 sep l.
Proof.
  intros Hp Hq Hl. destruct Hl as [|a t Ha Ht]; [reflexivity|].
  destruct Ht as [|b r Hb Hr]; [reflexivity|].
  simpl. rewrite (Hp a Ha), (Hq b Hb). reflexivity.
Qed.

Lemma run_matcher_ext (p1 p2 : Z -> bool) r l :
  (forall c, P c -> p1 c = p2 c) -> Forall P l ->
  run_matcher p1 r l = run_matcher p2 r l.
Proof.
  intros Hp Hl. unfold run_matcher, run_match.
  rewrite (run_length_ext p1 p2 l Hp Hl). reflexivity.
Qed.

Lemma delete_matcher_ext (p1 p2 : Z -> bool) l :
  (forall c, P c -> p1 c = p2 c) -> Forall P l ->
  delete_matcher p1 l = delete_matcher p2 l.
Proof.
  intros Hp Hl. destruct Hl as [|a t Ha Ht]; [reflexivity|].
  simpl. rewrite (Hp a Ha). reflexivity.
Qed.

Lemma Forall_skipn k (l : list Z) : Forall P l -> Forall P (skipn k l).
Proof.
  intros H. revert k. induction H as [|a t Ha Ht IH]; intros [|k]; simpl;
    [constructor | constructor | constructor; assumption | apply IH].
Qed.

Lemma Forall_firstn k (l : list Z) : Forall P l -> Forall P (firstn k l).
Proof.
  intros H. revert k. induction H as [|a t Ha Ht IH]; intros [|k]; simpl;
    [constructor | constructor | constructor | constructor; [assumption | apply IH]].
Qed.

Lemma acronym_backtrack_ext (up1 lo1 up2 lo2 : Z -> bool) k l :
  (forall c, P c -> up1 c = up2 c) -> (forall c, P c -> lo1 c = lo2 c) -> Forall P l ->
  acronym_backtrack up1 lo1 k l = acronym_backtrack up2 lo2 k l.
Proof.
  intros Hup Hlo Hl. induction k as [|k IH]; [reflexivity|].
  cbn [acronym_backtrack]. pose proof (Forall_skipn (S k) l Hl) as Hs.
  destruct (skipn (S k) l) as [|a [|b t]]; try exact IH.
  inversion Hs as [|? ? Ha Hs']; subst. inversion Hs' as [|? ? Hb _]; subst.
  rewrite (Hup a Ha), (Hlo b Hb), IH. reflexivity.
Qed.

Lemma acronym_matcher_ext (up1 lo1 up2 lo2 : Z -> bool) l :
  (forall c, P c -> up1 c = up2 c) -> (forall c, P c -> lo1 c = lo2 c) -> Forall P l ->
  acronym_matcher up1 lo1 l = acronym_matcher up2 lo2 l.
Proof.
  intros Hup Hlo Hl. unfold acronym_matcher.
  rewrite (run_length_ext up1 up2 l Hup Hl).
  rewrite (acronym_backtrack_ext up1 lo1 up2 lo2 _ l Hup Hlo Hl). reflexivity.
Qed.
End ScanExt.

(** What the matchers put into the text is ASCII. *)
Lemma pair_matcher_ascii p q sep l n r :
  is_ascii sep -> Forall is_ascii l -> pair_matcher p q sep l = Some (n, r) ->
  Forall is_ascii r.
Proof.
  intros Hsep Hl. destruct Hl as [|a t Ha Ht]; [discriminate|].
  destruct Ht as [|b t' Hb Ht']; [discriminate|]. simpl.
  destruct (p a && q b); [|discriminate]. intros E. injection E as _ <-.
  repeat (apply Forall_cons; [assumption|]). apply Forall_nil.
Qed.

Lemma run_matcher_ascii p sep l n r :
  is_ascii sep -> run_matcher p [sep] l = Some (n, r) -> Forall is_ascii r.
Proof.
  intros Hsep. unfold run_matcher. destruct (run_match p l); [|discriminate].
  intros E. injection E as _ <-. apply Forall_cons; [assumption | apply Forall_nil].
Qed.

Lemma delete_matcher_ascii p l n r :
  delete_matcher p l = Some (n, r) -> Forall is_ascii r.
Proof.
  destruct l as [|a t]; [discriminate|]. simpl. destruct (p a); [|discriminate].
  intros E. injection E as _ <-. constructor.
Qed.

Lemma acronym_matcher_ascii up lo l n r :
  Forall is_ascii l -> acronym_matcher up lo l = Some (n, r) -> Forall is_ascii r.
Proof.
  intros Hl. unfold acronym_matcher.
  destruct (acronym_backtrack up lo (run_length up l) l) as [k|]; [|discriminate].
  pose proof (Forall_firstn is_ascii 2 _ (Forall_skipn is_ascii k l Hl)) as H2.
  set (x := firstn 2 (skipn k l)) in *. clearbody x.
  intros E. injection E as _ <-.
  apply Forall_app. split; [apply Forall_firstn, Hl|].
  constructor; [unfold HYPHEN, is_ascii; lia | exact H2].
Qed.

(** On ASCII text a regular expression with the [u] flag and one without
    it scan alike. *)
Lemma replace_all_u_ascii (m m' : matcher) s :
  (forall l, Forall is_ascii l -> m l = m' l) ->
  (forall l n r, Forall is_ascii l -> m' l = Some (n, r) -> Forall is_ascii r) ->
  Forall is_ascii s ->
  replace_all_u m s = replace_all m' s /\ Forall is_ascii (replace_all m' s).
Proof.
  intros Hm Hr Hs. unfold replace_all_u, replace_all.
  pose proof (replace_scan_Forall is_ascii m' O s Hr Hs) as Hout.
  split; [|exact Hout].
  rewrite (code_points_bmp s) by (apply ascii_bmp, Hs).
  rewrite (replace_scan_ext is_ascii m m' O s Hm Hs).
  apply from_code_points_bmp, ascii_bmp, Hout.
Qed.

Lemma strip_edge_hyphens_Forall (P : Z -> Prop) s :
  Forall P s -> Forall P (strip_edge_hyphens s).
Proof.
  intros H. unfold strip_edge_hyphens.
  assert (H1 : Forall P (drop_leading_hyphen s)).
  { destruct H as [|c t Hc Ht]; [constructor|]. simpl.
    destruct (is_hyphen c); [exact Ht | constructor; assumption]. }
  induction H1 as [|c t Hc Ht IH]; [constructor|].
  simpl. destruct t as [|d t'].
  - destruct (is_hyphen c); constructor; [exact Hc | constructor].
  - constructor; [exact Hc | exact IH].
Qed.

Section AsciiInput.
Variable U : Unicode.
Hypothesis laws : UnicodeLaws U.

Lemma ascii_classes c :
  is_ascii c ->
  isL U c = is_ascii_letter c /\ isLu U c = is_ascii_upper c
  /\ isLl U c = is_ascii_lower c /\ isN U c = is_ascii_digit c
  /\ isNd U c = is_ascii_digit c /\ isM U c = false
  /\ isDelimiter U c = negb (is_ascii_alnum c).
Proof.
  intros Hc. destruct (ascii_class U laws c Hc) as (E1 & E2 & E3 & E4 & E5 & E6).
  rewrite (ascii_delimiter U laws c Hc). unfold is_ascii_letter. auto 10.
Qed.

Lemma nfkd_ascii_text t : Forall is_ascii t -> normalize_NFKD U t = t.
Proof.
  intros Ht. destruct (ascii_bmp _ Ht) as [_ H2].
  rewrite <- (from_code_points_bmp t H2) at 1.
  rewrite (nfkd_fixed U laws)
    by (revert Ht; apply Forall_impl; apply (ascii_plain U laws)).
  apply from_code_points_bmp, H2.
Qed.

(** Step 2, in the [try] block and in its handler. *)
Lemma step2_ascii t :
  Forall is_ascii t ->
  replace_all_u (re_marks U) (normalize_NFKD U t) = t
  /\ replace_all (delete_matcher chain_prompt.is_combining_diacritical)
       (normalize_NFKD U t) = t.
Proof.
  intros Ht. rewrite (nfkd_ascii_text t Ht).
  assert (H0 : replace_all (delete_matcher chain_prompt.is_combining_diacritical) t = t).
  { apply delete_scan_never. revert Ht. apply Forall_impl. intros c Hc.
    unfold chain_prompt.is_combining_diacritical. blia. }
  split; [|exact H0]. rewrite <- H0 at 2.
  apply (replace_all_u_ascii (re_marks U)); [| |exact Ht].
  - intros l Hl. apply (delete_matcher_ext is_ascii); [|exact Hl].
    intros c Hc. destruct (ascii_classes c Hc) as (_ & _ & _ & _ & _ & -> & _).
    symmetry. unfold chain_prompt.is_combining_diacritical. blia.
  - intros l n r _. apply delete_matcher_ascii.
Qed.

(** Step 3 of toKebabCase. *)
Lemma kebab_step3_ascii t :
  Forall is_ascii t ->
  replace_all_u (chain_prompt.re_acronym U)
    (replace_all_u (chain_prompt.re_lower_upper U) t)
  = replace_all chain_prompt.re_acronym_ascii
      (replace_all chain_prompt.re_lower_upper_ascii t)
  /\ Forall is_ascii
       (replace_all chain_prompt.re_acronym_ascii
          (replace_all chain_prompt.re_lower_upper_ascii t)).
Proof.
  intros Ht.
  destruct (replace_all_u_ascii (chain_prompt.re_lower_upper U)
              chain_prompt.re_lower_upper_ascii t) as [E1 H1]; [| |exact Ht|].
  - intros l Hl. apply (pair_matcher_ext is_ascii); [| |exact Hl]; intros c Hc;
      destruct (ascii_classes c Hc) as (_ & E2 & E3 & _ & E5 & _);
      rewrite ?E2, ?E3, ?E5; reflexivity.
  - intros l n r Hl. apply pair_matcher_ascii; [unfold HYPHEN, is_ascii; lia | exact Hl].
  - rewrite E1.
    apply (replace_all_u_ascii (chain_prompt.re_acronym U)); [| |exact H1].
    + intros l Hl. apply (acronym_matcher_ext is_ascii); [| |exact Hl]; intros c Hc;
        destruct (ascii_classes c Hc) as (_ & E2 & E3 & _); assumption.
    + intros l n r Hl. apply acronym_matcher_ascii, Hl.
Qed.

(** Step 4 of toKebabCase. *)
Lemma kebab_step4_ascii t :
  Forall is_ascii t ->
  replace_all_u (re_delimiters U HYPHEN) t = replace_all chain_prompt.re_delimiters_ascii t
  /\ Forall is_ascii (replace_all chain_prompt.re_delimiters_ascii t).
Proof.
  intros Ht. apply (replace_all_u_ascii (re_delimiters U HYPHEN)); [| |exact Ht].
  - intros l Hl. apply (run_matcher_ext is_ascii); [|exact Hl].
    intros c Hc. apply (ascii_classes c Hc).
  - intros l n r _. apply run_matcher_ascii. unfold HYPHEN, is_ascii. lia.
Qed.

Lemma toKebabCase_ascii s :
  Forall is_ascii s ->
  chain_prompt.toKebabCase U (VString s) = toKebabCase_fallback U (VString s)
  /\ chain_prompt.toKebabCase U (VString s)
     = Return (map ascii_lower
                 (strip_edge_hyphens
                    (replace_all re_hyphens
                       (replace_all chain_prompt.re_delimiters_ascii
                          (replace_all chain_prompt.re_acronym_ascii
                             (replace_all chain_prompt.re_lower_upper_ascii
                                (trim s))))))).
Proof.
  intros Hs. pose proof (trim_Forall _ _ Hs) as Ht.
  unfold chain_prompt.toKebabCase, toKebabCase_fallback, try_catch.
  destruct (step2_ascii (trim s) Ht) as [-> ->].
  destruct (kebab_step3_ascii (trim s) Ht) as [-> H3].
  destruct (kebab_step4_ascii _ H3) as [-> H4].
  split; [reflexivity|]. f_equal. apply (lower_ascii U laws).
  apply strip_edge_hyphens_Forall.
  apply (replace_scan_Forall is_ascii); [|exact H4].
  intros l n r _. apply run_matcher_ascii. unfold HYPHEN, is_ascii. lia.
Qed.
(** The words of toCamelCase and toDotCase. *)
Lemma refined_words_ascii str :
  Forall is_ascii str ->
  refined_prompt.words U str = ascii_rawWords str
  /\ Forall (fun w => w <> [] /\ Forall is_ascii w) (ascii_rawWords str).
Proof.
  intros Hs. unfold refined_prompt.words, ascii_rawWords.
  destruct (step2_ascii str Hs) as [-> _].
  assert (Hsp : is_ascii SPACE) by (unfold SPACE, is_ascii; lia).
  set (m1 := pair_matcher (fun c => is_ascii_lower c || is_ascii_digit c)
               is_ascii_upper SPACE).
  set (m2 := pair_matcher is_ascii_letter is_ascii_digit SPACE).
  set (m3 := pair_matcher is_ascii_digit is_ascii_letter SPACE).
  set (m4 := run_matcher (fun c => negb (is_ascii_alnum c)) [SPACE]).
  assert (Hpair : forall p q l n r, Forall is_ascii l ->
            pair_matcher p q SPACE l = Some (n, r) -> Forall is_ascii r).
  { intros p q l n r Hl. apply pair_matcher_ascii; assumption. }
  assert (E1 : forall l, Forall is_ascii l -> refined_prompt.re_lower_upper U l = m1 l).
  { intros l Hl. apply (pair_matcher_ext is_ascii); [| |exact Hl]; intros c Hc;
      destruct (ascii_classes c Hc) as (_ & E2 & E3 & E4 & _);
      rewrite ?E2, ?E3, ?E4; reflexivity. }
  assert (E2 : forall l, Forall is_ascii l -> refined_prompt.re_letter_number U l = m2 l).
  { intros l Hl. apply (pair_matcher_ext is_ascii); [| |exact Hl]; intros c Hc;
      destruct (ascii_classes c Hc) as (E1' & _ & _ & E4 & _); assumption. }
  assert (E3 : forall l, Forall is_ascii l -> refined_prompt.re_number_letter U l = m3 l).
  { intros l Hl. apply (pair_matcher_ext is_ascii); [| |exact Hl]; intros c Hc;
      destruct (ascii_classes c Hc) as (E1' & _ & _ & E4 & _); assumption. }
  assert (E4 : forall l, Forall is_ascii l -> re_delimiters U SPACE l = m4 l).
  { intros l Hl. apply (run_matcher_ext is_ascii); [|exact Hl].
    intros c Hc. apply (ascii_classes c Hc). }
  destruct (replace_all_u_ascii _ m1 str E1 (Hpair _ _) Hs) as [-> H1].
  destruct (replace_all_u_ascii _ m2 _ E2 (Hpair _ _) H1) as [-> H2].
  destruct (replace_all_u_ascii _ m3 _ E3 (Hpair _ _) H2) as [-> H3].
  destruct (replace_all_u_ascii _ m4 _ E4
              (fun l n r _ => run_matcher_ascii _ SPACE l n r Hsp) H3) as [-> H4].
  split; [reflexivity|].
  unfold refined_prompt.re_spaces. rewrite filter_split.
  set (x := replace_all m4 _) in *. clearbody x.
  pose proof (tokens_are_tokens isWhiteSpace x) as Ht.
  apply Forall_forall. intros w Hw. rewrite Forall_forall in Ht.
  destruct (Ht w Hw) as [Hne _]. split; [exact Hne|].
  apply Forall_forall. intros c Hc. rewrite Forall_forall in H4.
  apply H4. apply (tokens_In _ _ _ _ Hw Hc).
Qed.

Lemma capitalize_ascii_word w :
  Forall is_ascii w -> refined_prompt.capitalize U w = ascii_capitalize w.
Proof.
  intros Hw. destruct Hw as [|c r Hc Hr]; [reflexivity|].
  unfold refined_prompt.capitalize, ascii_capitalize.
  cbn [charAt0 slice1 tl code_points existsb]. rewrite orb_false_r.
  destruct (ascii_classes c Hc) as (_ & _ & _ & -> & _).
  rewrite (lower_ascii U laws r Hr).
  destruct (is_ascii_digit c); [reflexivity|].
  rewrite (upper_ascii U laws [c]) by (constructor; [exact Hc | constructor]).
  reflexivity.
Qed.

Lemma map_capitalize_ascii ws :
  Forall (fun w => w <> [] /\ Forall is_ascii w) ws ->
  map (refined_prompt.capitalize U) ws = map ascii_capitalize ws.
Proof.
  induction 1 as [|w r [_ Hw] Hr IH]; [reflexivity|].
  simpl. rewrite (capitalize_ascii_word w Hw), IH. reflexivity.
Qed.

Lemma map_lower_ascii ws :
  Forall (fun w => w <> [] /\ Forall is_ascii w) ws ->
  map (toLowerCase U) ws = map (map ascii_lower) ws.
Proof.
  induction 1 as [|w r [_ Hw] Hr IH]; [reflexivity|].
  simpl. rewrite (lower_ascii U laws w Hw), IH. reflexivity.
Qed.

Lemma ascii_rawWords_nil : ascii_rawWords [] = [].
Proof. reflexivity. Qed.

Lemma toCamelCase_ascii s :
  Forall is_ascii s ->
  refined_prompt.toCamelCase U (VString s)
  = Return (ascii_camel (ascii_rawWords (trim s))).
Proof.
  intros Hs. pose proof (trim_Forall _ _ Hs) as Ht.
  unfold refined_prompt.toCamelCase.
  destruct (trim s) as [|a t] eqn:E; [reflexivity|].
  rewrite refined_rawWords.
  destruct (refined_words_ascii _ Ht) as [-> Hw].
  destruct Hw as [|w0 others [_ H0] Ho]; [reflexivity|].
  unfold refined_prompt.lowerFirst, ascii_camel.
  rewrite (lower_ascii U laws w0 H0), (map_capitalize_ascii others Ho).
  rewrite join_nil_concat. reflexivity.
Qed.

Lemma toDotCase_ascii s :
  Forall is_ascii s ->
  refined_prompt.toDotCase U (VString s)
  = Return (join [DOT] (map (map ascii_lower) (ascii_rawWords (trim s)))).
Proof.
  intros Hs. pose proof (trim_Forall _ _ Hs) as Ht.
  unfold refined_prompt.toDotCase.
  destruct (trim s) as [|a t] eqn:E; [reflexivity|].
  destruct (refined_words_ascii _ Ht) as [-> Hw].
  pose proof (map_lower_ascii _ Hw) as El.
  destruct (ascii_rawWords (a :: t)); [reflexivity|]. rewrite El. reflexivity.
Qed.

(** The simple toCamelCase reads the ASCII letters and digits of its input
    only. *)
Lemma ascii_words_alnum s :
  Forall (fun w => w <> [] /\ Forall (fun c => is_ascii_alnum c = true) w)
    (ascii_words s).
Proof.
  pose proof (tokens_are_tokens (fun c => negb (is_ascii_alnum c)) s) as Ht.
  revert Ht. apply Forall_impl. intros w [Hne Hw]. split; [exact Hne|].
  revert Hw. apply Forall_impl. intros c Hc. apply negb_false_iff, Hc.
Qed.

Lemma alnum_ascii w :
  Forall (fun c => is_ascii_alnum c = true) w -> Forall is_ascii w.
Proof. apply Forall_impl. intros c Hc. blia. Qed.

Lemma camel_part_ascii w i :
  Forall is_ascii w ->
  few_shot_prompt.camel_part U w (S i) = ascii_camel_part w.
Proof.
  intros Hw. unfold few_shot_prompt.camel_part, ascii_camel_part.
  rewrite (lower_ascii U laws w Hw).
  destruct Hw as [|c r Hc Hr].
  - simpl. rewrite (upper_ascii U laws []) by constructor. reflexivity.
  - cbn [map charAt0 slice1 tl].
    rewrite (upper_ascii U laws [ascii_lower c])
      by (constructor; [apply ascii_lower_ascii, Hc | constructor]).
    reflexivity.
Qed.

Lemma map_indexed_ascii ws i :
  Forall (fun w => w <> [] /\ Forall (fun c => is_ascii_alnum c = true) w) ws ->
  few_shot_prompt.map_indexed (few_shot_prompt.camel_part U) (S i) ws
  = map ascii_camel_part ws.
Proof.
  intros H. revert i. induction H as [|w r [_ Hw] Hr IH]; intros i; [reflexivity|].
  cbn [few_shot_prompt.map_indexed map].
  rewrite IH, (camel_part_ascii w i (alnum_ascii w Hw)). reflexivity.
Qed.

Lemma few_shot_ascii s :
  few_shot_prompt.toCamelCase U (VString s) = Return (ascii_few_shot s).
Proof.
  unfold few_shot_prompt.toCamelCase, ascii_few_shot, few_shot_prompt.re_separators.
  rewrite filter_split. fold (ascii_words (trim s)).
  pose proof (ascii_words_alnum (trim s)) as Hw.
  destruct (trim s) as [|a t] eqn:E; [reflexivity|].
  destruct Hw as [|w0 r [_ H0] Hr]; [reflexivity|].
  destruct r as [|w1 r'].
  - f_equal. f_equal. apply (lower_ascii U laws).
    destruct H0 as [|c w Hc _]; [constructor|].
    constructor; [blia | constructor].
  - f_equal.
    change (few_shot_prompt.map_indexed (few_shot_prompt.camel_part U) O
              (w0 :: w1 :: r'))
      with (toLowerCase U w0
            :: few_shot_prompt.map_indexed (few_shot_prompt.camel_part U) 1
                 (w1 :: r')).
    rewrite (map_indexed_ascii (w1 :: r') O Hr).
    rewrite (lower_ascii U laws w0 (alnum_ascii w0 H0)).
    rewrite join_nil_concat. reflexivity.
Qed.
End AsciiInput.

(** X1: on ASCII input the [catch] handlers of toKebabCase compute what the
    [try] blocks compute: the fallback run returns the same string.  Outside
    ASCII the two differ: the handlers take every non-ASCII letter for a
    delimiter, so the ideograph U+4E2D is kept by the [try] blocks and
    dropped by the handlers. *)
Theorem kebab_handlers_agree (U : Unicode) (s : jsstring) :
  UnicodeLaws U -> Forall is_ascii s ->
  chain_prompt.toKebabCase U (VString s) = toKebabCase_fallback U (VString s)
  /\ chain_prompt.toKebabCase sample (VString [0x4E2D]) = Return [0x4E2D]
  /\ toKebabCase_fallback sample (VString [0x4E2D]) = Return [].
Proof.
  intros laws Hs. split; [apply (toKebabCase_ascii U laws s Hs)|].
  split; vm_compute; reflexivity.
Qed.

Lemma kebab_handlers_agree_witness :
  chain_prompt.toKebabCase sample (VString (js "fooBar XMLHttp_request 42"))
  = toKebabCase_fallback sample (VString (js "fooBar XMLHttp_request 42"))
  /\ chain_prompt.toKebabCase sample (VString [0x4E2D]) = Return [0x4E2D]
  /\ toKebabCase_fallback sample (VString [0x4E2D]) = Return [].
Proof.
  apply (kebab_handlers_agree sample (js "fooBar XMLHttp_request 42")
           SampleLaws.sample_laws).
  each_char.
Defined.

(** X2: the result of a conversion of ASCII text does not depend on the
    tables of the engine: two engines that satisfy [UnicodeLaws] give the
    same result with toKebabCase, toCamelCase and toDotCase on every ASCII
    string, and with the simple toCamelCase on every string (it reads ASCII
    letters and digits only). *)
Theorem ascii_engine_independence (U1 U2 : Unicode) (s : jsstring) :
  UnicodeLaws U1 -> UnicodeLaws U2 ->
  few_shot_prompt.toCamelCase U1 (VString s) = few_shot_prompt.toCamelCase U2 (VString s)
  /\ (Forall is_ascii s ->
      chain_prompt.toKebabCase U1 (VString s) = chain_prompt.toKebabCase U2 (VString s)
      /\ refined_prompt.toCamelCase U1 (VString s)
         = refined_prompt.toCamelCase U2 (VString s)
      /\ refined_prompt.toDotCase U1 (VString s)
         = refined_prompt.toDotCase U2 (VString s)).
Proof.
  intros laws1 laws2. split.
  - rewrite (few_shot_ascii U1 laws1), (few_shot_ascii U2 laws2). reflexivity.
  - intros Hs. repeat apply conj.
    + rewrite (proj2 (toKebabCase_ascii U1 laws1 s Hs)).
      rewrite (proj2 (toKebabCase_ascii U2 laws2 s Hs)). reflexivity.
    + rewrite (toCamelCase_ascii U1 laws1 s Hs), (toCamelCase_ascii U2 laws2 s Hs).
      reflexivity.
    + rewrite (toDotCase_ascii U1 laws1 s Hs), (toDotCase_ascii U2 laws2 s Hs).
      reflexivity.
Qed.

Lemma ascii_engine_independence_witness :
  few_shot_prompt.toCamelCase sample (VString (js "user_id XMLHttp 42"))
  = few_shot_prompt.toCamelCase basic_latin (VString (js "user_id XMLHttp 42"))
  /\ chain_prompt.toKebabCase sample (VString (js "user_id XMLHttp 42"))
     = chain_prompt.toKebabCase basic_latin (VString (js "user_id XMLHttp 42"))
  /\ refined_prompt.toCamelCase sample (VString (js "user_id XMLHttp 42"))
     = refined_prompt.toCamelCase basic_latin (VString (js "user_id XMLHttp 42"))
  /\ refined_prompt.toDotCase sample (VString (js "user_id XMLHttp 42"))
     = refined_prompt.toDotCase basic_latin (VString (js "user_id XMLHttp 42")).
Proof.
  destruct (ascii_engine_independence sample basic_latin (js "user_id XMLHttp 42")
              SampleLaws.sample_laws BasicLatinLaws.basic_latin_laws) as [H1 H2].
  split; [exact H1 | apply H2]. each_char.
Defined.

(** ** The outputs of toDotCase and toCamelCase *)

Lemma inserted_keeps sep s s' c : inserted sep s s' -> In c s -> In c s'.
Proof.
  induction 1 as [|d s s' H IH|s s' H IH]; [intros []| |].
  - intros [<-|Hc]; [left; reflexivity | right; apply IH, Hc].
  - intros Hc. right. apply IH, Hc.
Qed.

Lemma tokens_nil p s : tokens p s = [] -> Forall (fun c => p c = true) s.
Proof.
  induction s as [|c t IH]; [constructor|].
  simpl. destruct (p c) eqn:Hc.
  - intros H. constructor; [exact Hc | apply IH, H].
  - destruct (continues p t); [destruct (tokens p t)|]; discriminate.
Qed.

Lemma code_points_head c x :
  is_surrogate c = false -> code_points (utf16 c ++ x) = c :: code_points x.
Proof.
  intros Hc. destruct (is_astral c) eqn:E.
  - destruct (utf16_astral c E) as (a & b & -> & Ha & Hb & Hp).
    simpl app. rewrite code_points_pair by (rewrite Ha, Hb; reflexivity).
    rewrite Hp. reflexivity.
  - rewrite utf16_bmp by exact E. simpl app. apply code_points_cons. left. blia.
Qed.

Section Outputs.
Variable U : Unicode.
Hypothesis laws : UnicodeLaws U.

(** The tokens are empty exactly when the normalised text has neither a
    letter nor a number. *)
Lemma boundary_tokens_nil sep n n' :
  isDelimiter U sep = true -> inserted sep n n' ->
  (tokens (isDelimiter U) n' = [] <-> Forall (fun c => isDelimiter U c = true) n).
Proof.
  intros Hsep Hi. split.
  - intros H. apply tokens_nil in H. apply Forall_forall. intros c Hc.
    rewrite Forall_forall in H. apply H, (inserted_keeps sep n n' c Hi Hc).
  - intros H. apply tokens_all_separators. apply Forall_forall. intros c Hc.
    destruct (inserted_In _ _ _ c Hi Hc) as [Hn| ->]; [|exact Hsep].
    rewrite Forall_forall in H. apply H, Hn.
Qed.

Lemma joined_nil sep (ps : list jsstring) :
  Forall (fun p => wordy U p /\ p <> []) ps -> (join [sep] ps = [] <-> ps = []).
Proof.
  intros Hps. split; [|intros ->; reflexivity].
  destruct Hps as [|p r [_ Hp] _]; [reflexivity|].
  intros H. destruct (join_not_nil sep p r Hp H).
Qed.

Lemma toKebabCase_empty s :
  chain_prompt.toKebabCase U (VString s) = Return []
  <-> Forall (fun c => isDelimiter U c = true) (normalized U s).
Proof.
  rewrite (toKebabCase_output U laws).
  rewrite <- (boundary_tokens_nil HYPHEN _ (kebab_boundaries U (normalized U s))
                (delimiter_hyphen U laws) (kebab_boundaries_inserted U _)).
  fold (kebab_tokens U s).
  pose proof (joined_nil HYPHEN _ (lowered_kebab_tokens U laws s)) as H.
  unfold lowered_tokens in *. split.
  - intros E. injection E as E. apply H in E.
    destruct (kebab_tokens U s); [reflexivity | discriminate].
  - intros ->. reflexivity.
Qed.

Lemma toDotCase_empty s :
  refined_prompt.toDotCase U (VString s) = Return []
  <-> Forall (fun c => isDelimiter U c = true) (normalized U s).
Proof.
  rewrite (toDotCase_output U laws).
  rewrite <- (boundary_tokens_nil SPACE _ (refined_boundaries U (normalized U s))
                (delimiter_space U laws) (refined_boundaries_inserted U _)).
  fold (refined_tokens U s).
  pose proof (joined_nil DOT _ (lowered_refined_tokens U laws s)) as H.
  unfold lowered_tokens in *. split.
  - intros E. injection E as E. apply H in E.
    destruct (refined_tokens U s); [reflexivity | discriminate].
  - intros ->. reflexivity.
Qed.

Lemma toCamelCase_empty s :
  refined_prompt.toCamelCase U (VString s) = Return []
  <-> Forall (fun c => isDelimiter U c = true) (normalized U s).
Proof.
  rewrite (toCamelCase_tokens U laws).
  rewrite <- (boundary_tokens_nil SPACE _ (refined_boundaries U (normalized U s))
                (delimiter_space U laws) (refined_boundaries_inserted U _)).
  fold (refined_tokens U s).
  pose proof (lowered_refined_tokens U laws s) as Hl. unfold lowered_tokens in Hl.
  destruct (refined_tokens U s) as [|w0 others]; [tauto|].
  split; [|discriminate]. cbn [map]. intros E. injection E as E.
  apply app_eq_nil in E. destruct E as [E _].
  inversion Hl as [|? ? [_ Hne] _]; subst.
  unfold refined_prompt.lowerFirst in E. congruence.
Qed.

(** The first code point of toCamelCase's output. *)
Lemma toCamelCase_head s out c t :
  well_formed s = true ->
  refined_prompt.toCamelCase U (VString s) = Return out ->
  code_points out = c :: t -> isLu U c = false.
Proof.
  intros Hs E Hout.
  rewrite (toCamelCase_tokens U laws) in E. injection E as E.
  destruct (lower_tokens_settled U laws SPACE (refined_boundaries U (normalized U s)) s Hs
              (delimiter_space U laws) (refined_boundaries_inserted U _))
    as (ts' & El & Hts & _).
  fold (refined_tokens U s) in El. unfold lowered_tokens in El.
  destruct (refined_tokens U s) as [|w0 others].
  - simpl in E. subst out. discriminate.
  - destruct ts' as [|t0 r']; [discriminate|].
    cbn [map] in E, El. injection El as E0 _.
    unfold refined_prompt.lowerFirst in E. rewrite E0 in E.
    inversion Hts as [|? ? ([Hne _] & Hp & Hu & _) _]; subst.
    destruct t0 as [|c0 t0']; [congruence|].
    inversion Hp as [|? ? (_ & _ & Hc0) _]; subst.
    inversion Hu as [|? ? Hu0 _]; subst.
    rewrite from_code_points_cons, <- app_assoc in Hout.
    rewrite (code_points_head c0 _ Hc0) in Hout. injection Hout as <- _.
    exact Hu0.
Qed.
End Outputs.

(** X3: for every string input the code points of the output of toDotCase
    are letters, numbers and dots; the output neither begins nor ends with a
    dot and has no two dots in a row.  When the input has no unpaired
    surrogate, no letter of the output is uppercase, and each word between
    the dots consists of letters only or of numbers only. *)
Theorem dot_output_shape (U : Unicode) (s : jsstring) :
  UnicodeLaws U ->
  exists out,
    refined_prompt.toDotCase U (VString s) = Return out
    /\ Forall (fun c => c = DOT \/ isL U c = true \/ isN U c = true) (code_points out)
    /\ (forall t, out <> DOT :: t)
    /\ (forall t, out <> t ++ [DOT])
    /\ (forall a b, out <> a ++ DOT :: DOT :: b)
    /\ (well_formed s = true ->
        Forall (fun c => isLu U c = false) (code_points out)
        /\ Forall (fun w => Forall (fun c => isL U c = true) (code_points w)
                            \/ Forall (fun c => isN U c = true) (code_points w))
             (split_char DOT out)).
Proof.
  intros laws. eexists. split; [apply (toDotCase_output U laws)|].
  pose proof (lowered_refined_tokens U laws s) as Hps.
  assert (Hdot : is_ascii DOT) by (unfold DOT, is_ascii; lia).
  split; [|split; [|split; [|split]]].
  - apply Forall_forall. intros c Hc.
    destruct (joined_code_points U DOT _ c Hdot Hps Hc) as [->|Hd];
      [left; reflexivity|].
    right. destruct (delimiter_cases U c Hd) as [[H _]|[_ H]]; tauto.
  - apply (joined_shape DOT), (pieces_sep_free U DOT);
      [exact Hdot | apply (delimiter_dot U laws) | exact Hps].
  - apply (joined_shape DOT), (pieces_sep_free U DOT);
      [exact Hdot | apply (delimiter_dot U laws) | exact Hps].
  - apply (joined_shape DOT), (pieces_sep_free U DOT);
      [exact Hdot | apply (delimiter_dot U laws) | exact Hps].
  - intros Hs. destruct (toDotCase_settled U laws s Hs) as (ts' & E & Hts & Hu).
    rewrite (toDotCase_output U laws) in E. injection E as E. rewrite E.
    pose proof (settled_plain U laws DOT ts' Hdot Hts) as Hplain.
    split.
    + rewrite (plain_decodable U _ Hplain).
      apply settled_no_upper; [apply (delimiter_dot U laws) | exact Hts].
    + rewrite from_code_points_join by reflexivity.
      assert (Hdec : forall t, In t ts' -> code_points (from_code_points t) = t).
      { intros t Ht. rewrite Forall_forall in Hts. destruct (Hts t Ht) as ([_ Hd] & _).
        apply (token_decodable U laws t Hd). }
      rewrite (split_joined U DOT _ laws Hdot (delimiter_dot U laws)).
      * destruct ts' as [|t0 r]; [repeat constructor|].
        apply Forall_forall. intros w Hw. apply in_map_iff in Hw.
        destruct Hw as (t & <- & Ht). rewrite (Hdec t Ht).
        rewrite Forall_forall in Hu. apply (Hu t Ht).
      * apply Forall_forall. intros w Hw. apply in_map_iff in Hw.
        destruct Hw as (t & <- & Ht). rewrite Forall_forall in Hts.
        destruct (Hts t Ht) as ([Hne Hd] & _).
        split; [|apply from_code_points_not_nil, Hne].
        unfold wordy. rewrite (Hdec t Ht). exact Hd.
Qed.

Lemma dot_output_shape_witness :
  exists out,
    refined_prompt.toDotCase sample (VString (js "  version2alpha__Test ")) = Return out
    /\ Forall (fun c => c = DOT \/ isL sample c = true \/ isN sample c = true)
         (code_points out)
    /\ (forall t, out <> DOT :: t)
    /\ (forall t, out <> t ++ [DOT])
    /\ (forall a b, out <> a ++ DOT :: DOT :: b)
    /\ (well_formed (js "  version2alpha__Test ") = true ->
        Forall (fun c => isLu sample c = false) (code_points out)
        /\ Forall (fun w => Forall (fun c => isL sample c = true) (code_points w)
                            \/ Forall (fun c => isN sample c = true) (code_points w))
             (split_char DOT out)).
Proof.
  exact (dot_output_shape sample (js "  version2alpha__Test ") SampleLaws.sample_laws).
Defined.

(** X4: for every string input the code points of the output of toCamelCase
    are letters and numbers only: no delimiter, white space or combining
    mark is left.  When the input has no unpaired surrogate, the output does
    not begin with an uppercase letter. *)
Theorem camel_output_shape (U : Unicode) (s : jsstring) :
  UnicodeLaws U ->
  exists out,
    refined_prompt.toCamelCase U (VString s) = Return out
    /\ Forall (fun c => isL U c = true \/ isN U c = true) (code_points out)
    /\ Forall (fun u => isWhiteSpace u = false) out
    /\ (well_formed s = true ->
        forall c t, code_points out = c :: t -> isLu U c = false).
Proof.
  intros laws. destruct (toCamelCase_wordy U laws s) as (out & E & Hout).
  exists out. split; [exact E|]. split; [|split].
  - revert Hout. apply Forall_impl. intros c Hc.
    destruct (delimiter_cases U c Hc) as [[H _]|[_ H]]; tauto.
  - apply (wordy_no_space U laws), Hout.
  - intros Hs c t Hc. apply (toCamelCase_head U laws s out c t Hs E Hc).
Qed.

Lemma camel_output_shape_witness :
  exists out,
    refined_prompt.toCamelCase sample (VString (js "Hello_world-test 42")) = Return out
    /\ Forall (fun c => isL sample c = true \/ isN sample c = true) (code_points out)
    /\ Forall (fun u => isWhiteSpace u = false) out
    /\ (well_formed (js "Hello_world-test 42") = true ->
        forall c t, code_points out = c :: t -> isLu sample c = false).
Proof.
  exact (camel_output_shape sample (js "Hello_world-test 42") SampleLaws.sample_laws).
Defined.

(** X5: toKebabCase, toCamelCase and toDotCase return the empty string
    exactly when the text left by trimming, NFKD and the removal of marks
    has neither a letter nor a number. *)
Theorem empty_output (U : Unicode) (s : jsstring) :
  UnicodeLaws U ->
  (chain_prompt.toKebabCase U (VString s) = Return []
   <-> Forall (fun c => isDelimiter U c = true) (normalized U s))
  /\ (refined_prompt.toCamelCase U (VString s) = Return []
      <-> Forall (fun c => isDelimiter U c = true) (normalized U s))
  /\ (refined_prompt.toDotCase U (VString s) = Return []
      <-> Forall (fun c => isDelimiter U c = true) (normalized U s)).
Proof.
  intros laws. split; [|split].
  - apply (toKebabCase_empty U laws).
  - apply (toCamelCase_empty U laws).
  - apply (toDotCase_empty U laws).
Qed.

Lemma empty_output_witness :
  refined_prompt.toCamelCase sample (VString (js " -- ?! __ ")) = Return []
  /\ Forall (fun c => isDelimiter sample c = true) (normalized sample (js " -- ?! __ ")).
Proof.
  destruct (empty_output sample (js " -- ?! __ ") SampleLaws.sample_laws)
    as (_ & [H1 H2] & _).
  assert (E : refined_prompt.toCamelCase sample (VString (js " -- ?! __ ")) = Return [])
    by (vm_compute; reflexivity).
  split; [exact E | exact (H1 E)].
Defined.

(** ** Surrounding white space *)

Lemma trimStart_leading a s :
  Forall (fun c => isWhiteSpace c = true) a -> trimStart (a ++ s) = trimStart s.
Proof.
  induction 1 as [|c a Hc Ha IH]; [reflexivity|]. simpl. rewrite Hc. exact IH.
Qed.

Lemma trimEnd_trailing s b :
  Forall (fun c => isWhiteSpace c = true) b -> trimEnd (s ++ b) = trimEnd s.
Proof.
  intros Hb. unfold trimEnd. rewrite rev_app_distr.
  rewrite trimStart_leading by (apply Forall_rev, Hb). reflexivity.
Qed.

Lemma trimStart_app s b :
  Forall (fun c => isWhiteSpace c = true) b ->
  trimStart (s ++ b) = match trimStart s with [] => [] | t => t ++ b end.
Proof.
  intros Hb. induction s as [|c s IH].
  - simpl. rewrite <- (app_nil_r b), trimStart_leading by exact Hb. reflexivity.
  - simpl. destruct (isWhiteSpace c); [exact IH | reflexivity].
Qed.

Lemma trim_padding a s b :
  Forall (fun c => isWhiteSpace c = true) a ->
  Forall (fun c => isWhiteSpace c = true) b ->
  trim (a ++ s ++ b) = trim s.
Proof.
  intros Ha Hb. unfold trim. rewrite (trimStart_leading a _ Ha).
  rewrite (trimStart_app s b Hb).
  destruct (trimStart s) as [|c t]; [reflexivity|].
  apply (trimEnd_trailing (c :: t) b Hb).
Qed.

(** X6: white space (and line terminators) before and after the input do not
    change the result of any of the four converters. *)
Theorem surrounding_white_space (U : Unicode) (a s b : jsstring) :
  Forall (fun c => isWhiteSpace c = true) a ->
  Forall (fun c => isWhiteSpace c = true) b ->
  chain_prompt.toKebabCase U (VString (a ++ s ++ b)) = chain_prompt.toKebabCase U (VString s)
  /\ refined_prompt.toCamelCase U (VString (a ++ s ++ b))
     = refined_prompt.toCamelCase U (VString s)
  /\ refined_prompt.toDotCase U (VString (a ++ s ++ b))
     = refined_prompt.toDotCase U (VString s)
  /\ few_shot_prompt.toCamelCase U (VString (a ++ s ++ b))
     = few_shot_prompt.toCamelCase U (VString s).
Proof.
  intros Ha Hb.
  unfold chain_prompt.toKebabCase, refined_prompt.toCamelCase,
    refined_prompt.toDotCase, few_shot_prompt.toCamelCase.
  rewrite !(trim_padding a s b Ha Hb). repeat split.
Qed.

Lemma surrounding_white_space_witness :
  chain_prompt.toKebabCase sample (VString ([9; 32] ++ js "fooBar" ++ [10; 0xA0]))
  = chain_prompt.toKebabCase sample (VString (js "fooBar")).
Proof.
  apply (surrounding_white_space sample [9; 32] (js "fooBar") [10; 0xA0]);
    repeat constructor.
Defined.

(** ** One converter after another *)

Lemma replace_char_free a b p : sep_free a p -> replace_char a b p = p.
Proof.
  unfold replace_char. induction 1 as [|c p Hc Hp IH]; [reflexivity|].
  simpl. rewrite Hc, IH. reflexivity.
Qed.

Lemma replace_char_join a b ps :
  Forall (sep_free a) ps -> replace_char a b (join [a] ps) = join [b] ps.
Proof.
  induction 1 as [|p r Hp Hr IH]; [reflexivity|].
  destruct r as [|p' r']; [apply replace_char_free, Hp|].
  rewrite !join_cons. unfold replace_char in *. rewrite map_app. cbn [map].
  rewrite Z.eqb_refl. fold (replace_char a b p). rewrite (replace_char_free a b p Hp).
  rewrite IH. reflexivity.
Qed.

Section Joined.
Variable U : Unicode.
Hypothesis laws : UnicodeLaws U.

Variable sep : Z.
Hypothesis sep_ascii : is_ascii sep.
Hypothesis sep_delimiter : isDelimiter U sep = true.

Lemma sep_class : isL U sep = false /\ isN U sep = false.
Proof.
  revert sep_delimiter. unfold isDelimiter.
  destruct (isL U sep), (isN U sep); simpl; try discriminate. auto.
Qed.

Lemma settled_pieces ts' :
  Forall (settled_token U) ts' ->
  Forall (fun p => wordy U p /\ p <> []) (map from_code_points ts').
Proof.
  intros Hts. apply Forall_forall. intros p Hp.
  apply in_map_iff in Hp. destruct Hp as (t & <- & Ht).
  rewrite Forall_forall in Hts. destruct (Hts t Ht) as ([Hne Hd] & _).
  split; [|apply from_code_points_not_nil, Hne].
  unfold wordy. rewrite (token_decodable U laws t Hd). exact Hd.
Qed.

Lemma normalized_joined ts' :
  Forall (settled_token U) ts' ->
  normalized U (from_code_points (join [sep] ts')) = join [sep] ts'.
Proof.
  intros Hts. apply (normalized_plain_text U laws).
  - apply (settled_plain U laws sep ts' sep_ascii Hts).
  - rewrite from_code_points_join by blia.
    apply (trim_pieces U laws), settled_pieces, Hts.
Qed.

(** The tokens of lower-cased tokens joined by a delimiter are these
    tokens. *)
Lemma kebab_tokens_joined ts' :
  Forall (settled_token U) ts' ->
  kebab_tokens U (from_code_points (join [sep] ts')) = ts'.
Proof.
  intros Hts. unfold kebab_tokens. rewrite (normalized_joined ts' Hts).
  rewrite (kebab_boundaries_no_upper U)
    by (apply (settled_no_upper U sep ts' sep_delimiter Hts)).
  apply (settled_tokens U sep ts' sep_delimiter Hts).
Qed.

Lemma refined_tokens_joined ts' :
  Forall (settled_token U) ts' -> Forall (uniform U) ts' ->
  refined_tokens U (from_code_points (join [sep] ts')) = ts'.
Proof.
  intros Hts Hu. unfold refined_tokens. rewrite (normalized_joined ts' Hts).
  destruct sep_class as [HL HN].
  rewrite (refined_boundaries_fixed U).
  - apply (settled_tokens U sep ts' sep_delimiter Hts).
  - apply (settled_no_upper U sep ts' sep_delimiter Hts).
  - apply no_adjacent_join.
    + intros a. unfold letter_number. rewrite HL, HN, andb_false_r. auto.
    + revert Hu. apply Forall_impl. intros t Ht. apply (uniform_no_adjacent U t Ht).
  - apply no_adjacent_join.
    + intros a. unfold number_letter. rewrite HL, HN, andb_false_r. auto.
    + revert Hu. apply Forall_impl. intros t Ht. apply (uniform_no_adjacent U t Ht).
Qed.

Lemma toKebabCase_joined ts' :
  Forall (settled_token U) ts' ->
  chain_prompt.toKebabCase U (VString (from_code_points (join [sep] ts')))
  = Return (from_code_points (join [HYPHEN] ts')).
Proof.
  intros Hts. rewrite (toKebabCase_output U laws), (kebab_tokens_joined ts' Hts).
  rewrite (settled_lowered U ts' Hts).
  rewrite from_code_points_join by reflexivity. reflexivity.
Qed.

Lemma toDotCase_joined ts' :
  Forall (settled_token U) ts' -> Forall (uniform U) ts' ->
  refined_prompt.toDotCase U (VString (from_code_points (join [sep] ts')))
  = Return (from_code_points (join [DOT] ts')).
Proof.
  intros Hts Hu. rewrite (toDotCase_output U laws), (refined_tokens_joined ts' Hts Hu).
  rewrite (settled_lowered U ts' Hts).
  rewrite from_code_points_join by reflexivity. reflexivity.
Qed.

Lemma replace_sep_joined b ts' :
  is_astral b = false -> Forall (settled_token U) ts' ->
  replace_char sep b (from_code_points (join [sep] ts'))
  = from_code_points (join [b] ts').
Proof.
  intros Hb Hts. rewrite !from_code_points_join by (try exact Hb; blia).
  apply replace_char_join.
  pose proof (pieces_sep_free U sep _ sep_ascii sep_delimiter
                (settled_pieces ts' Hts)) as H.
  revert H. apply Forall_impl. tauto.
Qed.
End Joined.

(** X7: on a string without unpaired surrogates toKebabCase and toDotCase
    undo each other's separator: toKebabCase applied to the output of
    toDotCase changes its dots to hyphens and nothing else, and toDotCase
    applied to that gives the output of toDotCase back. *)
Theorem kebab_after_dot (U : Unicode) (s : jsstring) :
  UnicodeLaws U -> well_formed s = true ->
  exists d,
    refined_prompt.toDotCase U (VString s) = Return d
    /\ chain_prompt.toKebabCase U (VString d) = Return (replace_char DOT HYPHEN d)
    /\ refined_prompt.toDotCase U (VString (replace_char DOT HYPHEN d)) = Return d.
Proof.
  intros laws Hs. destruct (toDotCase_settled U laws s Hs) as (ts' & E & Hts & Hu).
  assert (Hdot : is_ascii DOT) by (unfold DOT, is_ascii; lia).
  assert (Hhyp : is_ascii HYPHEN) by (unfold HYPHEN, is_ascii; lia).
  eexists. split; [exact E|].
  rewrite (replace_sep_joined U laws DOT Hdot (delimiter_dot U laws) HYPHEN ts'
             eq_refl Hts).
  split.
  - apply (toKebabCase_joined U laws DOT Hdot (delimiter_dot U laws) ts' Hts).
  - apply (toDotCase_joined U laws HYPHEN Hhyp (delimiter_hyphen U laws) ts' Hts Hu).
Qed.

Lemma kebab_after_dot_witness :
  well_formed (js "version2alpha XMLHttp") = true
  /\ exists d,
       refined_prompt.toDotCase sample (VString (js "version2alpha XMLHttp")) = Return d
       /\ chain_prompt.toKebabCase sample (VString d) = Return (replace_char DOT HYPHEN d)
       /\ refined_prompt.toDotCase sample (VString (replace_char DOT HYPHEN d)) = Return d.
Proof.
  split; [reflexivity|].
  exact (kebab_after_dot sample (js "version2alpha XMLHttp") SampleLaws.sample_laws eq_refl).
Defined.

Lemma ascii_capitalize_lower t :
  ascii_capitalize (map ascii_lower t) = ascii_capitalize t.
Proof.
  destruct t as [|c r]; [reflexivity|]. unfold ascii_capitalize. cbn [map].
  rewrite BasicLatinLaws.lower_twice, ascii_upper_lower.
  replace (is_ascii_digit (ascii_lower c)) with (is_ascii_digit c).
  - destruct (is_ascii_digit c) eqn:E; [|reflexivity].
    unfold ascii_lower. replace (is_ascii_upper c) with false by (symmetry; blia).
    reflexivity.
  - unfold ascii_lower. destruct (is_ascii_upper c) eqn:E; [|reflexivity].
    transitivity false; [|symmetry]; blia.
Qed.

Lemma ascii_camel_lower ts :
  ascii_camel (map (map ascii_lower) ts) = ascii_camel ts.
Proof.
  destruct ts as [|t0 r]; [reflexivity|]. unfold ascii_camel. cbn [map].
  rewrite BasicLatinLaws.lower_twice. f_equal. rewrite map_map. f_equal.
  apply map_ext. intros t. apply ascii_capitalize_lower.
Qed.

Section AsciiTokens.
Variable U : Unicode.
Hypothesis laws : UnicodeLaws U.

Variable s : jsstring.
Hypothesis ascii : Forall is_ascii s.

Lemma refined_tokens_chars :
  Forall (fun t => token (isDelimiter U) t /\ Forall is_ascii t /\ uniform U t)
    (refined_tokens U s).
Proof.
  pose proof (tokens_are_tokens (isDelimiter U)
                (refined_boundaries U (normalized U s))) as Ht.
  fold (refined_tokens U s) in Ht.
  apply Forall_forall. intros t Hin. rewrite Forall_forall in Ht.
  split; [apply Ht, Hin|]. split.
  - apply Forall_forall. intros c Hc.
    pose proof (tokens_In _ _ _ _ Hin Hc) as Hn.
    destruct (inserted_In _ _ _ c (refined_boundaries_inserted U _) Hn) as [H| ->];
      [|unfold SPACE, is_ascii; lia].
    rewrite (normalized_ascii U laws s ascii) in H.
    pose proof (trim_Forall _ _ ascii) as Ha. rewrite Forall_forall in Ha.
    apply Ha, H.
  - apply (boundary_tokens_uniform U laws _ t Hin).
Qed.

Lemma ascii_token_encoding ts :
  Forall (fun t => token (isDelimiter U) t /\ Forall is_ascii t /\ uniform U t) ts ->
  map from_code_points ts = ts.
Proof.
  induction 1 as [|t r (_ & Ha & _) Hr IH]; [reflexivity|].
  simpl. rewrite (from_code_points_bmp t) by (apply ascii_bmp, Ha).
  rewrite IH. reflexivity.
Qed.

Lemma lowered_ascii_tokens ts :
  Forall (fun t => token (isDelimiter U) t /\ Forall is_ascii t /\ uniform U t) ts ->
  lowered_tokens U ts = map (map ascii_lower) ts
  /\ Forall (settled_token U) (map (map ascii_lower) ts)
  /\ Forall (uniform U) (map (map ascii_lower) ts)
  /\ map from_code_points (map (map ascii_lower) ts) = map (map ascii_lower) ts.
Proof.
  induction 1 as [|t r ([Hne Hd] & Ha & Hu) Hr (IH1 & IH2 & IH3 & IH4)];
    [repeat split; constructor|].
  assert (Hl : Forall is_ascii (map ascii_lower t)).
  { apply Forall_forall. intros c Hc. apply in_map_iff in Hc.
    destruct Hc as (c0 & <- & H0). rewrite Forall_forall in Ha.
    apply ascii_lower_ascii, Ha, H0. }
  assert (Henc : from_code_points (map ascii_lower t) = map ascii_lower t)
    by (apply from_code_points_bmp, ascii_bmp, Hl).
  assert (Hcls : forall c, In c t ->
            isDelimiter U (ascii_lower c) = false
            /\ isLu U (ascii_lower c) = false
            /\ isL U (ascii_lower c) = isL U c /\ isN U (ascii_lower c) = isN U c).
  { intros c Hc. rewrite Forall_forall in Ha, Hd.
    pose proof (Ha c Hc) as Hac. pose proof (Hd c Hc) as Hdc.
    destruct (ascii_classes U laws c Hac) as (E1 & E2 & E3 & E4 & _ & _ & E7).
    destruct (ascii_classes U laws _ (ascii_lower_ascii c Hac))
      as (F1 & F2 & F3 & F4 & _ & _ & F7).
    rewrite E7 in Hdc. apply negb_false_iff in Hdc.
    rewrite F7, F2, F1, F4, E1, E4.
    unfold ascii_lower, is_ascii_letter, is_ascii_alnum in *.
    destruct (is_ascii_upper c) eqn:Eu.
    - replace (is_ascii_upper (c + 32)) with false by (symmetry; blia).
      replace (is_ascii_lower (c + 32)) with true by (symmetry; blia).
      replace (is_ascii_digit (c + 32)) with false by (symmetry; blia).
      replace (is_ascii_digit c) with false by (symmetry; blia).
      repeat split.
    - rewrite Eu. rewrite Hdc. repeat split. }
  split; [|split; [|split]].
  - unfold lowered_tokens in *. cbn [map]. rewrite IH1.
    rewrite (from_code_points_bmp t) by (apply ascii_bmp, Ha).
    rewrite (lower_ascii U laws t Ha). reflexivity.
  - cbn [map]. constructor; [|exact IH2].
    split; [|split; [|split]].
    + split; [destruct t; [congruence | discriminate]|].
      apply Forall_forall. intros c Hc. apply in_map_iff in Hc.
      destruct Hc as (c0 & <- & H0). apply (Hcls c0 H0).
    + revert Hl. apply Forall_impl. apply (ascii_plain U laws).
    + apply Forall_forall. intros c Hc. apply in_map_iff in Hc.
      destruct Hc as (c0 & <- & H0). apply (Hcls c0 H0).
    + rewrite Henc, (lower_ascii U laws _ Hl). apply BasicLatinLaws.lower_twice.
  - cbn [map]. constructor; [|exact IH3].
    destruct Hu as [Hu|Hu]; [left | right]; apply Forall_forall; intros c Hc;
      apply in_map_iff in Hc; destruct Hc as (c0 & <- & H0);
      rewrite Forall_forall in Hu; destruct (Hcls c0 H0) as (_ & _ & E1 & E2);
      rewrite ?E1, ?E2; apply Hu, H0.
  - cbn [map]. rewrite Henc, IH4. reflexivity.
Qed.

Lemma toCamelCase_ascii_tokens :
  refined_prompt.toCamelCase U (VString s) = Return (ascii_camel (refined_tokens U s)).
Proof.
  rewrite (toCamelCase_tokens U laws).
  pose proof refined_tokens_chars as Ht.
  rewrite (ascii_token_encoding _ Ht).
  destruct Ht as [|t0 r (_ & H0 & _) Hr]; [reflexivity|].
  unfold refined_prompt.lowerFirst, ascii_camel.
  rewrite (lower_ascii U laws t0 H0), join_nil_concat. do 3 f_equal.
  clear H0. induction Hr as [|t r' (_ & Ha & _) Hr' IH]; [reflexivity|].
  simpl. rewrite (capitalize_ascii_word U laws t Ha), IH. reflexivity.
Qed.
End AsciiTokens.

(** X8: on ASCII input toCamelCase gives the same result on the output of
    toDotCase as on the input itself: the dot.case form keeps all that
    toCamelCase reads. *)
Theorem camel_after_dot (U : Unicode) (s : jsstring) :
  UnicodeLaws U -> Forall is_ascii s ->
  exists d,
    refined_prompt.toDotCase U (VString s) = Return d
    /\ refined_prompt.toCamelCase U (VString d)
       = refined_prompt.toCamelCase U (VString s).
Proof.
  intros laws Hs.
  destruct (lowered_ascii_tokens U laws _ (refined_tokens_chars U laws s Hs))
    as (E1 & Hts & Hu & E4).
  set (ts' := map (map ascii_lower) (refined_tokens U s)) in *.
  assert (Hdot : is_ascii DOT) by (unfold DOT, is_ascii; lia).
  assert (Ed : refined_prompt.toDotCase U (VString s)
               = Return (from_code_points (join [DOT] ts'))).
  { rewrite (toDotCase_output U laws), E1.
    rewrite from_code_points_join by reflexivity. rewrite E4. reflexivity. }
  eexists. split; [exact Ed|].
  assert (Ha : Forall is_ascii (from_code_points (join [DOT] ts'))).
  { rewrite from_code_points_join by reflexivity. rewrite E4.
    apply Forall_forall. intros c Hc.
    destruct (In_join _ _ _ Hc) as [->|(w & Hw & Hcw)]; [exact Hdot|].
    unfold ts' in Hw. apply in_map_iff in Hw. destruct Hw as (t & <- & Ht).
    apply in_map_iff in Hcw. destruct Hcw as (c0 & <- & H0).
    apply ascii_lower_ascii.
    pose proof (refined_tokens_chars U laws s Hs) as Hch. rewrite Forall_forall in Hch.
    destruct (Hch t Ht) as (_ & Hta & _). rewrite Forall_forall in Hta. apply Hta, H0. }
  rewrite (toCamelCase_ascii_tokens U laws _ Ha).
  rewrite (refined_tokens_joined U laws DOT Hdot (delimiter_dot U laws) ts' Hts Hu).
  rewrite (toCamelCase_ascii_tokens U laws s Hs).
  unfold ts'. rewrite ascii_camel_lower. reflexivity.
Qed.

Lemma camel_after_dot_witness :
  exists d,
    refined_prompt.toDotCase sample (VString (js "Hello_world v2Beta")) = Return d
    /\ refined_prompt.toCamelCase sample (VString d)
       = refined_prompt.toCamelCase sample (VString (js "Hello_world v2Beta")).
Proof.
  apply (camel_after_dot sample (js "Hello_world v2Beta") SampleLaws.sample_laws).
  each_char.
Defined.

(** ** Identifiers made of lowercase words *)

Lemma no_adjacent_no_first (p q : Z -> bool) s :
  Forall (fun c => p c = false) s -> no_adjacent (fun a b => p a && q b) s = true.
Proof.
  induction 1 as [|a t Ha Ht IH]; [reflexivity|].
  cbn [no_adjacent]. rewrite IH, andb_true_r.
  destruct t; [reflexivity|]. simpl. rewrite Ha. reflexivity.
Qed.

Lemma no_triple_no_pair (up lo : Z -> bool) s :
  no_adjacent (fun a b => up a && up b) s = true ->
  no_triple (fun a b c => up a && up b && lo c) s = true.
Proof.
  induction s as [|a t IH]; [reflexivity|].
  cbn [no_adjacent no_triple]. rewrite !andb_true_iff. intros [Ha Ht].
  split; [|apply IH, Ht].
  destruct t as [|b [|c r]]; try reflexivity. simpl in *.
  apply negb_true_iff in Ha. rewrite Ha. reflexivity.
Qed.

(** A camelCase text: a word of [low] elements, then blocks of one [up]
    element and a non-empty word of [low] elements. *)
Section CamelText.
Variables low up : Z -> Prop.

Section Insert.
Variables (p q : Z -> bool) (sep : Z).
Hypothesis low_class : forall c, low c -> p c = true /\ q c = false.
Hypothesis up_class : forall c, up c -> p c = false /\ q c = true.

Lemma insert_sep_low w : Forall low w -> insert_sep p q sep w = w.
Proof.
  induction 1 as [|a t Ha Ht IH]; [reflexivity|].
  destruct Ht as [|b r Hb Hr]; [reflexivity|].
  rewrite insert_sep_cons, IH. rewrite (proj2 (low_class b Hb)), andb_false_r.
  reflexivity.
Qed.

Lemma insert_sep_up X tail :
  up X -> insert_sep p q sep (X :: tail) = X :: insert_sep p q sep tail.
Proof.
  intros HX. destruct tail as [|b r]; [reflexivity|].
  rewrite insert_sep_cons, (proj1 (up_class X HX)). reflexivity.
Qed.

Lemma insert_sep_low_up w X tail :
  w <> [] -> Forall low w -> up X ->
  insert_sep p q sep (w ++ X :: tail) = w ++ sep :: insert_sep p q sep (X :: tail).
Proof.
  intros Hne Hw HX. induction Hw as [|a t Ha Ht IH]; [congruence|].
  destruct t as [|b r].
  - simpl app. rewrite insert_sep_cons.
    rewrite (proj1 (low_class a Ha)), (proj2 (up_class X HX)). reflexivity.
  - change ((a :: b :: r) ++ X :: tail) with (a :: b :: (r ++ X :: tail)).
    rewrite insert_sep_cons.
    inversion Ht as [|? ? Hb _]; subst.
    rewrite (proj2 (low_class b Hb)), andb_false_r.
    change (b :: r ++ X :: tail) with ((b :: r) ++ X :: tail).
    rewrite IH by discriminate. reflexivity.
Qed.

Lemma insert_sep_camel bs : forall w,
  w <> [] -> Forall low w -> Forall (cap_block low up) bs ->
  insert_sep p q sep (w ++ List.concat bs) = join [sep] (w :: bs).
Proof.
  induction bs as [|b bs IH]; intros w Hne Hw Hbs.
  - simpl. rewrite app_nil_r. apply insert_sep_low, Hw.
  - inversion Hbs as [|? ? (X & r & -> & HX & Hr & Hlow) Hbs']; subst.
    cbn [List.concat]. change ((X :: r) ++ List.concat bs) with (X :: (r ++ List.concat bs)).
    rewrite (insert_sep_low_up w X _ Hne Hw HX), (insert_sep_up X _ HX).
    rewrite (IH r Hr Hlow Hbs'). rewrite join_cons.
    destruct bs as [|b' bs']; reflexivity.
Qed.
End Insert.

Lemma no_adjacent_camel (R : Z -> Z -> bool) bs : forall w,
  (forall a b, low a \/ low b -> R a b = false) ->
  w <> [] -> Forall low w -> Forall (cap_block low up) bs ->
  no_adjacent R (w ++ List.concat bs) = true.
Proof.
  intros w HR. revert w. induction bs as [|b bs IH]; intros w Hne Hw Hbs.
  - simpl. rewrite app_nil_r. clear Hne. induction Hw as [|a t Ha Ht IHw]; [reflexivity|].
    cbn [no_adjacent]. rewrite IHw, andb_true_r. destruct t; [reflexivity|].
    simpl. rewrite (HR a z) by tauto. reflexivity.
  - inversion Hbs as [|? ? (X & r & -> & HX & Hr & Hlow) Hbs']; subst.
    pose proof (IH r Hr Hlow Hbs') as Hrest.
    cbn [List.concat]. change ((X :: r) ++ List.concat bs) with (X :: (r ++ List.concat bs)).
    assert (HX' : no_adjacent R (X :: r ++ List.concat bs) = true).
    { cbn [no_adjacent]. rewrite Hrest, andb_true_r.
      destruct r as [|c r']; [congruence|]. inversion Hlow; subst.
      simpl. rewrite (HR X c) by tauto. reflexivity. }
    clear Hne. induction Hw as [|a t Ha Ht IHw]; [exact HX'|].
    simpl app. cbn [no_adjacent]. rewrite IHw, andb_true_r.
    destruct t; simpl; rewrite HR by tauto; reflexivity.
Qed.

Lemma camel_text_chars (P : Z -> Prop) bs w :
  (forall c, low c -> P c) -> (forall c, up c -> P c) ->
  Forall low w -> Forall (cap_block low up) bs -> Forall P (w ++ List.concat bs).
Proof.
  intros Hl Hu Hw Hbs. apply Forall_app. split.
  - revert Hw. apply Forall_impl, Hl.
  - induction Hbs as [|b bs (X & r & -> & HX & _ & Hlow) _ IH]; [constructor|].
    cbn [List.concat]. apply Forall_app. split; [|exact IH].
    constructor; [apply Hu, HX|]. revert Hlow. apply Forall_impl, Hl.
Qed.
End CamelText.

Lemma capitalize_block w :
  lowercase_word w -> (2 <= List.length w)%nat ->
  cap_block ascii_low ascii_up (ascii_capitalize w)
  /\ map ascii_lower (ascii_capitalize w) = w
  /\ ascii_capitalize (ascii_capitalize w) = ascii_capitalize w.
Proof.
  intros [Hne Hw] Hlen. destruct w as [|c r]; [congruence|].
  inversion Hw as [|? ? Hc Hr]; subst.
  assert (Er : map ascii_lower r = r).
  { apply (map_id_Forall _ (fun c => is_ascii_lower c = true)); [|exact Hr].
    intros d Hd. unfold ascii_lower.
    replace (is_ascii_upper d) with false by (symmetry; blia). reflexivity. }
  assert (Eu : ascii_upper c = c - 32) by (unfold ascii_upper; rewrite Hc; reflexivity).
  assert (Ec : ascii_capitalize (c :: r) = (c - 32) :: r).
  { unfold ascii_capitalize.
    replace (is_ascii_digit c) with false by (symmetry; blia).
    rewrite Er, Eu. reflexivity. }
  rewrite Ec. split; [|split].
  - exists (c - 32), r. split; [reflexivity|]. split; [unfold ascii_up; blia|].
    split; [destruct r; [simpl in Hlen; lia | discriminate] | exact Hr].
  - cbn [map]. rewrite Er. unfold ascii_lower.
    replace (is_ascii_upper (c - 32)) with true by (symmetry; blia).
    f_equal. lia.
  - unfold ascii_capitalize.
    replace (is_ascii_digit (c - 32)) with false by (symmetry; blia).
    rewrite Er. unfold ascii_upper.
    replace (is_ascii_lower (c - 32)) with false by (symmetry; blia). reflexivity.
Qed.

Section Words.
Variable U : Unicode.
Hypothesis laws : UnicodeLaws U.

Lemma low_classes c :
  ascii_low c ->
  is_ascii c /\ isLl U c = true /\ isLu U c = false /\ isL U c = true
  /\ isN U c = false /\ isDelimiter U c = false.
Proof.
  unfold ascii_low. intros Hc. assert (Ha : is_ascii c) by blia.
  destruct (ascii_classes U laws c Ha) as (E1 & E2 & E3 & E4 & _ & _ & E7).
  rewrite E1, E2, E3, E4, E7. unfold is_ascii_letter, is_ascii_alnum. rewrite Hc.
  replace (is_ascii_upper c) with false by (symmetry; blia).
  replace (is_ascii_digit c) with false by (symmetry; blia).
  split; [exact Ha|]. repeat split.
Qed.

Lemma up_classes c :
  ascii_up c ->
  is_ascii c /\ isLl U c = false /\ isLu U c = true /\ isL U c = true
  /\ isN U c = false /\ isDelimiter U c = false.
Proof.
  unfold ascii_up. intros Hc. assert (Ha : is_ascii c) by blia.
  destruct (ascii_classes U laws c Ha) as (E1 & E2 & E3 & E4 & _ & _ & E7).
  rewrite E1, E2, E3, E4, E7. unfold is_ascii_letter, is_ascii_alnum. rewrite Hc.
  replace (is_ascii_lower c) with false by (symmetry; blia).
  replace (is_ascii_digit c) with false by (symmetry; blia).
  split; [exact Ha|]. repeat split.
Qed.

(** Words of lowercase letters are lower-cased tokens. *)
Lemma lowercase_words_settled ws :
  Forall lowercase_word ws ->
  Forall (settled_token U) ws /\ Forall (uniform U) ws
  /\ map from_code_points ws = ws /\ map (map ascii_lower) ws = ws.
Proof.
  induction 1 as [|w r [Hne Hw] Hr (IH1 & IH2 & IH3 & IH4)];
    [repeat split; constructor|].
  assert (Ha : Forall is_ascii w)
    by (revert Hw; apply Forall_impl; intros c Hc; apply (low_classes c Hc)).
  assert (El : map ascii_lower w = w).
  { apply (map_id_Forall _ (fun c => is_ascii_lower c = true)); [|exact Hw].
    intros d Hd. unfold ascii_lower.
    replace (is_ascii_upper d) with false by (symmetry; blia). reflexivity. }
  assert (Ee : from_code_points w = w) by (apply from_code_points_bmp, ascii_bmp, Ha).
  repeat split.
  - constructor; [|exact IH1]. split; [|split; [|split]].
    + split; [exact Hne|]. revert Hw. apply Forall_impl. intros c Hc.
      apply (low_classes c Hc).
    + revert Ha. apply Forall_impl. apply (ascii_plain U laws).
    + revert Hw. apply Forall_impl. intros c Hc. apply (low_classes c Hc).
    + rewrite Ee, (lower_ascii U laws w Ha). exact El.
  - constructor; [|exact IH2]. left. revert Hw. apply Forall_impl.
    intros c Hc. apply (low_classes c Hc).
  - cbn [map]. rewrite Ee, IH3. reflexivity.
  - cbn [map]. rewrite El, IH4. reflexivity.
Qed.

Variables (w0 : jsstring) (rest : list jsstring).
Hypothesis first_word : lowercase_word w0.
Hypothesis later_words : Forall lowercase_word rest.
Hypothesis two_letters : Forall (fun w => (2 <= List.length w)%nat) rest.

Let blocks := map ascii_capitalize rest.

Lemma blocks_cap : Forall (cap_block ascii_low ascii_up) blocks.
Proof.
  unfold blocks. clear first_word.
  induction later_words as [|w r Hw Hr IH]; [constructor|].
  inversion two_letters; subst. cbn [map].
  constructor; [apply (capitalize_block w Hw); assumption | apply IH; assumption].
Qed.

Lemma blocks_lower : map (map ascii_lower) blocks = rest.
Proof.
  unfold blocks. clear first_word.
  induction later_words as [|w r Hw Hr IH]; [reflexivity|].
  inversion two_letters; subst. cbn [map].
  rewrite (proj1 (proj2 (capitalize_block w Hw ltac:(assumption)))).
  rewrite IH by assumption. reflexivity.
Qed.

Lemma blocks_capitalize : map ascii_capitalize blocks = blocks.
Proof.
  unfold blocks. clear first_word.
  induction later_words as [|w r Hw Hr IH]; [reflexivity|].
  inversion two_letters; subst. cbn [map].
  rewrite (proj2 (proj2 (capitalize_block w Hw ltac:(assumption)))).
  rewrite IH by assumption. reflexivity.
Qed.

Lemma camel_of_words : ascii_camel (w0 :: rest) = w0 ++ List.concat blocks.
Proof.
  unfold ascii_camel. fold blocks. f_equal.
  destruct (lowercase_words_settled [w0] ltac:(constructor; [exact first_word | constructor]))
    as (_ & _ & _ & E).
  injection E as E. exact E.
Qed.

Let text := w0 ++ List.concat blocks.

Lemma text_letters :
  Forall (fun c => is_ascii c /\ isL U c = true /\ isN U c = false
                   /\ isDelimiter U c = false) text.
Proof.
  apply (camel_text_chars ascii_low ascii_up); [| |apply first_word|apply blocks_cap].
  - intros c Hc. destruct (low_classes c Hc) as (H1 & _ & _ & H2 & H3 & H4). auto.
  - intros c Hc. destruct (up_classes c Hc) as (H1 & _ & _ & H2 & H3 & H4). auto.
Qed.

Lemma text_ascii : Forall is_ascii text.
Proof. pose proof text_letters as H. revert H. apply Forall_impl. tauto. Qed.

Lemma normalized_text : normalized U text = text.
Proof.
  rewrite (normalized_ascii U laws text text_ascii).
  apply (trim_join SPACE [text]). constructor; [|constructor]. split.
  - unfold text. destruct first_word as [Hne _]. destruct w0; [congruence | discriminate].
  - pose proof text_letters as H. revert H. apply Forall_impl. intros c (Ha & _ & _ & Hd).
    destruct (isWhiteSpace c) eqn:E; [|reflexivity].
    rewrite (category_space U laws c E) in Hd. discriminate.
Qed.

Lemma text_no_letter_number :
  no_adjacent (letter_number U) text = true
  /\ no_adjacent (number_letter U) text = true.
Proof.
  pose proof text_letters as H. split.
  - apply no_adjacent_no_second. revert H. apply Forall_impl. tauto.
  - apply no_adjacent_no_first. revert H. apply Forall_impl. tauto.
Qed.

Lemma text_no_acronym : no_acronym U text = true.
Proof.
  apply no_triple_no_pair.
  apply (no_adjacent_camel ascii_low ascii_up);
    [|apply first_word|apply first_word|apply blocks_cap].
  intros a b [H|H].
  - destruct (low_classes _ H) as (_ & _ & -> & _). reflexivity.
  - destruct (low_classes _ H) as (_ & _ & -> & _). apply andb_false_r.
Qed.

Lemma tokens_of_text sep :
  isDelimiter U sep = true ->
  tokens (isDelimiter U)
    (insert_sep (fun c => isLl U c || isN U c) (isLu U) sep text)
  = w0 :: blocks.
Proof.
  intros Hsep. unfold text.
  rewrite (insert_sep_camel ascii_low ascii_up _ _ sep);
    [| | |apply first_word|apply first_word|apply blocks_cap].
  - apply tokens_join; [exact Hsep|].
    constructor.
    + split; [apply first_word|]. destruct first_word as [_ Hw]. revert Hw.
      apply Forall_impl. intros c Hc. apply (low_classes c Hc).
    + pose proof blocks_cap as Hb. revert Hb. apply Forall_impl.
      intros b (X & r & -> & HX & _ & Hlow). split; [discriminate|].
      constructor; [apply (up_classes X HX)|].
      revert Hlow. apply Forall_impl. intros c Hc. apply (low_classes c Hc).
  - intros c Hc. destruct (low_classes c Hc) as (_ & -> & -> & _). auto.
  - intros c Hc. destruct (up_classes c Hc) as (_ & -> & -> & _ & -> & _). auto.
Qed.

Lemma kebab_tokens_text : kebab_tokens U text = w0 :: blocks.
Proof.
  unfold kebab_tokens. rewrite normalized_text.
  destruct text_no_letter_number as [H1 H2].
  rewrite (kebab_boundaries_simple U laws text H2 text_no_acronym).
  apply tokens_of_text, (delimiter_hyphen U laws).
Qed.

Lemma refined_tokens_text : refined_tokens U text = w0 :: blocks.
Proof.
  unfold refined_tokens. rewrite normalized_text.
  destruct text_no_letter_number as [H1 H2].
  rewrite (refined_boundaries_simple U laws text H1 H2).
  apply tokens_of_text, (delimiter_space U laws).
Qed.

Lemma lowered_text_tokens : lowered_tokens U (w0 :: blocks) = w0 :: rest.
Proof.
  assert (Hall : Forall (fun t => Forall is_ascii t) (w0 :: blocks)).
  { constructor.
    - destruct first_word as [_ Hw]. revert Hw. apply Forall_impl.
      intros c Hc. apply (low_classes c Hc).
    - pose proof blocks_cap as Hb. revert Hb. apply Forall_impl.
      intros b (X & r & -> & HX & _ & Hlow).
      constructor; [apply (up_classes X HX)|].
      revert Hlow. apply Forall_impl. intros c Hc. apply (low_classes c Hc). }
  assert (E : lowered_tokens U (w0 :: blocks) = map (map ascii_lower) (w0 :: blocks)).
  { unfold lowered_tokens. induction Hall as [|t r Ht Hr IH]; [reflexivity|].
    cbn [map]. rewrite IH, (from_code_points_bmp t) by (apply ascii_bmp, Ht).
    rewrite (lower_ascii U laws t Ht). reflexivity. }
  rewrite E. cbn [map]. rewrite blocks_lower. f_equal.
  destruct (lowercase_words_settled [w0] ltac:(constructor; [exact first_word | constructor]))
    as (_ & _ & _ & E0).
  injection E0 as E0. exact E0.
Qed.

Lemma kebab_of_camel :
  chain_prompt.toKebabCase U (VString (ascii_camel (w0 :: rest)))
  = Return (join [HYPHEN] (w0 :: rest)).
Proof.
  rewrite camel_of_words, (toKebabCase_output U laws). fold text.
  rewrite kebab_tokens_text, lowered_text_tokens. reflexivity.
Qed.

Lemma dot_of_camel :
  refined_prompt.toDotCase U (VString (ascii_camel (w0 :: rest)))
  = Return (join [DOT] (w0 :: rest)).
Proof.
  rewrite camel_of_words, (toDotCase_output U laws). fold text.
  rewrite refined_tokens_text, lowered_text_tokens. reflexivity.
Qed.

Lemma camel_of_camel :
  refined_prompt.toCamelCase U (VString (ascii_camel (w0 :: rest)))
  = Return (ascii_camel (w0 :: rest)).
Proof.
  rewrite camel_of_words. fold text.
  rewrite (toCamelCase_ascii_tokens U laws text text_ascii), refined_tokens_text.
  unfold ascii_camel, text. rewrite blocks_capitalize. f_equal. f_equal.
  destruct (lowercase_words_settled [w0] ltac:(constructor; [exact first_word | constructor]))
    as (_ & _ & _ & E0).
  injection E0 as E0. exact E0.
Qed.
End Words.

Lemma camel_part_lowercase w :
  lowercase_word w -> ascii_camel_part w = ascii_capitalize w.
Proof.
  intros [Hne Hw]. destruct w as [|c r]; [congruence|].
  unfold ascii_camel_part, ascii_capitalize. cbn [map].
  inversion Hw as [|? ? Hc _]; subst.
  replace (is_ascii_digit c) with false by (symmetry; blia).
  rewrite ascii_upper_lower. reflexivity.
Qed.

Lemma map_camel_part_lowercase r :
  Forall lowercase_word r -> map ascii_camel_part r = map ascii_capitalize r.
Proof.
  induction 1 as [|w r Hw Hr IH]; [reflexivity|].
  cbn [map]. rewrite (camel_part_lowercase w Hw), IH. reflexivity.
Qed.

Section Separators.
Variable U : Unicode.
Hypothesis laws : UnicodeLaws U.

Variable sep : Z.
Hypothesis sep_ascii : is_ascii sep.
Hypothesis sep_not_alnum : is_ascii_alnum sep = false.

Variable ws : list jsstring.
Hypothesis words : Forall lowercase_word ws.

Lemma sep_is_delimiter : isDelimiter U sep = true.
Proof. rewrite (ascii_delimiter U laws sep sep_ascii), sep_not_alnum. reflexivity. Qed.

Lemma joined_encoding b :
  is_ascii b -> from_code_points (join [b] ws) = join [b] ws.
Proof.
  intros Hb. rewrite from_code_points_join by blia.
  destruct (lowercase_words_settled U laws ws words) as (_ & _ & -> & _). reflexivity.
Qed.

Lemma joined_ascii : Forall is_ascii (join [sep] ws).
Proof.
  apply Forall_forall. intros c Hc.
  destruct (In_join _ _ _ Hc) as [->|(w & Hw & Hcw)]; [exact sep_ascii|].
  pose proof words as H. rewrite Forall_forall in H. destruct (H w Hw) as [_ Hl].
  rewrite Forall_forall in Hl. apply (low_classes U laws c (Hl c Hcw)).
Qed.

Lemma kebab_of_joined :
  chain_prompt.toKebabCase U (VString (join [sep] ws)) = Return (join [HYPHEN] ws).
Proof.
  destruct (lowercase_words_settled U laws ws words) as (Hts & _).
  rewrite <- (joined_encoding sep sep_ascii).
  rewrite <- (joined_encoding HYPHEN ltac:(unfold HYPHEN, is_ascii; lia)).
  apply (toKebabCase_joined U laws sep sep_ascii sep_is_delimiter ws Hts).
Qed.

Lemma dot_of_joined :
  refined_prompt.toDotCase U (VString (join [sep] ws)) = Return (join [DOT] ws).
Proof.
  destruct (lowercase_words_settled U laws ws words) as (Hts & Hu & _).
  rewrite <- (joined_encoding sep sep_ascii).
  rewrite <- (joined_encoding DOT ltac:(unfold DOT, is_ascii; lia)).
  apply (toDotCase_joined U laws sep sep_ascii sep_is_delimiter ws Hts Hu).
Qed.

Lemma camel_of_joined :
  refined_prompt.toCamelCase U (VString (join [sep] ws)) = Return (ascii_camel ws).
Proof.
  destruct (lowercase_words_settled U laws ws words) as (Hts & Hu & _).
  rewrite (toCamelCase_ascii_tokens U laws _ joined_ascii).
  rewrite <- (joined_encoding sep sep_ascii).
  rewrite (refined_tokens_joined U laws sep sep_ascii sep_is_delimiter ws Hts Hu).
  reflexivity.
Qed.

Lemma few_shot_of_joined :
  few_shot_prompt.toCamelCase U (VString (join [sep] ws)) = Return (ascii_camel ws).
Proof.
  rewrite (few_shot_ascii U laws). f_equal. unfold ascii_few_shot.
  assert (Htrim : trim (join [sep] ws) = join [sep] ws).
  { apply trim_join. pose proof words as H. revert H. apply Forall_impl.
    intros w [Hne Hw]. split; [exact Hne|]. revert Hw. apply Forall_impl.
    intros c Hc. unfold isWhiteSpace. blia. }
  rewrite Htrim. unfold ascii_words.
  rewrite tokens_join.
  2:{ rewrite sep_not_alnum. reflexivity. }
  2:{ pose proof words as H. revert H. apply Forall_impl.
      intros w [Hne Hw]. split; [exact Hne|]. revert Hw. apply Forall_impl.
      intros c Hc. apply negb_false_iff. blia. }
  pose proof words as H.
  destruct (lowercase_words_settled U laws ws words) as (_ & _ & _ & El).
  destruct H as [|w0 r H0 Hr]; [reflexivity|].
  cbn [map] in El. injection El as E0 Er.
  destruct r as [|w1 r'].
  - unfold ascii_camel. simpl. rewrite app_nil_r.
    destruct w0 as [|c t]; [reflexivity|]. cbn [charAt0 slice1 tl map app].
    cbn [map] in E0. injection E0 as Ec Et. rewrite Ec, Et. reflexivity.
  - unfold ascii_camel. f_equal. f_equal.
    apply (map_camel_part_lowercase _ Hr).
Qed.
End Separators.

(** X9: lowercase words joined by any ASCII delimiter are converted to the
    same words in the target style, by every converter: toKebabCase joins
    them by hyphens, toDotCase by dots, and both toCamelCase capitalise all
    but the first and concatenate them. *)
Theorem delimiter_separated_words (U : Unicode) (sep : Z) (ws : list jsstring) :
  UnicodeLaws U -> is_ascii sep -> is_ascii_alnum sep = false ->
  Forall lowercase_word ws ->
  chain_prompt.toKebabCase U (VString (join [sep] ws)) = Return (join [HYPHEN] ws)
  /\ refined_prompt.toDotCase U (VString (join [sep] ws)) = Return (join [DOT] ws)
  /\ refined_prompt.toCamelCase U (VString (join [sep] ws)) = Return (ascii_camel ws)
  /\ few_shot_prompt.toCamelCase U (VString (join [sep] ws)) = Return (ascii_camel ws).
Proof.
  intros laws Ha Hn Hws. repeat apply conj.
  - apply (kebab_of_joined U laws sep Ha Hn ws Hws).
  - apply (dot_of_joined U laws sep Ha Hn ws Hws).
  - apply (camel_of_joined U laws sep Ha Hn ws Hws).
  - apply (few_shot_of_joined U laws sep Hn ws Hws).
Qed.

Lemma delimiter_separated_words_witness :
  chain_prompt.toKebabCase sample (VString (js "user_profile_id"))
  = Return (js "user-profile-id")
  /\ refined_prompt.toDotCase sample (VString (js "user_profile_id"))
     = Return (js "user.profile.id")
  /\ refined_prompt.toCamelCase sample (VString (js "user_profile_id"))
     = Return (js "userProfileId")
  /\ few_shot_prompt.toCamelCase sample (VString (js "user_profile_id"))
     = Return (js "userProfileId").
Proof.
  apply (delimiter_separated_words sample 95 [js "user"; js "profile"; js "id"]
           SampleLaws.sample_laws).
  - unfold is_ascii. lia.
  - reflexivity.
  - repeat constructor; try discriminate.
Defined.

(** X10: a camelCase identifier made of lowercase words, each word after the
    first of two letters or more, is taken apart into these words again:
    toKebabCase and toDotCase of it are the words joined by hyphens and by
    dots, and toCamelCase leaves it unchanged.  With X9, toKebabCase undoes
    toCamelCase on such words and toCamelCase undoes toKebabCase. *)
Theorem camel_identifier_words (U : Unicode) (w0 : jsstring) (rest : list jsstring) :
  UnicodeLaws U -> lowercase_word w0 -> Forall lowercase_word rest ->
  Forall (fun w => (2 <= List.length w)%nat) rest ->
  chain_prompt.toKebabCase U (VString (ascii_camel (w0 :: rest)))
  = Return (join [HYPHEN] (w0 :: rest))
  /\ refined_prompt.toDotCase U (VString (ascii_camel (w0 :: rest)))
     = Return (join [DOT] (w0 :: rest))
  /\ refined_prompt.toCamelCase U (VString (ascii_camel (w0 :: rest)))
     = Return (ascii_camel (w0 :: rest)).
Proof.
  intros laws H0 Hr H2. repeat apply conj.
  - apply (kebab_of_camel U laws w0 rest H0 Hr H2).
  - apply (dot_of_camel U laws w0 rest H0 Hr H2).
  - apply (camel_of_camel U laws w0 rest H0 Hr H2).
Qed.

Lemma camel_identifier_words_witness :
  chain_prompt.toKebabCase sample (VString (js "fooBarBaz")) = Return (js "foo-bar-baz")
  /\ refined_prompt.toDotCase sample (VString (js "fooBarBaz")) = Return (js "foo.bar.baz")
  /\ refined_prompt.toCamelCase sample (VString (js "fooBarBaz")) = Return (js "fooBarBaz").
Proof.
  apply (camel_identifier_words sample (js "foo") [js "bar"; js "baz"]
           SampleLaws.sample_laws).
  - split; [discriminate | repeat constructor].
  - repeat constructor; discriminate.
  - repeat constructor.
Defined.

(** ** The simple toCamelCase *)

Lemma alnum_upper c : is_ascii_alnum c = true -> is_ascii_alnum (ascii_upper c) = true.
Proof.
  unfold ascii_upper. destruct (is_ascii_lower c) eqn:E; [|tauto]. intros _. blia.
Qed.

Lemma lower_not_upper c : is_ascii_upper (ascii_lower c) = false.
Proof.
  unfold ascii_lower. destruct (is_ascii_upper c) eqn:E; [blia | exact E].
Qed.

Lemma map_lower_alnum w :
  Forall (fun c => is_ascii_alnum c = true) w ->
  Forall (fun c => is_ascii_alnum c = true) (map ascii_lower w).
Proof.
  induction 1 as [|c w Hc Hw IH]; constructor;
    [apply BasicLatinLaws.alnum_lower, Hc | exact IH].
Qed.

Lemma camel_part_alnum w :
  Forall (fun c => is_ascii_alnum c = true) w ->
  Forall (fun c => is_ascii_alnum c = true) (ascii_camel_part w).
Proof.
  intros Hw. unfold ascii_camel_part. pose proof (map_lower_alnum w Hw) as Hl.
  destruct Hl as [|c r Hc Hr]; constructor; [apply alnum_upper, Hc | exact Hr].
Qed.

Lemma ascii_few_shot_shape s : ascii_few_shot s = [] \/ camel_word (ascii_few_shot s).
Proof.
  unfold ascii_few_shot.
  pose proof (tokens_are_tokens (fun c => negb (is_ascii_alnum c)) (trim s)) as Ht.
  fold (ascii_words (trim s)) in Ht.
  assert (Hw : Forall (fun w => w <> [] /\ Forall (fun c => is_ascii_alnum c = true) w)
                 (ascii_words (trim s))).
  { revert Ht. apply Forall_impl. intros w [Hne Hw]. split; [exact Hne|].
    revert Hw. apply Forall_impl. intros c Hc. apply negb_false_iff, Hc. }
  clear Ht. destruct Hw as [|w0 r [Hne H0] Hr]; [left; reflexivity|]. right.
  destruct w0 as [|c t]; [congruence|]. inversion H0 as [|? ? Hc Ht]; subst.
  destruct r as [|w1 r'].
  - cbn [charAt0 slice1 tl map app]. split.
    + constructor; [apply BasicLatinLaws.alnum_lower, Hc | exact Ht].
    + exists (ascii_lower c), t. split; [reflexivity | apply lower_not_upper].
  - split.
    + apply Forall_app. split; [apply map_lower_alnum, H0|].
      apply Forall_concat. apply Forall_forall. intros p Hp.
      apply in_map_iff in Hp. destruct Hp as (w & <- & Hin).
      rewrite Forall_forall in Hr. apply camel_part_alnum, (Hr w Hin).
    + cbn [map app]. eexists _, _. split; [reflexivity | apply lower_not_upper].
Qed.

Lemma ascii_few_shot_fixed out : camel_word out -> ascii_few_shot out = out.
Proof.
  intros [Hall (c & t & -> & Hc)]. unfold ascii_few_shot.
  assert (Htrim : trim (c :: t) = c :: t).
  { apply (trim_join SPACE [c :: t]). constructor; [|constructor].
    split; [discriminate|]. revert Hall. apply Forall_impl.
    intros d Hd. unfold isWhiteSpace. blia. }
  rewrite Htrim. unfold ascii_words.
  rewrite <- (app_nil_r (c :: t)) at 1. rewrite tokens_app.
  - cbn [tokens charAt0 slice1 tl map app]. f_equal.
    unfold ascii_lower. rewrite Hc. reflexivity.
  - split; [discriminate|]. revert Hall. apply Forall_impl.
    intros d Hd. rewrite Hd. reflexivity.
  - reflexivity.
Qed.

(** X11: the simple toCamelCase returns, for every argument, the empty string
    or a word of ASCII letters and digits that does not begin with an
    uppercase letter, and it is idempotent: converting its result again
    gives the result back. *)
Theorem few_shot_idempotent (U : Unicode) (input : value) :
  UnicodeLaws U ->
  exists out,
    few_shot_prompt.toCamelCase U input = Return out
    /\ Forall (fun c => is_ascii_alnum c = true) out
    /\ (forall c t, out = c :: t -> is_ascii_upper c = false)
    /\ few_shot_prompt.toCamelCase U (VString out) = Return out.
Proof.
  intros laws.
  assert (Hnil : few_shot_prompt.toCamelCase U (VString []) = Return []) by reflexivity.
  assert (Hstr : forall s, exists out,
            few_shot_prompt.toCamelCase U (VString s) = Return out
            /\ Forall (fun c => is_ascii_alnum c = true) out
            /\ (forall c t, out = c :: t -> is_ascii_upper c = false)
            /\ few_shot_prompt.toCamelCase U (VString out) = Return out).
  { intros s. exists (ascii_few_shot s). split; [apply (few_shot_ascii U laws)|].
    destruct (ascii_few_shot_shape s) as [E|Hw].
    - rewrite E. repeat split; [constructor | discriminate].
    - split; [apply Hw|]. split.
      + intros c t E. destruct Hw as [_ (c' & t' & E' & Hc)].
        rewrite E in E'. injection E' as -> _. exact Hc.
      + rewrite (few_shot_ascii U laws). f_equal. apply ascii_few_shot_fixed, Hw. }
  destruct input; try (exists []; repeat split; [constructor | discriminate]).
  apply Hstr.
Qed.

Lemma few_shot_idempotent_witness :
  exists out,
    few_shot_prompt.toCamelCase sample (VString (js "SCREEN_name 42x")) = Return out
    /\ Forall (fun c => is_ascii_alnum c = true) out
    /\ (forall c t, out = c :: t -> is_ascii_upper c = false)
    /\ few_shot_prompt.toCamelCase sample (VString out) = Return out.
Proof.
  exact (few_shot_idempotent sample (VString (js "SCREEN_name 42x"))
           SampleLaws.sample_laws).
Defined.

(** ** The self-tests *)

Lemma strict_equal_spec a b : strict_equal a b = true <-> a = b.
Proof.
  revert b. induction a as [|x a IH]; intros [|y b]; simpl;
    try (split; [discriminate | congruence]); [tauto|].
  rewrite andb_true_iff, Z.eqb_eq, IH. split; [intros [-> ->]; reflexivity|].
  intros E. injection E as -> ->. auto.
Qed.

Section AsciiTests.
Variable U : Unicode.
Hypothesis laws : UnicodeLaws U.

Lemma kebab_on_sample s :
  Forall is_ascii s ->
  chain_prompt.toKebabCase U (VString s) = chain_prompt.toKebabCase sample (VString s).
Proof.
  intros Hs. rewrite (proj2 (toKebabCase_ascii U laws s Hs)).
  rewrite (proj2 (toKebabCase_ascii sample SampleLaws.sample_laws s Hs)). reflexivity.
Qed.

Lemma camel_on_sample s :
  Forall is_ascii s ->
  refined_prompt.toCamelCase U (VString s)
  = refined_prompt.toCamelCase sample (VString s).
Proof.
  intros Hs. rewrite (toCamelCase_ascii U laws s Hs).
  rewrite (toCamelCase_ascii sample SampleLaws.sample_laws s Hs). reflexivity.
Qed.

Lemma dot_on_sample s :
  Forall is_ascii s ->
  refined_prompt.toDotCase U (VString s) = refined_prompt.toDotCase sample (VString s).
Proof.
  intros Hs. rewrite (toDotCase_ascii U laws s Hs).
  rewrite (toDotCase_ascii sample SampleLaws.sample_laws s Hs). reflexivity.
Qed.

Lemma run_test_ascii p t :
  Forall is_ascii (fst t) ->
  chain_prompt_tests.run_test U p t = chain_prompt_tests.run_test sample p t.
Proof.
  destruct t as [input expected]. cbn [fst]. intros H.
  unfold chain_prompt_tests.run_test. rewrite (kebab_on_sample input H). reflexivity.
Qed.

Lemma run_test_bounds p t :
  (p <= chain_prompt_tests.run_test U p t <= S p)%nat.
Proof.
  destruct t as [input expected]. unfold chain_prompt_tests.run_test.
  destruct (chain_prompt.toKebabCase U (VString input)) as [actual|e]; [|lia].
  destruct (strict_equal actual expected); lia.
Qed.

Lemma camel_assertion_ascii t :
  Forall is_ascii (fst t) ->
  refined_prompt_tests.camel_assertion U t = refined_prompt_tests.camel_assertion sample t.
Proof.
  intros H. unfold refined_prompt_tests.camel_assertion.
  rewrite (camel_on_sample _ H). reflexivity.
Qed.

Lemma dot_assertion_ascii t :
  Forall is_ascii (fst t) ->
  refined_prompt_tests.dot_assertion U t = refined_prompt_tests.dot_assertion sample t.
Proof.
  intros H. unfold refined_prompt_tests.dot_assertion.
  rewrite (dot_on_sample _ H). reflexivity.
Qed.
End AsciiTests.

(** X12: the self-test that the file headed "chain_prompt.js" runs when it
    is loaded reports at least 6 of 7 on every engine that satisfies
    [UnicodeLaws]: the five ASCII cases and the invalid-input case pass.  The
    case with accented letters depends on the tables: the report is 7/7 on
    [sample] and 6/7 on [basic_latin]. *)
Theorem kebab_self_test (U : Unicode) :
  UnicodeLaws U ->
  snd (chain_prompt_tests.runTests U) = 7%nat
  /\ (6 <= fst (chain_prompt_tests.runTests U) <= 7)%nat
  /\ chain_prompt_tests.runTests sample = (7%nat, 7%nat)
  /\ chain_prompt_tests.runTests basic_latin = (6%nat, 7%nat).
Proof.
  intros laws. split; [reflexivity|]. split; [|split; vm_compute; reflexivity].
  unfold chain_prompt_tests.runTests, chain_prompt_tests.tests.
  cbn [fold_left fst].
  set (t6 := (_ ++ _, js "unicode-naive-cafe-123")).
  rewrite (run_test_ascii U laws O) by each_char.
  rewrite (run_test_ascii U laws _ (js "Mixed_delimiters - andSpaces", _)) by each_char.
  rewrite (run_test_ascii U laws _ (js "fooBarBaz", _)) by each_char.
  rewrite (run_test_ascii U laws _ (js "PascalCaseInputExample", _)) by each_char.
  rewrite (run_test_ascii U laws _ (js "  multiple   spaces__and--delims!! ", _))
    by each_char.
  set (p := chain_prompt_tests.run_test sample _ _).
  assert (Ep : p = 5%nat) by (vm_compute; reflexivity).
  rewrite Ep. pose proof (run_test_bounds U 5 t6) as Hb.
  change (chain_prompt_tests.invalidPassed U) with true. cbv iota. lia.
Qed.

Lemma kebab_self_test_witness :
  snd (chain_prompt_tests.runTests sample) = 7%nat
  /\ (6 <= fst (chain_prompt_tests.runTests sample) <= 7)%nat
  /\ chain_prompt_tests.runTests sample = (7%nat, 7%nat)
  /\ chain_prompt_tests.runTests basic_latin = (6%nat, 7%nat).
Proof. exact (kebab_self_test sample SampleLaws.sample_laws). Defined.

Lemma replace_leading_same c s : refined_prompt_tests.replace_leading c [c] s = s.
Proof.
  destruct s as [|x t]; [reflexivity|]. simpl.
  destruct (x =? c) eqn:E; [|reflexivity]. apply Z.eqb_eq in E. subst x. reflexivity.
Qed.

Section FirstLetter.
Variable U : Unicode.
Hypothesis laws : UnicodeLaws U.

Variable c : Z.
Hypothesis lowercase : isLl U c = true.
Hypothesis plain_c : plain U c.
Hypothesis bmp : is_astral c = false.

Let low (x : Z) : Prop := isLl U x = true.
Let up (x : Z) : Prop := isLu U x = true.
Let text : list Z := c :: js "VariableName".

Lemma low_not_upper x : low x -> isLu U x = false /\ isL U x = true /\ isN U x = false.
Proof.
  unfold low, isLl, isLu, isL, isN. destruct (general_category U x); try discriminate.
  auto.
Qed.

Lemma up_letter x : up x -> isL U x = true /\ isN U x = false.
Proof.
  unfold up, isLu, isL, isN. destruct (general_category U x); try discriminate. auto.
Qed.

Lemma ascii_low_low x : ascii_low x -> low x.
Proof. intros H. apply (low_classes U laws x H). Qed.

Lemma ascii_up_up x : ascii_up x -> up x.
Proof. intros H. apply (up_classes U laws x H). Qed.

Lemma variable_blocks :
  Forall (cap_block low up) [js "Variable"; js "Name"].
Proof.
  constructor; [|constructor; [|constructor]].
  - exists 86, (js "ariable"). split; [reflexivity|].
    split; [apply ascii_up_up; reflexivity|]. split; [discriminate|].
    repeat (apply Forall_cons; [apply ascii_low_low; reflexivity|]). apply Forall_nil.
  - exists 78, (js "ame"). split; [reflexivity|].
    split; [apply ascii_up_up; reflexivity|]. split; [discriminate|].
    repeat (apply Forall_cons; [apply ascii_low_low; reflexivity|]). apply Forall_nil.
Qed.

Lemma text_split : text = [c] ++ List.concat [js "Variable"; js "Name"].
Proof. reflexivity. Qed.

Lemma text_is_letters : Forall (fun x => isL U x = true /\ isN U x = false) text.
Proof.
  rewrite text_split.
  apply (camel_text_chars low up); [| | |apply variable_blocks].
  - intros x Hx. apply (low_not_upper x Hx).
  - intros x Hx. apply (up_letter x Hx).
  - constructor; [exact lowercase | constructor].
Qed.

Lemma text_plain : Forall (plain U) text.
Proof.
  constructor; [exact plain_c|].
  apply Forall_forall. intros x Hx. apply (ascii_plain U laws).
  revert x Hx. apply Forall_forall. each_char.
Qed.

Lemma text_encoding : from_code_points text = text.
Proof.
  unfold text. rewrite from_code_points_cons, (utf16_bmp c bmp).
  rewrite (from_code_points_bmp (js "VariableName")); [reflexivity|].
  apply ascii_bmp. each_char.
Qed.

Lemma text_normalized : normalized U text = text.
Proof.
  rewrite <- text_encoding at 1.
  apply (normalized_plain_text U laws text text_plain).
  rewrite text_encoding.
  apply (trim_join SPACE [text]). constructor; [|constructor].
  split; [discriminate|].
  pose proof text_is_letters as H. revert H. apply Forall_impl.
  intros x [HL _]. destruct (isWhiteSpace x) eqn:E; [|reflexivity].
  pose proof (category_space U laws x E) as Hd.
  unfold isDelimiter in Hd. rewrite HL in Hd. discriminate.
Qed.

Lemma text_tokens : refined_tokens U text = [[c]; js "Variable"; js "Name"].
Proof.
  unfold refined_tokens. rewrite text_normalized.
  pose proof text_is_letters as Hl.
  rewrite (refined_boundaries_simple U laws text).
  - rewrite text_split.
    rewrite (insert_sep_camel low up _ _ SPACE);
      [| | |discriminate|constructor; [exact lowercase | constructor]
       |apply variable_blocks].
    + apply tokens_join; [apply (delimiter_space U laws)|].
      assert (Hd : forall x, isL U x = true -> isDelimiter U x = false)
        by (intros x Hx; unfold isDelimiter; rewrite Hx; reflexivity).
      constructor.
      * split; [discriminate|]. constructor; [|constructor].
        apply Hd. apply (low_not_upper c lowercase).
      * pose proof variable_blocks as Hb. revert Hb. apply Forall_impl.
        intros b (X & r & -> & HX & _ & Hlow). split; [discriminate|].
        constructor; [apply Hd, (up_letter X HX)|].
        revert Hlow. apply Forall_impl. intros x Hx. apply Hd, (low_not_upper x Hx).
    + intros x Hx. destruct (low_not_upper x Hx) as (-> & _). unfold low in Hx.
      rewrite Hx. auto.
    + intros x Hx. destruct (upper_not_lower_or_number U x Hx) as [_ ->]. auto.
  - apply no_adjacent_no_second. revert Hl. apply Forall_impl. tauto.
  - apply no_adjacent_no_first. revert Hl. apply Forall_impl. tauto.
Qed.

Lemma camel_of_text :
  refined_prompt.toCamelCase U (VString text)
  = Return (toLowerCase U [c] ++ js "VariableName").
Proof.
  rewrite (toCamelCase_tokens U laws), text_tokens. cbn [map].
  unfold refined_prompt.lowerFirst.
  rewrite (from_code_points_bmp [c]) by (constructor; [exact bmp | constructor]).
  rewrite !from_code_points_bmp by (apply ascii_bmp; each_char).
  rewrite !(capitalize_ascii_word U laws) by each_char. reflexivity.
Qed.

Lemma first_letter_fails : refined_prompt_tests.first_letter_assertion U c = false.
Proof.
  unfold refined_prompt_tests.first_letter_assertion.
  fold text. rewrite camel_of_text, replace_leading_same.
  unfold refined_prompt_tests.assertEqual.
  destruct (strict_equal _ _) eqn:E; [|reflexivity]. exfalso.
  apply strict_equal_spec in E.
  destruct (lower_plain U laws [c] ltac:(constructor; [exact plain_c | constructor]))
    as (l1 & E1 & H1).
  destruct (lower_plain U laws text text_plain) as (l2 & E2 & H2).
  rewrite (from_code_points_bmp [c]) in E1 by (constructor; [exact bmp | constructor]).
  rewrite text_encoding in E2. rewrite E1, E2 in E.
  inversion H1 as [|? c1 ? ? Hc1 Hn]; subst. inversion Hn; subst.
  assert (Ev : from_code_points [c1] ++ js "VariableName"
               = from_code_points (c1 :: js "VariableName")).
  { rewrite (from_code_points_cons c1 (js "VariableName")).
    rewrite (from_code_points_bmp (js "VariableName")) by (apply ascii_bmp; each_char).
    simpl. rewrite app_nil_r. reflexivity. }
  rewrite Ev in E.
  assert (Hp2 : Forall (plain U) l2).
  { clear E E2. induction H2 as [|x y ? ? Hxy _ IH]; constructor; [apply Hxy | exact IH]. }
  assert (Hp1 : Forall (plain U) (c1 :: js "VariableName")).
  { constructor; [apply Hc1|]. apply Forall_forall. intros x Hx.
    apply (ascii_plain U laws). revert x Hx. apply Forall_forall. each_char. }
  apply (f_equal code_points) in E.
  rewrite (plain_decodable U _ Hp1), (plain_decodable U _ Hp2) in E.
  subst l2. unfold text in H2.
  inversion H2 as [|? ? ? ? _ H2']; subst.
  inversion H2' as [|? ? ? ? (_ & Hu & _) _]; subst.
  change (char_code "V") with 86 in Hu.
  destruct (ascii_classes U laws 86 ltac:(unfold is_ascii; lia)) as (_ & EV & _).
  rewrite EV in Hu. discriminate.
Qed.
End FirstLetter.

(** X13: of the two assertion blocks of src/refined_prompt.js, every
    assertion on an ASCII input logs PASS on every engine that satisfies
    [UnicodeLaws], and so do the four checks that null and 123 raise a
    TypeError.  The assertion of line 226 logs FAIL: for every lowercase
    letter of the BMP that NFKD leaves alone (the Greek letter mu is one in
    Unicode), toCamelCase keeps the capitals of "VariableName" after it,
    and the expected string is all lowercase. *)
Theorem refined_self_tests (U : Unicode) :
  UnicodeLaws U ->
  (forall t, In t refined_prompt_tests.camel_cases -> Forall is_ascii (fst t) ->
             refined_prompt_tests.camel_assertion U t = true)
  /\ (forall t, In t refined_prompt_tests.dot_cases -> Forall is_ascii (fst t) ->
                refined_prompt_tests.dot_assertion U t = true)
  /\ threw_TypeError (refined_prompt.toCamelCase U VNull) = true
  /\ threw_TypeError (refined_prompt.toCamelCase U (VNumber 123)) = true
  /\ threw_TypeError (refined_prompt.toDotCase U VNull) = true
  /\ threw_TypeError (refined_prompt.toDotCase U (VNumber 123)) = true
  /\ (forall c, isLl U c = true -> plain U c -> is_astral c = false ->
                refined_prompt_tests.first_letter_assertion U c = false)
  /\ map (refined_prompt_tests.camel_assertion sample) refined_prompt_tests.camel_cases
     = repeat true 10
  /\ refined_prompt_tests.dot_block sample = repeat true 12.
Proof.
  intros laws. repeat apply conj.
  - intros t Hin Ha. rewrite (camel_assertion_ascii U laws t Ha).
    unfold refined_prompt_tests.camel_cases in Hin. cbn [In] in Hin.
    repeat (destruct Hin as [<-|Hin]; [vm_compute; reflexivity|]). destruct Hin.
  - intros t Hin Ha. rewrite (dot_assertion_ascii U laws t Ha).
    unfold refined_prompt_tests.dot_cases in Hin. cbn [In] in Hin.
    repeat (destruct Hin as [<-|Hin]; [vm_compute; reflexivity|]). destruct Hin.
  - reflexivity.
  - reflexivity.
  - reflexivity.
  - reflexivity.
  - intros c H1 H2 H3. apply (first_letter_fails U laws c H1 H2 H3).
  - vm_compute. reflexivity.
  - vm_compute. reflexivity.
Qed.

Lemma refined_self_tests_witness :
  refined_prompt_tests.camel_assertion sample (js "version2alpha", js "version2Alpha") = true
  /\ refined_prompt_tests.dot_assertion sample (js "user_id", js "user.id") = true
  /\ refined_prompt_tests.first_letter_assertion sample 120 = false.
Proof.
  destruct (refined_self_tests sample SampleLaws.sample_laws)
    as (H1 & H2 & _ & _ & _ & _ & H7 & _).
  split; [|split].
  - apply H1; [simpl; tauto | each_char].
  - apply H2; [simpl; tauto | each_char].
  - apply H7; [reflexivity | apply (ascii_plain sample SampleLaws.sample_laws); unfold is_ascii; lia
              | reflexivity].
Defined.

(** ** The DELETE route of the comments *)


(** ** The refined toCamelCase is not idempotent *)

(** X16: the refined toCamelCase is not idempotent, even on ASCII text: a
    word of one letter is capitalised and then reads, together with the
    capital of the next word, as the beginning of one word.  On every
    engine "x a bc" gives "xABc", and "xABc" gives "xAbc". *)
Theorem camel_not_idempotent (U : Unicode) :
  UnicodeLaws U ->
  refined_prompt.toCamelCase U (VString (js "x a bc")) = Return (js "xABc")
  /\ refined_prompt.toCamelCase U (VString (js "xABc")) = Return (js "xAbc")
  /\ ~ (forall s out,
          Forall is_ascii s ->
          refined_prompt.toCamelCase U (VString s) = Return out ->
          refined_prompt.toCamelCase U (VString out) = Return out).
Proof.
  intros laws.
  assert (H1 : refined_prompt.toCamelCase U (VString (js "x a bc")) = Return (js "xABc")).
  { rewrite (toCamelCase_ascii U laws); [vm_compute; reflexivity | each_char]. }
  assert (H2 : refined_prompt.toCamelCase U (VString (js "xABc")) = Return (js "xAbc")).
  { rewrite (toCamelCase_ascii U laws); [vm_compute; reflexivity | each_char]. }
  split; [exact H1|]. split; [exact H2|].
  intros H. specialize (H (js "x a bc") (js "xABc")).
  rewrite H2 in H.
  assert (E : Return (js "xAbc") = Return (js "xABc")).
  { apply H; [each_char | exact H1]. }
  vm_compute in E. discriminate E.
Qed.

Lemma camel_not_idempotent_witness :
  refined_prompt.toCamelCase sample (VString (js "x a bc")) = Return (js "xABc")
  /\ refined_prompt.toCamelCase sample (VString (js "xABc")) = Return (js "xAbc")
  /\ ~ (forall s out,
          Forall is_ascii s ->
          refined_prompt.toCamelCase sample (VString s) = Return out ->
          refined_prompt.toCamelCase sample (VString out) = Return out).
Proof. apply (camel_not_idempotent sample SampleLaws.sample_laws). Defined.

(** ** C9: where the two toCamelCase agree *)

Local Abbreviation not_alnum := (fun c : Z => negb (is_ascii_alnum c)).

Section Cut.
Variables (R : Z -> Z -> bool) (p : Z -> bool).

Lemma insert_rel_cons sep a t :
  insert_rel R sep (a :: t)
  = if related R a t then a :: sep :: insert_rel R sep t
    else a :: insert_rel R sep t.
Proof. reflexivity. Qed.

Lemma cut_cons c t :
  cut R p (c :: t)
  = if p c then cut R p t
    else if continues p t && negb (related R c t) then push c (cut R p t)
         else [c] :: cut R p t.
Proof. reflexivity. Qed.

Lemma tokens_step c t :
  tokens p (c :: t)
  = if p c then tokens p t
    else if continues p t then push c (tokens p t) else [c] :: tokens p t.
Proof. reflexivity. Qed.

Lemma insert_rel_head sep b r : exists x, insert_rel R sep (b :: r) = b :: x.
Proof. rewrite insert_rel_cons. destruct (related R b r); eexists; reflexivity. Qed.

Lemma continues_insert_rel sep t : continues p (insert_rel R sep t) = continues p t.
Proof.
  destruct t as [|b r]; [reflexivity|].
  destruct (insert_rel_head sep b r) as (x & ->). reflexivity.
Qed.

(** The tokens of a text with separators inserted are the cut tokens of the
    text. *)
Lemma tokens_insert_rel sep s :
  p sep = true -> tokens p (insert_rel R sep s) = cut R p s.
Proof.
  intros Hsep. induction s as [|a t IH]; [reflexivity|].
  rewrite insert_rel_cons, cut_cons.
  destruct (related R a t) eqn:E.
  - rewrite (tokens_step a (sep :: insert_rel R sep t)).
    rewrite (tokens_step sep (insert_rel R sep t)), Hsep.
    cbn [continues]. rewrite Hsep. cbn [negb]. rewrite IH, andb_false_r. reflexivity.
  - rewrite (tokens_step a (insert_rel R sep t)), IH, andb_true_r.
    rewrite continues_insert_rel. reflexivity.
Qed.

Lemma cut_head b r : p b = false -> exists x xs, cut R p (b :: r) = (b :: x) :: xs.
Proof.
  intros Hb. rewrite cut_cons, Hb.
  destruct (continues p r && negb (related R b r)).
  - unfold push. destruct (cut R p r); eexists _, _; reflexivity.
  - eexists _, _; reflexivity.
Qed.

Lemma cut_nil s : tokens p s = [] -> cut R p s = [].
Proof.
  induction s as [|c t IH]; [reflexivity|].
  rewrite tokens_step, cut_cons. destruct (p c); [exact IH|].
  destruct (continues p t); [|discriminate].
  unfold push. destruct (tokens p t); discriminate.
Qed.
End Cut.

Lemma insert_sep_rel p q sep s :
  insert_sep p q sep s = insert_rel (fun a b => p a && q b) sep s.
Proof.
  induction s as [|a t IH]; [reflexivity|]. destruct t as [|b r]; [reflexivity|].
  rewrite insert_sep_cons, insert_rel_cons. cbn [related]. rewrite IH. reflexivity.
Qed.

(** Two insertions one after the other are one insertion. *)
Lemma insert_rel_twice (R1 R2 : Z -> Z -> bool) sep s :
  (forall a, R2 a sep = false /\ R2 sep a = false) ->
  insert_rel R2 sep (insert_rel R1 sep s)
  = insert_rel (fun a b => R1 a b || R2 a b) sep s.
Proof.
  intros Hsep. induction s as [|a t IH]; [reflexivity|].
  rewrite (insert_rel_cons R1), (insert_rel_cons (fun a b => R1 a b || R2 a b)).
  destruct t as [|b r]; [reflexivity|].
  assert (Hrel : forall c, related R2 c (insert_rel R1 sep (b :: r)) = R2 c b).
  { intros c. destruct (insert_rel_head R1 sep b r) as (x & ->). reflexivity. }
  cbn [related]. destruct (R1 a b) eqn:E1; cbn [orb].
  - rewrite (insert_rel_cons R2 sep a). cbn [related]. destruct (Hsep a) as [-> _].
    rewrite (insert_rel_cons R2 sep sep), Hrel. destruct (Hsep b) as [_ ->].
    rewrite IH. reflexivity.
  - rewrite (insert_rel_cons R2 sep a), Hrel.
    destruct (R2 a b); rewrite IH; reflexivity.
Qed.

Lemma cut_ext (P : Z -> Prop) (R R' : Z -> Z -> bool) (p p' : Z -> bool) s :
  (forall c, P c -> p c = p' c) ->
  (forall a b, P a -> P b -> R a b = R' a b) ->
  Forall P s -> cut R p s = cut R' p' s.
Proof.
  intros Hp HR. induction 1 as [|c t Hc Ht IH]; [reflexivity|].
  rewrite !cut_cons, IH, (Hp c Hc).
  replace (continues p t) with (continues p' t)
    by (destruct Ht as [|b r Hb _]; [reflexivity | simpl; rewrite (Hp b Hb); reflexivity]).
  replace (related R c t) with (related R' c t)
    by (destruct Ht as [|b r Hb _]; [reflexivity | simpl; symmetry; apply HR; assumption]).
  reflexivity.
Qed.

(** *** The words of the Unicode-aware implementation on ASCII text *)

Section AsciiCut.
Variable U : Unicode.
Hypothesis laws : UnicodeLaws U.
Variable s : jsstring.
Hypothesis ascii : Forall is_ascii s.

Lemma refined_tokens_cut :
  refined_tokens U s = cut ascii_boundary not_alnum (trim s).
Proof.
  unfold refined_tokens. rewrite (normalized_ascii U laws s ascii).
  destruct (space_class U laws) as [HL HN].
  unfold refined_boundaries, refined_prompt.re_lower_upper,
    refined_prompt.re_letter_number, refined_prompt.re_number_letter.
  rewrite (pair_scan_insert _ (isLu U))
    by (intros c Hc; apply (upper_not_lower_or_number U c Hc)).
  rewrite (pair_scan_insert (isL U) (isN U) SPACE (number_not_letter U)).
  rewrite (pair_scan_insert (isN U) (isL U) SPACE (letter_not_number U)).
  rewrite !insert_sep_rel.
  rewrite (insert_rel_twice (fun a b => (isLl U a || isN U a) && isLu U b)
             (fun a b => isL U a && isN U b))
    by (intros a; rewrite HL, HN, andb_false_r; auto).
  rewrite (insert_rel_twice _ (fun a b => isN U a && isL U b))
    by (intros a; rewrite HL, HN, andb_false_r; auto).
  rewrite tokens_insert_rel by apply (delimiter_space U laws).
  apply (cut_ext is_ascii); [| |apply trim_Forall, ascii].
  - intros c Hc. apply (ascii_delimiter U laws c Hc).
  - intros a b Ha Hb.
    destruct (ascii_classes U laws a Ha) as (-> & _ & -> & -> & _).
    destruct (ascii_classes U laws b Hb) as (-> & -> & _ & -> & _).
    reflexivity.
Qed.
End AsciiCut.

(** *** The two renderings of the words *)

Lemma capitalize_cons c x :
  ascii_capitalize (c :: x) = ascii_upper c :: map ascii_lower x.
Proof.
  unfold ascii_capitalize. destruct (is_ascii_digit c) eqn:Hd; [|reflexivity].
  f_equal. unfold ascii_upper. destruct (is_ascii_lower c) eqn:Hl; [blia | reflexivity].
Qed.

Lemma camel_part_capitalize w : ascii_camel_part w = ascii_capitalize w.
Proof.
  destruct w as [|c x]; [reflexivity|]. rewrite capitalize_cons.
  unfold ascii_camel_part. cbn [map]. rewrite ascii_upper_lower. reflexivity.
Qed.

Lemma lowered_camel_camel ws : lowered_camel ws = ascii_camel ws.
Proof.
  destruct ws as [|w0 r]; [reflexivity|]. unfold lowered_camel, ascii_camel.
  do 2 f_equal. apply map_ext, camel_part_capitalize.
Qed.

Lemma capitalized_push c w ws :
  List.concat (map ascii_capitalize (push c (w :: ws)))
  = ascii_upper c :: ascii_camel (w :: ws).
Proof. cbn [push map List.concat]. rewrite capitalize_cons. reflexivity. Qed.

Lemma camel_push c w ws :
  ascii_camel (push c (w :: ws)) = ascii_lower c :: ascii_camel (w :: ws).
Proof. reflexivity. Qed.

Lemma capitalized_single c ws :
  List.concat (map ascii_capitalize ([c] :: ws))
  = ascii_upper c :: List.concat (map ascii_capitalize ws).
Proof. cbn [map List.concat]. rewrite capitalize_cons. reflexivity. Qed.

Lemma camel_single c ws :
  ascii_camel ([c] :: ws) = ascii_lower c :: List.concat (map ascii_capitalize ws).
Proof. reflexivity. Qed.

Lemma no_adjacent_cons R c b r :
  no_adjacent R (c :: b :: r) = true ->
  R c b = false /\ no_adjacent R (b :: r) = true.
Proof.
  change (no_adjacent R (c :: b :: r)) with (negb (R c b) && no_adjacent R (b :: r)).
  rewrite andb_true_iff, negb_true_iff. tauto.
Qed.

Lemma no_adjacent_tail R c t : no_adjacent R (c :: t) = true -> no_adjacent R t = true.
Proof. cbn [no_adjacent]. rewrite andb_true_iff. tauto. Qed.

(** With no lowercase letter before an uppercase one and no digit before a
    letter, the cut words are rendered as the uncut ones. *)
Lemma camel_cut_lowered t :
  no_adjacent lower_then_upper t = true ->
  no_adjacent digit_then_letter t = true ->
  List.concat (map ascii_capitalize (cut ascii_boundary not_alnum t))
  = List.concat (map ascii_capitalize (tokens not_alnum t))
  /\ ascii_camel (cut ascii_boundary not_alnum t) = ascii_camel (tokens not_alnum t).
Proof.
  induction t as [|c t IH]; [split; reflexivity|]. intros H1 H2.
  destruct (IH (no_adjacent_tail _ _ _ H1) (no_adjacent_tail _ _ _ H2)) as [IHa IHb].
  rewrite cut_cons, tokens_step. cbv beta.
  destruct (negb (is_ascii_alnum c)) eqn:Hc; [split; assumption|].
  destruct t as [|b r].
  { split; reflexivity. }
  cbn [continues related]. destruct (negb (is_ascii_alnum b)) eqn:Hb; cbn [negb andb].
  { rewrite !capitalized_single, !camel_single, IHa. split; reflexivity. }
  destruct (no_adjacent_cons _ _ _ _ H1) as [K1 _].
  destruct (no_adjacent_cons _ _ _ _ H2) as [K2 _].
  destruct (cut_head ascii_boundary not_alnum b r Hb) as (x & xs & Ex).
  destruct (tokens_head not_alnum r b Hb) as (w & rest & post & Ew & _ & _).
  rewrite Ex, Ew in *.
  destruct (ascii_boundary c b) eqn:Eb; cbn [negb].
  - assert (Hd : ascii_upper b = ascii_lower b).
    { unfold ascii_upper, ascii_lower, ascii_boundary, lower_then_upper,
        digit_then_letter, is_ascii_letter in *.
      destruct (is_ascii_lower b) eqn:Lb; destruct (is_ascii_upper b) eqn:Ub; blia. }
    assert (Hx : List.concat (map ascii_capitalize ((b :: x) :: xs))
                 = ascii_camel ((b :: x) :: xs)).
    { cbn [map List.concat ascii_camel]. rewrite capitalize_cons, Hd. reflexivity. }
    rewrite capitalized_single, camel_single, capitalized_push, camel_push.
    rewrite Hx, IHb. split; reflexivity.
  - rewrite !capitalized_push, !camel_push, IHb. split; reflexivity.
Qed.

Lemma raised_push c w ws :
  List.concat (map raise_first (push c (w :: ws)))
  = ascii_upper c :: w ++ List.concat (map raise_first ws).
Proof. reflexivity. Qed.

Lemma kept_push c w ws :
  kept_camel (push c (w :: ws))
  = ascii_lower c :: w ++ List.concat (map raise_first ws).
Proof. reflexivity. Qed.

(** With no uppercase letter after an uppercase one and no lowercase letter
    after a digit, rendering the cut words changes the first character of
    each uncut word only. *)
Lemma camel_cut_kept t :
  no_adjacent upper_then_upper t = true ->
  no_adjacent digit_then_lower t = true ->
  List.concat (map ascii_capitalize (cut ascii_boundary not_alnum t))
  = List.concat (map raise_first (tokens not_alnum t))
  /\ ascii_camel (cut ascii_boundary not_alnum t) = kept_camel (tokens not_alnum t).
Proof.
  induction t as [|c t IH]; [split; reflexivity|]. intros H1 H2.
  destruct (IH (no_adjacent_tail _ _ _ H1) (no_adjacent_tail _ _ _ H2)) as [IHa IHb].
  rewrite cut_cons, tokens_step. cbv beta.
  destruct (negb (is_ascii_alnum c)) eqn:Hc; [split; assumption|].
  destruct t as [|b r].
  { cbn [continues andb]. rewrite capitalized_single, camel_single. split; reflexivity. }
  cbn [continues related]. destruct (negb (is_ascii_alnum b)) eqn:Hb; cbn [negb andb].
  { rewrite capitalized_single, camel_single, IHa. split; reflexivity. }
  destruct (no_adjacent_cons _ _ _ _ H1) as [K1 _].
  destruct (no_adjacent_cons _ _ _ _ H2) as [K2 _].
  destruct (cut_head ascii_boundary not_alnum b r Hb) as (x & xs & Ex).
  destruct (tokens_head not_alnum r b Hb) as (w & rest & post & Ew & _ & _).
  rewrite Ex, Ew in *.
  destruct (ascii_boundary c b) eqn:Eb; cbn [negb].
  - assert (Hu : ascii_upper b = b).
    { unfold ascii_upper, ascii_boundary, upper_then_upper, digit_then_lower,
        is_ascii_letter in *.
      destruct (is_ascii_lower b) eqn:Lb; [blia | reflexivity]. }
    rewrite capitalized_single, camel_single, raised_push, kept_push, IHa.
    cbn [map List.concat raise_first]. rewrite Hu. split; reflexivity.
  - assert (Hl : ascii_lower b = b).
    { unfold ascii_lower, ascii_boundary, upper_then_upper, digit_then_lower,
        is_ascii_letter in *.
      destruct (is_ascii_upper b) eqn:Ub; [blia | reflexivity]. }
    rewrite capitalized_push, camel_push, raised_push, kept_push, IHb.
    cbn [kept_camel lower_first]. rewrite Hl. split; reflexivity.
Qed.

Section TwoCamels.
Variable U : Unicode.
Hypothesis laws : UnicodeLaws U.
Variable s : jsstring.
Hypothesis ascii : Forall is_ascii s.
Hypothesis same : same_camel s = true.

Lemma implementations_agree :
  few_shot_prompt.toCamelCase U (VString s)
  = refined_prompt.toCamelCase U (VString s).
Proof.
  rewrite (few_shot_ascii U laws), (toCamelCase_ascii_tokens U laws s ascii).
  rewrite (refined_tokens_cut U laws s ascii). f_equal.
  pose proof same as Hs. unfold same_camel in Hs. rewrite <- ascii_words_trim in Hs.
  unfold ascii_few_shot. unfold ascii_words in *.
  destruct (tokens not_alnum (trim s)) as [|w0 [|w1 r]] eqn:Et.
  - rewrite (cut_nil _ _ _ Et). reflexivity.
  - apply andb_true_iff in Hs. destruct Hs as [H1 H2].
    destruct (camel_cut_kept (trim s) (no_adjacent_trim _ _ H1) (no_adjacent_trim _ _ H2))
      as [_ ->].
    rewrite Et. destruct w0 as [|c x]; [reflexivity|].
    cbn. rewrite app_nil_r. reflexivity.
  - apply andb_true_iff in Hs. destruct Hs as [H1 H2].
    destruct (camel_cut_lowered (trim s) (no_adjacent_trim _ _ H1)
                (no_adjacent_trim _ _ H2)) as [_ ->].
    rewrite Et. exact (lowered_camel_camel (w0 :: w1 :: r)).
Qed.
End TwoCamels.

(** C9, amended: the two toCamelCase implementations return the same string
    on every ASCII string that has no word; or a single word in which no
    uppercase letter follows an uppercase letter and no lowercase letter
    follows a digit; or two words or more, in none of which a lowercase
    letter stands before an uppercase one or a digit before a letter.  They
    differ elsewhere, as on "AB". *)
Theorem camel_implementations_agree (U : Unicode) (s : jsstring) :
  UnicodeLaws U ->
  Forall is_ascii s ->
  same_camel s = true ->
  few_shot_prompt.toCamelCase U (VString s)
  = refined_prompt.toCamelCase U (VString s).
Proof.
  intros laws H0 H1. apply (implementations_agree U laws s H0 H1).
Qed.

Lemma camel_implementations_agree_witness :
  few_shot_prompt.toCamelCase sample (VString (js "  SCREEN_NAME of-user1 42 "))
  = refined_prompt.toCamelCase sample (VString (js "  SCREEN_NAME of-user1 42 ")).
Proof.
  apply (camel_implementations_agree sample (js "  SCREEN_NAME of-user1 42 ")
           SampleLaws.sample_laws); [each_char | vm_compute; reflexivity].
Defined.

(** The condition of C9 is needed, too: on the sample engine, among all
    strings of up to six of the characters "a", "A", "1" and " ", the two
    implementations return the same string exactly for the strings that
    satisfy it. *)
Lemma same_camel_exact_small :
  forallb
    (fun s =>
       Bool.eqb
         (same_camel s)
         (same_text
            (returned (few_shot_prompt.toCamelCase sample (VString s)))
            (returned (refined_prompt.toCamelCase sample (VString s)))))
    (texts [0x61; 0x41; 0x31; 0x20] 6)
  = true.
Proof. vm_compute. reflexivity. Qed.
